(** * WOLFSM: the simulation and synchronisation engine, embedded in Rocq

    The engine lives in the [GameEngine] component, of which the
    repository holds several variants.  Embedded here:

    - [Engine]: the variant with snakes, rocks, healing streams and levelling
      (the file that matches [types.ts]);
    - [Wolf]: the enemy AI of the older variant with wolves and trees, which
      carries the sanctuary rule;
    - [WolfNet]: the data handler of the networked wolf variant, whose world
      update also carries the score.

    Number model.  A JavaScript [number] is an IEEE double.  Coordinates,
    angles, radii and the pseudo-random stream are idealised as real numbers
    ([R]): [Math.sqrt], [Math.sin], [Math.cos], [Math.floor], [Math.abs],
    [Math.max] and [Math.min] are the real functions, [Math.atan2] is
    [atan2] below, rounding, NaN and signed zeros are not modelled.  Health,
    cooldowns, level and experience only ever hold small integers (they are
    initialised with integer literals and changed by integer steps), so they
    are integers ([Z]).  Optional fields ([level?], [xp?], [maxXp?]) are
    [option]s, and [v || d] on them is [orDefault].

    Effects.  [state.current] is passed explicitly.  [Math.random()] is an
    oracle [Rng] (the n-th call returns [rng n]) with the index of the next
    call threaded through; [Date.now()] is an argument.  [while] loops take
    fuel and return [None] when it runs out.  Comparisons of reals do not
    compute, so the engine is evaluated on concrete states by rewriting with
    the lemmas below rather than by reduction. *)

From Stdlib Require Import Reals Lra Lia ZArith List String Bool DecimalString.
Import ListNotations.

Local Open Scope R_scope.

(** ** Numbers *)

Definition Rltb (a b : R) : bool := if Rlt_dec a b then true else false.
Definition Rgtb (a b : R) : bool := if Rgt_dec a b then true else false.
Definition Reqb (a b : R) : bool := if Req_dec_T a b then true else false.

(** [Math.floor]. *)
Definition floor (v : R) : R := IZR (Int_part v).

(** [Math.atan2(b, a)] on reals: the angle of the point [(a, b)], in
    [(-PI, PI]], and [0] at the origin. *)
Definition atan2 (b a : R) : R :=
  if Rlt_dec 0 a then atan (b / a)
  else if Rlt_dec a 0 then
    (if Rle_dec 0 b then atan (b / a) + PI else atan (b / a) - PI)
  else if Rlt_dec 0 b then PI / 2
  else if Rlt_dec b 0 then - (PI / 2)
  else 0.

(** [while (cond(v)) v = body(v)] on one numeric variable. *)
Fixpoint while (fuel : nat) (cond : R -> bool) (body : R -> R) (v : R) : option R :=
  match fuel with
  | O => None
  | S fuel' => if cond v then while fuel' cond body (body v) else Some v
  end.

(** [v || d] on an optional integer field: [undefined] and [0] are falsy. *)
Definition orDefault (v : option Z) (d : Z) : Z :=
  match v with
  | Some n => if Z.eqb n 0 then d else n
  | None => d
  end.

(** Template-literal rendering of a counter. *)
Definition natToString (n : nat) : string := NilZero.string_of_uint (Nat.to_uint n).

(** ** Data model ([types.ts]) *)

Record Vec2 : Type := mkVec2 { x : R; y : R }.

Inductive EntityType : Type := PLAYER | FRIEND | SNAKE | TREE | ROCK | STREAM.

Definition EntityType_eqb (a b : EntityType) : bool :=
  match a, b with
  | PLAYER, PLAYER | FRIEND, FRIEND | SNAKE, SNAKE
  | TREE, TREE | ROCK, ROCK | STREAM, STREAM => true
  | _, _ => false
  end.

Record Entity : Type := mkEntity {
  id : string;
  pos : Vec2;
  velocity : Vec2;
  rotation : R;
  radius : R;
  type : EntityType;
  hp : Z;
  maxHp : Z;
  isAttacking : bool;
  attackCooldown : Z;
  walkCycle : R;
  color : string;
  level : option Z;
  xp : option Z;
  maxXp : option Z
}.

Record GameState : Type := mkGameState {
  player : Entity;
  friend : option Entity;
  enemies : list Entity;
  environment : list Entity;
  score : R;
  gameOver : bool;
  camera : Vec2
}.

(** Field assignments. *)

Definition setPos (v : Vec2) (e : Entity) : Entity :=
  mkEntity (id e) v (velocity e) (rotation e) (radius e) (type e) (hp e) (maxHp e)
           (isAttacking e) (attackCooldown e) (walkCycle e) (color e)
           (level e) (xp e) (maxXp e).

Definition setRotation (v : R) (e : Entity) : Entity :=
  mkEntity (id e) (pos e) (velocity e) v (radius e) (type e) (hp e) (maxHp e)
           (isAttacking e) (attackCooldown e) (walkCycle e) (color e)
           (level e) (xp e) (maxXp e).

Definition setHp (v : Z) (e : Entity) : Entity :=
  mkEntity (id e) (pos e) (velocity e) (rotation e) (radius e) (type e) v (maxHp e)
           (isAttacking e) (attackCooldown e) (walkCycle e) (color e)
           (level e) (xp e) (maxXp e).

Definition setIsAttacking (v : bool) (e : Entity) : Entity :=
  mkEntity (id e) (pos e) (velocity e) (rotation e) (radius e) (type e) (hp e) (maxHp e)
           v (attackCooldown e) (walkCycle e) (color e)
           (level e) (xp e) (maxXp e).

Definition setAttackCooldown (v : Z) (e : Entity) : Entity :=
  mkEntity (id e) (pos e) (velocity e) (rotation e) (radius e) (type e) (hp e) (maxHp e)
           (isAttacking e) v (walkCycle e) (color e)
           (level e) (xp e) (maxXp e).

Definition setWalkCycle (v : R) (e : Entity) : Entity :=
  mkEntity (id e) (pos e) (velocity e) (rotation e) (radius e) (type e) (hp e) (maxHp e)
           (isAttacking e) (attackCooldown e) v (color e)
           (level e) (xp e) (maxXp e).

Definition setLevel (v : option Z) (e : Entity) : Entity :=
  mkEntity (id e) (pos e) (velocity e) (rotation e) (radius e) (type e) (hp e) (maxHp e)
           (isAttacking e) (attackCooldown e) (walkCycle e) (color e)
           v (xp e) (maxXp e).

Definition setXp (v : option Z) (e : Entity) : Entity :=
  mkEntity (id e) (pos e) (velocity e) (rotation e) (radius e) (type e) (hp e) (maxHp e)
           (isAttacking e) (attackCooldown e) (walkCycle e) (color e)
           (level e) v (maxXp e).

Definition setPlayer (v : Entity) (s : GameState) : GameState :=
  mkGameState v (friend s) (enemies s) (environment s) (score s) (gameOver s) (camera s).

Definition setFriend (v : option Entity) (s : GameState) : GameState :=
  mkGameState (player s) v (enemies s) (environment s) (score s) (gameOver s) (camera s).

Definition setEnemies (v : list Entity) (s : GameState) : GameState :=
  mkGameState (player s) (friend s) v (environment s) (score s) (gameOver s) (camera s).

Definition setEnvironment (v : list Entity) (s : GameState) : GameState :=
  mkGameState (player s) (friend s) (enemies s) v (score s) (gameOver s) (camera s).

Definition setScore (v : R) (s : GameState) : GameState :=
  mkGameState (player s) (friend s) (enemies s) (environment s) v (gameOver s) (camera s).

Definition setCamera (v : Vec2) (s : GameState) : GameState :=
  mkGameState (player s) (friend s) (enemies s) (environment s) (score s) (gameOver s) v.

(** ** Shared constants and utilities *)

Definition CANVAS_WIDTH : R := 2500.
Definition CANVAS_HEIGHT : R := 2500.
Definition SPAWN_ZONE_CENTER : Vec2 := mkVec2 1250 1250.
Definition SPAWN_ZONE_RADIUS : R := 300.

Definition dist (a b : Vec2) : R :=
  sqrt ((x a - x b) ^ 2 + (y a - y b) ^ 2).

Definition lerp (start stop t : R) : R := start * (1 - t) + stop * t.

(** [seededRandom]: the post-increment of the parameter has no effect. *)
Definition seededRandom (seed : R) : R :=
  let v := sin seed * 10000 in v - floor v.

Definition zeroVec : Vec2 := mkVec2 0 0.

(** ** The engine (snakes, rocks, streams, levelling) *)

Module Engine.

(** *** Session state *)

Definition initialPlayer : Entity :=
  mkEntity "p1" SPAWN_ZONE_CENTER zeroVec 0 25 PLAYER 100 100 false 0 0 "#cbd5e1"
           (Some 1%Z) (Some 0%Z) (Some 100%Z).

Definition initialFriend : Entity :=
  mkEntity "p2" (mkVec2 (x SPAWN_ZONE_CENTER + 60) (y SPAWN_ZONE_CENTER)) zeroVec 0 25
           FRIEND 100 100 false 0 0 "#cbd5e1" (Some 1%Z) None None.

Definition initialState : GameState :=
  mkGameState initialPlayer None [] [] 0 false SPAWN_ZONE_CENTER.

(** *** World generation: [initWorld] *)

(** Instrumentation: every call of [seededRandom] made by the obstacle loop is
    logged, by the call itself, with its argument and with the field its
    value goes to. *)
Inductive DrawUse : Type := DrawPosX | DrawPosY | DrawType | DrawRotation | DrawRadius.

Definition DrawUse_eqb (a b : DrawUse) : bool :=
  match a, b with
  | DrawPosX, DrawPosX | DrawPosY, DrawPosY | DrawType, DrawType
  | DrawRotation, DrawRotation | DrawRadius, DrawRadius => true
  | _, _ => false
  end.

Record Draw : Type := mkDraw { drawUse : DrawUse; drawArg : R }.

(** A computation that calls [seededRandom]: its value, and the log of the
    calls it made, in call order. *)
Definition Traced (A : Type) : Type := (A * list Draw)%type.

Definition ret {A : Type} (a : A) : Traced A := (a, []).

Definition bind {A B : Type} (m : Traced A) (f : A -> Traced B) : Traced B :=
  (fst (f (fst m)), snd m ++ snd (f (fst m))).

(** The call [seededRandom(arg)], whose value goes to [use]. *)
Definition drawFor (use : DrawUse) (arg : R) : Traced R :=
  (seededRandom arg, [mkDraw use arg]).

Notation "x <- m ;; k" := (bind m (fun x => k))
  (at level 61, m at next level, right associativity).

Record GenState : Type := mkGenState {
  currentSeed : R;
  env : list Entity;
  draws : list Draw
}.

(** Body of the stream loop; [currentSeed] is still the seed there. *)
Definition streamEntity (seed : R) (i : nat) : Entity :=
  let px := (INR i / 30) * CANVAS_WIDTH in
  let py := (CANVAS_HEIGHT / 2) + sin (INR i * 0.5 + seed) * 400 in
  mkEntity ("stream-" ++ natToString i) (mkVec2 px py) zeroVec 0 60 STREAM 0 0
           false 0 0 "#3b82f6" None None None.

Definition streamStep (g : GenState) (i : nat) : GenState :=
  mkGenState (currentSeed g) (env g ++ [streamEntity (currentSeed g) i]) (draws g).

(** The object literal pushed for an obstacle, from the values of its
    [rotation] and [radius] expressions. *)
Definition obstacleEntity (i : nat) (p : Vec2) (rot rad : R) (isRock : bool) : Entity :=
  mkEntity ("env-" ++ natToString i) p zeroVec rot rad
           (if isRock then ROCK else TREE)
           100 100 false 0 0
           (if isRock then "#57534e" else "#14532d")
           None None None.

(** Candidate position of one iteration, from the seed value it starts with. *)
Definition candidatePos (cur : R) : Vec2 :=
  mkVec2 (seededRandom (cur + 1) * CANVAS_WIDTH)
         (seededRandom (cur + 1 + 1) * CANVAS_HEIGHT).

(** Body of the tree-and-rock loop, from the value [cur] of [currentSeed]:
    the new [currentSeed] and the entity pushed, if one is.  The calls are
    made in the order in which JavaScript evaluates them: [r1], [r2],
    [isRock], then the properties of the object literal from top to
    bottom. *)
Definition obstacleBody (cur : R) (i : nat) : Traced (R * option Entity) :=
  let s1 := cur + 1 in
  r1 <- drawFor DrawPosX s1 ;;
  let s2 := s1 + 1 in
  r2 <- drawFor DrawPosY s2 ;;
  let p := mkVec2 (r1 * CANVAS_WIDTH) (r2 * CANVAS_HEIGHT) in
  if Rgtb (dist p SPAWN_ZONE_CENTER) (SPAWN_ZONE_RADIUS + 50) then
    t <- drawFor DrawType (s2 + 10) ;;
    let isRock := Rgtb t 0.8 in
    rot <- (r <- drawFor DrawRotation (s2 + 5) ;; ret (r * PI * 2)) ;;
    rad <- (if isRock
            then (r <- drawFor DrawRadius s2 ;; ret (25 + r * 20))
            else (r <- drawFor DrawRadius (s2 + 1) ;; ret (40 + r * 50))) ;;
    ret (s2, Some (obstacleEntity i p rot rad isRock))
  else ret (s2, None).

(** One iteration on the generator state: the seed, the environment and
    the log of the calls. *)
Definition obstacleStep (g : GenState) (i : nat) : GenState :=
  let r := obstacleBody (currentSeed g) i in
  mkGenState (fst (fst r))
             (match snd (fst r) with
              | Some e => env g ++ [e]
              | None => env g
              end)
             (draws g ++ snd r).

Definition generate (seed : R) : GenState :=
  let g0 := mkGenState seed [] [] in
  let g1 := fold_left streamStep (seq 0 30) g0 in
  fold_left obstacleStep (seq 0 250) g1.

Definition initWorld (seed : R) (s : GameState) : GameState :=
  setEnvironment (env (generate seed)) s.

(** [Math.random()]: the n-th call returns [rng n]. *)
Definition Rng : Type := nat -> R.

(** Step 2 of the mount effect: [GAME_SEED || Math.random() * 10000], then
    [initWorld(seed)].  [gameSeed] is [window.GAME_SEED], which the lobby
    sets on both peers from the GAME_START message; [undefined] and [0] are
    falsy. *)
Definition sessionSeed (gameSeed : option R) (rng : Rng) (k : nat) : R * nat :=
  match gameSeed with
  | Some v => if Reqb v 0 then (rng k * 10000, S k) else (v, k)
  | None => (rng k * 10000, S k)
  end.

Definition startWorld (gameSeed : option R) (rng : Rng) (s : GameState) (k : nat)
  : GameState * nat :=
  (initWorld (fst (sessionSeed gameSeed rng k)) s, snd (sessionSeed gameSeed rng k)).

Definition isObstacle (e : Entity) : bool :=
  EntityType_eqb (type e) TREE || EntityType_eqb (type e) ROCK.

(** What the obstacle placed by iteration [i] looks like: a tree or rock
    outside the exclusion circle, at the candidate position of its
    iteration. *)
Definition placedAt (seed : R) (i : nat) (e : Entity) : Prop :=
  isObstacle e = true /\
  dist (pos e) SPAWN_ZONE_CENTER > SPAWN_ZONE_RADIUS + 50 /\
  id e = ("env-" ++ natToString i)%string /\
  pos e = candidatePos (seed + 2 * INR i).

(** *** Spawning: [spawnSnakes] *)

Definition randomPos (rng : Rng) (k : nat) : Vec2 :=
  mkVec2 (rng k * CANVAS_WIDTH) (rng (S k) * CANVAS_HEIGHT).

Definition rejected (playerPos p : Vec2) : bool :=
  Rltb (dist p playerPos) 600 || Rltb (dist p SPAWN_ZONE_CENTER) SPAWN_ZONE_RADIUS.

(** The rejection loop: [p] is the current candidate, [k] the next draw. *)
Fixpoint retrySpawn (fuel : nat) (rng : Rng) (playerPos p : Vec2) (k : nat)
  : option (Vec2 * nat) :=
  match fuel with
  | O => None
  | S fuel' =>
      if rejected playerPos p
      then retrySpawn fuel' rng playerPos (randomPos rng k) (k + 2)
      else Some (p, k)
  end.

Definition newSnake (now i : nat) (p : Vec2) : Entity :=
  mkEntity ("snake-" ++ natToString now ++ "-" ++ natToString i) p zeroVec 0 20 SNAKE
           60 60 false 0 0 "#4d7c0f" None None None.

(** [clock i] is what [Date.now()] returns in iteration [i]. *)
Fixpoint spawnLoop (fuel : nat) (rng : Rng) (clock : nat -> nat) (idx : list nat)
         (s : GameState) (k : nat) : option (GameState * nat) :=
  match idx with
  | [] => Some (s, k)
  | i :: rest =>
      match retrySpawn fuel rng (pos (player s)) (randomPos rng k) (k + 2) with
      | None => None
      | Some (p, k') =>
          spawnLoop fuel rng clock rest
                    (setEnemies (enemies s ++ [newSnake (clock i) i p]) s) k'
      end
  end.

Definition spawnSnakes (fuel : nat) (rng : Rng) (clock : nat -> nat) (count : nat)
           (s : GameState) (k : nat) : option (GameState * nat) :=
  spawnLoop fuel rng clock (seq 0 count) s k.

(** *** Melee: [gainXp], [handleAttack] *)

(** [p] is [state.current.player]. *)
Definition gainXp (amount : Z) (p : Entity) : Entity :=
  if (2 <=? orDefault (level p) 1)%Z then p
  else
    let newXp := (orDefault (xp p) 0 + amount)%Z in
    let p1 := setXp (Some newXp) p in
    if (orDefault (maxXp p1) 100 <=? newXp)%Z
    then setHp (maxHp p1) (setXp (maxXp p1) (setLevel (Some 2%Z) p1))
    else p1.

Definition attackRange : R := 150.
Definition attackAngle : R := 1.5.

(** The two normalisation loops on [angleDiff]. *)
Definition normalizeAngle (fuel : nat) (angleDiff : R) : option R :=
  match while fuel (fun v => Rgtb v PI) (fun v => v - PI * 2) angleDiff with
  | None => None
  | Some a => while fuel (fun v => Rltb v (- PI)) (fun v => v + PI * 2) a
  end.

Definition attackDamage (p : Entity) : Z :=
  if (2 <=? orDefault (level p) 1)%Z then 60%Z else 12%Z.

(** Body of the [forEach] of [handleAttack]: returns the enemy and the
    player as they are after the iteration. *)
Definition attackEnemy (fuel : nat) (damage : Z) (enemy p : Entity)
  : option (Entity * Entity) :=
  let dx := x (pos enemy) - x (pos p) in
  let dy := y (pos enemy) - y (pos p) in
  let d := sqrt (dx * dx + dy * dy) in
  if Rltb d attackRange then
    let angleToEnemy := atan2 dy dx in
    match normalizeAngle fuel (angleToEnemy - rotation p) with
    | None => None
    | Some angleDiff =>
        if Rltb (Rabs angleDiff) attackAngle then
          let e1 := setHp (hp enemy - damage)%Z enemy in
          let e2 := setPos (mkVec2 (x (pos e1) + cos angleToEnemy * 40)
                                   (y (pos e1) + sin angleToEnemy * 40)) e1 in
          if ((hp e2 <=? 0) && (0 <? hp e2 + damage))%Z
          then Some (e2, gainXp 10 p)
          else Some (e2, p)
        else Some (enemy, p)
    end
  else Some (enemy, p).

Fixpoint attackAll (fuel : nat) (damage : Z) (es : list Entity) (p : Entity)
  : option (list Entity * Entity) :=
  match es with
  | [] => Some ([], p)
  | enemy :: rest =>
      match attackEnemy fuel damage enemy p with
      | None => None
      | Some (enemy', p1) =>
          match attackAll fuel damage rest p1 with
          | None => None
          | Some (rest', p2) => Some (enemy' :: rest', p2)
          end
      end
  end.

Definition handleAttack (fuel : nat) (s : GameState) : option GameState :=
  if gameOver s then Some s
  else
    let p := player s in
    if (attackCooldown p <=? 0)%Z then
      let p1 := setAttackCooldown 25 (setIsAttacking true p) in
      let damage := attackDamage p1 in
      match attackAll fuel damage (enemies s) p1 with
      | None => None
      | Some (es, p2) => Some (setEnemies es (setPlayer p2 s))
      end
    else Some s.

(** *** One tick: [updatePhysics] *)

Record Controls : Type := mkControls {
  keys : string -> bool;
  joystickActive : bool;
  joystickDx : R;
  joystickDy : R
}.

(** Input integration for the player. *)
Definition movePlayer (c : Controls) (p : Entity) : Entity :=
  let speed := 7 in
  let dy1 := if keys c "KeyW" || keys c "ArrowUp" then -1 else 0 in
  let dy2 := if keys c "KeyS" || keys c "ArrowDown" then 1 else dy1 in
  let dx1 := if keys c "KeyA" || keys c "ArrowLeft" then -1 else 0 in
  let dx2 := if keys c "KeyD" || keys c "ArrowRight" then 1 else dx1 in
  let dx := if joystickActive c then joystickDx c else dx2 in
  let dy := if joystickActive c then joystickDy c else dy2 in
  if negb (Reqb dx 0) || negb (Reqb dy 0) then
    let len := sqrt (dx * dx + dy * dy) in
    let p1 := setPos (mkVec2 (x (pos p) + (dx / len) * speed)
                             (y (pos p) + (dy / len) * speed)) p in
    let p2 := setWalkCycle (walkCycle p1 + 0.3) p1 in
    setRotation (atan2 dy dx) p2
  else setWalkCycle 0 p.

Definition tickCooldown (p : Entity) : Entity :=
  if (0 <? attackCooldown p)%Z then
    let p1 := setAttackCooldown (attackCooldown p - 1)%Z p in
    if (attackCooldown p1 <=? 0)%Z then setIsAttacking false p1 else p1
  else p.

Definition isStream (e : Entity) : bool := EntityType_eqb (type e) STREAM.
Definition isRock (e : Entity) : bool := EntityType_eqb (type e) ROCK.

Definition nearStream (s : GameState) : bool :=
  existsb (fun stream => Rltb (dist (pos (player s)) (pos stream)) (radius stream))
          (filter isStream (environment s)).

(** Healing: [Math.random()] is only called when the first two conjuncts hold. *)
Definition healPlayer (rng : Rng) (s : GameState) (k : nat) : GameState * nat :=
  let p := player s in
  if nearStream s && (hp p <? maxHp p)%Z then
    if Rgtb (rng k) 0.9
    then (setPlayer (setHp (Z.min (maxHp p) (hp p + 1)) p) s, S k)
    else (s, S k)
  else (s, k).

(** Target selection at the head of the enemy [forEach] body: the target
    position, whether it is the player's, and [closestDist]. *)
Definition chooseTarget (fr : option Entity) (snake p : Entity) : Vec2 * bool * R :=
  let distToPlayer := dist (pos snake) (pos p) in
  match fr with
  | Some f =>
      let distToFriend := dist (pos snake) (pos f) in
      if Rltb distToFriend distToPlayer then (pos f, false, distToFriend)
      else (pos p, true, distToPlayer)
  | None => (pos p, true, distToPlayer)
  end.

(** Body of the enemy [forEach]: [fr] is [s.friend], [p] is [s.player];
    returns the snake and the player after the iteration.  [target ===
    s.player.pos] is an identity test on the position object: it holds
    exactly when the friend was not chosen.  The timer that clears the
    snake's [isAttacking] 300 ms later runs outside the tick. *)
Definition updateSnake (fr : option Entity) (snake p : Entity) : Entity * Entity :=
  let choice := chooseTarget fr snake p in
  let target := fst (fst choice) in
  let targetIsPlayer := snd (fst choice) in
  let closestDist := snd choice in
  let moved :=
    if Rltb closestDist 800 then
      let edx := x target - x (pos snake) in
      let edy := y target - y (pos snake) in
      let angle := atan2 edy edx in
      let s1 := setRotation angle snake in
      let s2 := setPos (mkVec2 (x (pos s1) + cos angle * 3.5)
                               (y (pos s1) + sin angle * 3.5)) s1 in
      let s3 := setWalkCycle (walkCycle s2 + 0.4) s2 in
      if Rltb closestDist 35 && (attackCooldown s3 <=? 0)%Z then
        (setIsAttacking true (setAttackCooldown 60 s3),
         if targetIsPlayer then setHp (hp p - 10)%Z p else p)
      else (s3, p)
    else (snake, p) in
  let snake' := fst moved in
  ((if (0 <? attackCooldown snake')%Z
    then setAttackCooldown (attackCooldown snake' - 1)%Z snake'
    else snake'),
   snd moved).

Fixpoint updateSnakes (fr : option Entity) (es : list Entity) (p : Entity)
  : list Entity * Entity :=
  match es with
  | [] => ([], p)
  | snake :: rest =>
      let r := updateSnake fr snake p in
      let r' := updateSnakes fr rest (snd r) in
      (fst r :: fst r', snd r')
  end.

(** World bounds, the first two statements of the collision [forEach]. *)
Definition clampToWorld (ent : Entity) : Entity :=
  setPos (mkVec2 (Rmax 0 (Rmin CANVAS_WIDTH (x (pos ent))))
                 (Rmax 0 (Rmin CANVAS_HEIGHT (y (pos ent))))) ent.

(** Push-out from one rock. *)
Definition pushOut (ent rock : Entity) : Entity :=
  let d := dist (pos ent) (pos rock) in
  let minD := radius ent + radius rock in
  if Rltb d minD then
    let angle := atan2 (y (pos ent) - y (pos rock)) (x (pos ent) - x (pos rock)) in
    let push := minD - d in
    setPos (mkVec2 (x (pos ent) + cos angle * push)
                   (y (pos ent) + sin angle * push)) ent
  else ent.

Definition pushOutAll (rocks : list Entity) (ent : Entity) : Entity :=
  fold_left pushOut rocks ent.

(** Body of the collision [forEach] for one dynamic entity. *)
Definition resolveEntity (environment : list Entity) (ent : Entity) : Entity :=
  pushOutAll (filter isRock environment) (clampToWorld ent).

(** The enemy block, run by the host (or in a solo session) only.  The
    respawn pushes onto the array that [s.enemies] holds at that moment, and
    [s.enemies] is then rebound to [aliveEnemies], which was filtered
    before. *)
Definition enemyLogic (fuel : nat) (rng : Rng) (clock : nat -> nat)
           (s : GameState) (k : nat) : option (GameState * nat) :=
  let r := updateSnakes (friend s) (enemies s) (player s) in
  let s1 := setPlayer (snd r) (setEnemies (fst r) s) in
  let aliveEnemies := filter (fun e => (0 <? hp e)%Z) (enemies s1) in
  let spawned :=
    if (List.length aliveEnemies <? List.length (enemies s1))%nat then
      if (List.length aliveEnemies <? 5)%nat
      then spawnSnakes fuel rng clock 3 s1 k
      else Some (s1, k)
    else Some (s1, k) in
  match spawned with
  | None => None
  | Some (s2, k') => Some (setEnemies aliveEnemies s2, k')
  end.

Definition updatePhysics (isMultiplayer isHost : bool) (c : Controls)
           (fuel : nat) (rng : Rng) (clock : nat -> nat)
           (s : GameState) (k : nat) : option (GameState * nat) :=
  let s1 := setPlayer (tickCooldown (movePlayer c (player s))) s in
  let h := healPlayer rng s1 k in
  let s2 := fst h in
  let k2 := snd h in
  let afterEnemies :=
    if negb isMultiplayer || isHost then enemyLogic fuel rng clock s2 k2
    else Some (s2, k2) in
  match afterEnemies with
  | None => None
  | Some (s3, k3) =>
      let s4 :=
        setFriend (option_map (resolveEntity (environment s3)) (friend s3))
          (setEnemies (map (resolveEntity (environment s3)) (enemies s3))
             (setPlayer (resolveEntity (environment s3) (player s3)) s3)) in
      let cam := mkVec2 (lerp (x (camera s4)) (x (pos (player s4))) 0.1)
                        (lerp (y (camera s4)) (y (pos (player s4))) 0.1) in
      Some (setCamera cam s4, k3)
  end.

(** *** Network messages and the scheduler: [conn.on('data')], [gameLoop] *)

Record PlayerData : Type := mkPlayerData {
  dataPos : Vec2;
  dataRotation : R;
  dataWalkCycle : R;
  dataIsAttacking : bool;
  dataHp : Z;
  dataLevel : option Z
}.

Inductive Message : Type :=
| PLAYER_UPDATE (data : PlayerData)
| WORLD_UPDATE (dataEnemies : list Entity)
| GAME_START (seed : R).

Definition applyPlayerData (d : PlayerData) (f : Entity) : Entity :=
  setLevel (dataLevel d)
    (setHp (dataHp d)
       (setIsAttacking (dataIsAttacking d)
          (setWalkCycle (dataWalkCycle d)
             (setRotation (dataRotation d)
                (setPos (dataPos d) f))))).

(** The handler registered with [conn.on('data', ...)]. *)
Definition onData (isHost : bool) (data : Message) (s : GameState) : GameState :=
  let s1 :=
    match data, friend s with
    | PLAYER_UPDATE d, Some f => setFriend (Some (applyPlayerData d f)) s
    | _, _ => s
    end in
  match data with
  | WORLD_UPDATE es => if negb isHost then setEnemies es s1 else s1
  | _ => s1
  end.

Record Hud : Type := mkHud {
  hudHp : Z;
  hudLevel : Z;
  hudXp : Z;
  hudMaxXp : Z;
  hudGameOver : bool
}.

Definition playerData (p : Entity) : PlayerData :=
  mkPlayerData (pos p) (rotation p) (walkCycle p) (isAttacking p) (hp p) (level p).

(** What one run of [gameLoop] leaves behind: the state, the HUD, the
    messages sent, whether [render] ran and whether the next frame was
    requested. *)
Record Frame : Type := mkFrame {
  frameState : GameState;
  frameHud : Hud;
  frameSent : list Message;
  frameRendered : bool;
  frameRequested : bool
}.

(** [conn] is [None] when there is no connection object and [Some open]
    otherwise. *)
Definition gameLoop (isMultiplayer isHost : bool) (conn : option bool) (c : Controls)
           (fuel : nat) (rng : Rng) (clock : nat -> nat)
           (s : GameState) (hud : Hud) (k : nat) : option (Frame * nat) :=
  if gameOver s then
    Some (mkFrame s (mkHud (hudHp hud) (hudLevel hud) (hudXp hud) (hudMaxXp hud) true)
                  [] false false, k)
  else
    match updatePhysics isMultiplayer isHost c fuel rng clock s k with
    | None => None
    | Some (s1, k1) =>
        let sent :=
          if isMultiplayer && match conn with Some open => open | None => false end then
            PLAYER_UPDATE (playerData (player s1))
              :: (if isHost then [WORLD_UPDATE (enemies s1)] else [])
          else [] in
        let hud1 :=
          if Rgtb (rng k1) 0.9 then
            mkHud (hp (player s1)) (orDefault (level (player s1)) 1)
                  (orDefault (xp (player s1)) 0) (orDefault (maxXp (player s1)) 100)
                  (gameOver s1)
          else hud in
        Some (mkFrame s1 hud1 sent true true, S k1)
    end.

(** *** Virtual joystick: [handleJoyTouchStart], [handleJoyTouchMove],
    [handleJoyTouchEnd] *)

Record Rect : Type := mkRect {
  rectLeft : R;
  rectTop : R;
  rectWidth : R;
  rectHeight : R
}.

(** [joyBase] is [joyBaseRef.current] through its bounding rectangle,
    [touch] holds [clientX] and [clientY] of the first touch. *)
Definition handleJoyTouchMove (joyBase : option Rect) (touch : Vec2) (c : Controls)
  : Controls :=
  match joyBase with
  | None => c
  | Some rect =>
      let centerX := rectLeft rect + rectWidth rect / 2 in
      let centerY := rectTop rect + rectHeight rect / 2 in
      let dx := x touch - centerX in
      let dy := y touch - centerY in
      let maxDist := 40 in
      let d := sqrt (dx * dx + dy * dy) in
      let clamped := Rgtb d maxDist in
      mkControls (keys c) (joystickActive c)
                 (if clamped then (dx / d) * maxDist else dx)
                 (if clamped then (dy / d) * maxDist else dy)
  end.

Definition handleJoyTouchStart (joyBase : option Rect) (touch : Vec2) (c : Controls)
  : Controls :=
  handleJoyTouchMove joyBase touch
    (mkControls (keys c) true (joystickDx c) (joystickDy c)).

Definition handleJoyTouchEnd (c : Controls) : Controls :=
  mkControls (keys c) false 0 0.

(** *** The mount effect *)

(** Friend set-up when there is a connection object, world generation, and
    the first five snakes on the host or in a solo session. *)
Definition mount (isMultiplayer isHost : bool) (conn : option bool) (gameSeed : option R)
           (fuel : nat) (rng : Rng) (clock : nat -> nat) (s : GameState) (k : nat)
  : option (GameState * nat) :=
  let s1 :=
    if isMultiplayer && match conn with Some _ => true | None => false end
    then setFriend (Some initialFriend) s else s in
  let w := startWorld gameSeed rng s1 k in
  if negb isMultiplayer || isHost
  then spawnSnakes fuel rng clock 5 (fst w) (snd w)
  else Some w.

End Engine.

(** ** The older engine (wolves and trees): enemy AI *)

Module Wolf.

(** Body of the enemy [forEach] of that variant's [updatePhysics]; [p] is
    [s.player].  The entity kinds of that variant are PLAYER, FRIEND, ENEMY
    and TREE; the body never reads the kind. *)
Definition updateEnemy (enemy p : Entity) : Entity * Entity :=
  let distToPlayer := dist (pos enemy) (pos p) in
  let distToSpawn := dist (pos enemy) SPAWN_ZONE_CENTER in
  let target := pos p in
  let moved :=
    if Rltb distToSpawn (SPAWN_ZONE_RADIUS + 50) then
      let angleAway := atan2 (y (pos enemy) - y SPAWN_ZONE_CENTER)
                             (x (pos enemy) - x SPAWN_ZONE_CENTER) in
      let e1 := setPos (mkVec2 (x (pos enemy) + cos angleAway * 2)
                               (y (pos enemy) + sin angleAway * 2)) enemy in
      let e2 := setRotation angleAway e1 in
      (setWalkCycle (walkCycle e2 + 0.2) e2, p)
    else if Rltb distToPlayer 700 then
      let edx := x target - x (pos enemy) in
      let edy := y target - y (pos enemy) in
      let angle := atan2 edy edx in
      let e1 := setRotation angle enemy in
      let e2 := setPos (mkVec2 (x (pos e1) + cos angle * 4)
                               (y (pos e1) + sin angle * 4)) e1 in
      let e3 := setWalkCycle (walkCycle e2 + 0.25) e2 in
      if Rltb distToPlayer 45 && (attackCooldown e3 <=? 0)%Z then
        (setIsAttacking true (setAttackCooldown 60 e3), setHp (hp p - 15)%Z p)
      else (e3, p)
    else (enemy, p) in
  let enemy' := fst moved in
  ((if (0 <? attackCooldown enemy')%Z
    then setAttackCooldown (attackCooldown enemy' - 1)%Z enemy'
    else enemy'),
   snd moved).

(** The AI companion of that variant: the friend block of [updatePhysics];
    [f] is [s.friend], [p] is [s.player] after its own move. *)
Definition followPlayer (f p : Entity) : Entity :=
  let speed := 7 in
  let distToPlayer := dist (pos f) (pos p) in
  if Rgtb distToPlayer 180 then
    let fdx := x (pos p) - x (pos f) in
    let fdy := y (pos p) - y (pos f) in
    let angle := atan2 fdy fdx in
    let f1 := setPos (mkVec2 (x (pos f) + cos angle * (speed * 0.95))
                             (y (pos f) + sin angle * (speed * 0.95))) f in
    let f2 := setRotation angle f1 in
    setWalkCycle (walkCycle f2 + 0.3) f2
  else setWalkCycle 0 f.

(** [spawnEnemies].  The tag of a spawned enemy, ['ENEMY'], is not a kind of
    [types.ts]; what stands for it is the parameter [kind]. *)
Definition newEnemy (kind : EntityType) (now i : nat) (p : Vec2) : Entity :=
  mkEntity ("enemy-" ++ natToString now ++ "-" ++ natToString i) p zeroVec 0 24 kind
           60 60 false 0 0 "#171717" None None None.

Fixpoint spawnLoop (kind : EntityType) (fuel : nat) (rng : Engine.Rng) (clock : nat -> nat)
         (idx : list nat) (s : GameState) (k : nat) : option (GameState * nat) :=
  match idx with
  | [] => Some (s, k)
  | i :: rest =>
      match Engine.retrySpawn fuel rng (pos (player s)) (Engine.randomPos rng k) (k + 2) with
      | None => None
      | Some (p, k') =>
          spawnLoop kind fuel rng clock rest
                    (setEnemies (enemies s ++ [newEnemy kind (clock i) i p]) s) k'
      end
  end.

Definition spawnEnemies (kind : EntityType) (fuel : nat) (rng : Engine.Rng)
           (clock : nat -> nat) (count : nat) (s : GameState) (k : nat)
  : option (GameState * nat) :=
  spawnLoop kind fuel rng clock (seq 0 count) s k.

(** The clean-up block of [updatePhysics]: score, respawn, and the rebinding
    of [s.enemies] to the list filtered before. *)
Definition cleanUp (kind : EntityType) (fuel : nat) (rng : Engine.Rng) (clock : nat -> nat)
           (s : GameState) (k : nat) : option (GameState * nat) :=
  let aliveEnemies := filter (fun e => (0 <? hp e)%Z) (enemies s) in
  let counted :=
    if (List.length aliveEnemies <? List.length (enemies s))%nat then
      let s1 := setScore
                  (score s + INR (List.length (enemies s) - List.length aliveEnemies) * 100)
                  s in
      if (List.length aliveEnemies <? 4)%nat
      then spawnEnemies kind fuel rng clock 3 s1 k
      else Some (s1, k)
    else Some (s, k) in
  match counted with
  | None => None
  | Some (s2, k') => Some (setEnemies aliveEnemies s2, k')
  end.

End Wolf.

(** ** The networked wolf engine: data handler *)

Module WolfNet.

Record PlayerData : Type := mkPlayerData {
  dataPos : Vec2;
  dataRotation : R;
  dataWalkCycle : R;
  dataIsAttacking : bool;
  dataHp : Z
}.

Inductive Message : Type :=
| PLAYER_UPDATE (data : PlayerData)
| WORLD_UPDATE (dataEnemies : list Entity) (dataScore : R)
| GAME_START (seed : R).

Definition applyPlayerData (d : PlayerData) (f : Entity) : Entity :=
  setHp (dataHp d)
    (setIsAttacking (dataIsAttacking d)
       (setWalkCycle (dataWalkCycle d)
          (setRotation (dataRotation d)
             (setPos (dataPos d) f)))).

(** The handler registered with [conn.on('data', ...)] in that variant. *)
Definition onData (isHost : bool) (data : Message) (s : GameState) : GameState :=
  let s1 :=
    match data, friend s with
    | PLAYER_UPDATE d, Some f => setFriend (Some (applyPlayerData d f)) s
    | _, _ => s
    end in
  match data with
  | WORLD_UPDATE es sc => if negb isHost then setScore sc (setEnemies es s1) else s1
  | _ => s1
  end.

(** Body of the enemy [forEach] of the host block in that variant (the
    single-file build has the same body): target selection as in the snake
    engine, the sanctuary rule first, and a bite that tests the distance to
    the player and always lands on the player. *)
Definition updateEnemy (fr : option Entity) (enemy p : Entity) : Entity * Entity :=
  let distToPlayer := dist (pos enemy) (pos p) in
  let choice := Engine.chooseTarget fr enemy p in
  let target := fst (fst choice) in
  let closestDist := snd choice in
  let distToSpawn := dist (pos enemy) SPAWN_ZONE_CENTER in
  let moved :=
    if Rltb distToSpawn (SPAWN_ZONE_RADIUS + 50) then
      let angleAway := atan2 (y (pos enemy) - y SPAWN_ZONE_CENTER)
                             (x (pos enemy) - x SPAWN_ZONE_CENTER) in
      let e1 := setPos (mkVec2 (x (pos enemy) + cos angleAway * 2)
                               (y (pos enemy) + sin angleAway * 2)) enemy in
      let e2 := setRotation angleAway e1 in
      (setWalkCycle (walkCycle e2 + 0.2) e2, p)
    else if Rltb closestDist 700 then
      let edx := x target - x (pos enemy) in
      let edy := y target - y (pos enemy) in
      let angle := atan2 edy edx in
      let e1 := setRotation angle enemy in
      let e2 := setPos (mkVec2 (x (pos e1) + cos angle * 4)
                               (y (pos e1) + sin angle * 4)) e1 in
      let e3 := setWalkCycle (walkCycle e2 + 0.25) e2 in
      if Rltb distToPlayer 45 && (attackCooldown e3 <=? 0)%Z then
        (setIsAttacking true (setAttackCooldown 60 e3), setHp (hp p - 15)%Z p)
      else (e3, p)
    else (enemy, p) in
  let enemy' := fst moved in
  ((if (0 <? attackCooldown enemy')%Z
    then setAttackCooldown (attackCooldown enemy' - 1)%Z enemy'
    else enemy'),
   snd moved).

End WolfNet.

(** ** The lobby screen: seed exchange *)

Module LobbyScreen.

(** [handleHostStart]: with an open connection the host draws the seed,
    sends it, stores it in [window.GAME_SEED] and starts.  Returns the new
    [GAME_SEED], the messages sent, whether [onStart] ran, and the next
    draw. *)
Definition handleHostStart (conn : option bool) (rng : Engine.Rng) (k : nat)
           (gameSeed : option R) : option R * list Engine.Message * bool * nat :=
  match conn with
  | Some true =>
      let seed := floor (rng k * 100000) in
      (Some seed, [Engine.GAME_START seed], true, S k)
  | _ => (gameSeed, [], false, k)
  end.

(** The data handler, which only a non-host registers: returns the new
    [GAME_SEED] and whether [onStart] ran. *)
Definition onData (isHost : bool) (data : Engine.Message) (gameSeed : option R)
  : option R * bool :=
  if isHost then (gameSeed, false)
  else
    match data with
    | Engine.GAME_START seed => (Some seed, true)
    | _ => (gameSeed, false)
    end.

End LobbyScreen.

(** ** The application shell ([App.tsx]): screens *)

Module App.

Inductive ScreenState : Type := AUTH | LOBBY | GAME.

Record PlayerProfile : Type := mkPlayerProfile {
  profileId : string;
  profileName : string;
  profileIsHost : bool
}.

Record AppState : Type := mkAppState {
  screen : ScreenState;
  profile : option PlayerProfile;
  lobbyId : option string;
  appIsMultiplayer : bool
}.

Definition initialApp : AppState := mkAppState AUTH None None false.

Definition withHost (b : bool) (pr : PlayerProfile) : PlayerProfile :=
  mkPlayerProfile (profileId pr) (profileName pr) b.

(** [newLobbyId] is the string drawn from [Math.random()]. *)
Definition handleCreateLobby (newLobbyId : string) (a : AppState) : AppState :=
  match profile a with
  | None => a
  | Some pr => mkAppState LOBBY (Some (withHost true pr)) (Some newLobbyId) true
  end.

Definition handleJoinLobby (id : string) (a : AppState) : AppState :=
  match profile a with
  | None => a
  | Some pr => mkAppState LOBBY (Some (withHost false pr)) (Some id) true
  end.

Definition handlePlayOffline (a : AppState) : AppState :=
  mkAppState GAME (profile a) (lobbyId a) false.

Definition handleStartGame (a : AppState) : AppState :=
  mkAppState GAME (profile a) (lobbyId a) (appIsMultiplayer a).

Definition handleBack (a : AppState) : AppState :=
  mkAppState AUTH (profile a) None (appIsMultiplayer a).

(** [onExit] of the game engine. *)
Definition handleExit (a : AppState) : AppState :=
  mkAppState AUTH (profile a) (lobbyId a) (appIsMultiplayer a).

(** A string is truthy when it is not empty. *)
Definition truthy (v : option string) : bool :=
  match v with
  | Some EmptyString => false
  | Some _ => true
  | None => false
  end.

Definition hasProfile (a : AppState) : bool :=
  match profile a with Some _ => true | None => false end.

(** Which screen component is rendered. *)
Definition shown (a : AppState) : option ScreenState :=
  match screen a with
  | AUTH => if hasProfile a then Some AUTH else None
  | LOBBY => if hasProfile a && truthy (lobbyId a) then Some LOBBY else None
  | GAME => if hasProfile a then Some GAME else None
  end.

(** What the user can do: each callback is reachable only from the screen
    that is rendered; the join button passes a non-empty id; the profile is
    set once by the mount effect. *)
Inductive step : AppState -> AppState -> Prop :=
| step_profile (a : AppState) (pr : PlayerProfile) :
    profile a = None ->
    step a (mkAppState (screen a) (Some pr) (lobbyId a) (appIsMultiplayer a))
| step_create (a : AppState) (newLobbyId : string) :
    shown a = Some AUTH -> step a (handleCreateLobby newLobbyId a)
| step_join (a : AppState) (id : string) :
    shown a = Some AUTH -> id <> EmptyString -> step a (handleJoinLobby id a)
| step_offline (a : AppState) :
    shown a = Some AUTH -> step a (handlePlayOffline a)
| step_start (a : AppState) :
    shown a = Some LOBBY -> step a (handleStartGame a)
| step_back (a : AppState) :
    shown a = Some LOBBY -> step a (handleBack a)
| step_exit (a : AppState) :
    shown a = Some GAME -> step a (handleExit a).

Inductive reachable : AppState -> Prop :=
| reach_init : reachable initialApp
| reach_step (a b : AppState) : reachable a -> step a b -> reachable b.

End App.

(** ** Vocabulary of the properties *)

(** The draws made by one iteration of the obstacle loop started in [g]. *)
Definition stepDraws (g : Engine.GenState) (i : nat) : list Engine.Draw :=
  skipn (List.length (Engine.draws g)) (Engine.draws (Engine.obstacleStep g i)).

(** The generator state when the obstacle loop starts. *)
Definition afterStreams (seed : R) : Engine.GenState :=
  fold_left Engine.streamStep (seq 0 30) (Engine.mkGenState seed [] []).

(** The value of the call that a log records for the use [u]. *)
Definition drawnFor (u : Engine.DrawUse) (l : list Engine.Draw) : R :=
  match find (fun d => Engine.DrawUse_eqb (Engine.drawUse d) u) l with
  | Some d => seededRandom (Engine.drawArg d)
  | None => 0
  end.

(** The per-entity order of use in which the specification lists the draws:
    position twice, rotation, radius, type. *)
Definition listedDrawOrder : list Engine.DrawUse :=
  [Engine.DrawPosX; Engine.DrawPosY; Engine.DrawRotation; Engine.DrawRadius;
   Engine.DrawType].

(** [angleDiff] of [handleAttack] before the normalisation loops. *)
Definition rawAngleDiff (p enemy : Entity) : R :=
  atan2 (y (pos enemy) - y (pos p)) (x (pos enemy) - x (pos p)) - rotation p.

(** Distance as [handleAttack] computes it. *)
Definition attackDistance (p enemy : Entity) : R :=
  sqrt ((x (pos enemy) - x (pos p)) * (x (pos enemy) - x (pos p)) +
        (y (pos enemy) - y (pos p)) * (y (pos enemy) - y (pos p))).

(** The hostile is inside the attack range and cone of [p]: both tests of
    [handleAttack] succeed, the loops having returned. *)
Definition inReach (p enemy : Entity) : Prop :=
  attackDistance p enemy < Engine.attackRange /\
  exists fuel a,
    Engine.normalizeAngle fuel (rawAngleDiff p enemy) = Some a /\
    Rabs a < Engine.attackAngle.

(** [meleeRun high n h h']: [n] successive melee attacks take the health of a
    hostile from [h] to [h'].  Each attack is a run of [handleAttack] that
    is not blocked (no game over, cooldown elapsed), by a player whose level
    is then 2 or more ([high = true]) or below 2 ([high = false]), on a
    hostile that is then inside range and cone and enters the attack with
    the health the previous attack left.  What else happens between two
    attacks is left open. *)
Inductive meleeRun (high : bool) : nat -> Z -> Z -> Prop :=
| run_nil (h : Z) : meleeRun high 0 h h
| run_hit (n : nat) (h h1 : Z) (fuel : nat) (s s' : GameState) (i : nat)
          (enemy enemy' : Entity) :
    meleeRun high n h h1 ->
    gameOver s = false ->
    (attackCooldown (player s) <= 0)%Z ->
    (2 <=? orDefault (level (player s)) 1)%Z = high ->
    nth_error (enemies s) i = Some enemy ->
    hp enemy = h1 ->
    inReach (player s) enemy ->
    Engine.handleAttack fuel s = Some s' ->
    nth_error (enemies s') i = Some enemy' ->
    meleeRun high (S n) h (hp enemy').

(** Sample states: the player as created, at level [lvl], facing a snake of
    health [h] ten units to its right. *)
Definition duelist (lvl : Z) : Entity := setLevel (Some lvl) Engine.initialPlayer.

Definition nearbySnake (h : Z) : Entity :=
  setHp h (Engine.newSnake 0 0 (mkVec2 1260 1250)).

Definition duel (lvl h : Z) : GameState :=
  setEnemies [nearbySnake h] (setPlayer (duelist lvl) Engine.initialState).

(** A snake exactly [attackRange] to the right of the player, and a player
    turned so that a snake on its right is exactly [attackAngle] off. *)
Definition snakeAtRange : Entity := Engine.newSnake 0 0 (mkVec2 1400 1250).

Definition turnedPlayer (angle : R) : Entity := setRotation angle Engine.initialPlayer.

(** Direction from the sanctuary centre to a hostile, and from a hostile to
    a point. *)
Definition awayAngle (enemy : Entity) : R :=
  atan2 (y (pos enemy) - y SPAWN_ZONE_CENTER) (x (pos enemy) - x SPAWN_ZONE_CENTER).

Definition angleTo (target : Vec2) (enemy : Entity) : R :=
  atan2 (y target - y (pos enemy)) (x target - x (pos enemy)).

(** A snake one hundred units to the right of the sanctuary centre. *)
Definition snakeInSanctuary : Entity := Engine.newSnake 0 0 (mkVec2 1350 1250).

(** A snake nine hundred units to the right of the sanctuary centre. *)
Definition farSnake : Entity := Engine.newSnake 0 0 (mkVec2 2150 1250).

(** The world rectangle. *)
Definition inWorld (v : Vec2) : Prop :=
  0 <= x v <= CANVAS_WIDTH /\ 0 <= y v <= CANVAS_HEIGHT.

(** Where the collision pass leaves a dynamic entity: at the rock push-out
    of a point of the world rectangle. *)
Definition clampedThenPushed (environment : list Entity) (e : Entity) : Prop :=
  exists q, inWorld (pos q) /\
            e = Engine.pushOutAll (filter Engine.isRock environment) q.

(** Health within [0, maximum]. *)
Definition healthInRange (e : Entity) : Prop := (0 <= hp e <= maxHp e)%Z.

(** No key pressed, joystick released. *)
Definition idleControls : Engine.Controls :=
  Engine.mkControls (fun _ => false) false 0 0.

(** The S key held down, nothing else. *)
Definition walkDown : Engine.Controls :=
  Engine.mkControls (fun key => String.eqb key "KeyS") false 0 0.

(** A solo session in which the player, with 5 health, stands on the left
    border just clear of a rock that lies below it, with a snake right
    behind it; the player is about to walk down the border. *)
Definition borderRock : Entity :=
  mkEntity "env-0" (mkVec2 30 1250) zeroVec 0 30 ROCK 100 100 false 0 0 "#57534e"
           None None None.

Definition corneredPlayer : Entity :=
  setHp 5 (setPos (mkVec2 0 1203) Engine.initialPlayer).

Definition bitingSnake : Entity := Engine.newSnake 0 0 (mkVec2 0 1180).

Definition cornered : GameState :=
  mkGameState corneredPlayer None [bitingSnake] [borderRock] 0 false SPAWN_ZONE_CENTER.

(** The HUD as the component initialises it, and a state whose terminal
    flag is up. *)
Definition initialHud : Engine.Hud := Engine.mkHud 100 1 0 100 false.

Definition endedState : GameState :=
  mkGameState Engine.initialPlayer None [] [] 0 true SPAWN_ZONE_CENTER.

(** What every generated entity satisfies: inside the world rectangle, with
    the radius range of its kind and a rotation below a full turn. *)
Definition wellPlaced (e : Entity) : Prop :=
  inWorld (pos e) /\
  0 <= rotation e < 2 * PI /\
  (type e = STREAM /\ radius e = 60 /\ 850 <= y (pos e) <= 1650 \/
   type e = ROCK /\ 25 <= radius e < 45 \/
   type e = TREE /\ 40 <= radius e < 90).

(** What [spawnSnakes] pushes, for a player standing at [playerPos]. *)
Definition freshSnake (playerPos : Vec2) (e : Entity) : Prop :=
  type e = SNAKE /\ hp e = 60%Z /\ maxHp e = 60%Z /\ radius e = 20 /\
  attackCooldown e = 0%Z /\
  600 <= dist (pos e) playerPos /\
  SPAWN_ZONE_RADIUS <= dist (pos e) SPAWN_ZONE_CENTER.

(** A solo session whose only snake is dead. *)
Definition graveyard : GameState :=
  setEnemies [setHp 0 (Engine.newSnake 0 0 (mkVec2 0 0))] Engine.initialState.

(** Offset of a touch from the centre of the joystick base. *)
Definition touchDx (rect : Engine.Rect) (touch : Vec2) : R :=
  x touch - (Engine.rectLeft rect + Engine.rectWidth rect / 2).

Definition touchDy (rect : Engine.Rect) (touch : Vec2) : R :=
  y touch - (Engine.rectTop rect + Engine.rectHeight rect / 2).

(** Delivery of the messages of one frame, in the order sent, to the data
    handler of the other side. *)
Definition deliver (isHost : bool) (msgs : list Engine.Message) (s : GameState)
  : GameState :=
  fold_left (fun st m => Engine.onData isHost m st) msgs s.

(** The lobby handshake: the host presses start on an open connection, and
    the peer's lobby handler receives what the host sent. *)
Definition hostStart (rng : Engine.Rng) (k : nat) (gameSeed : option R)
  : option R * list Engine.Message * bool * nat :=
  LobbyScreen.handleHostStart (Some true) rng k gameSeed.

Definition hostSeed (rng : Engine.Rng) (k : nat) (gameSeed : option R) : option R :=
  fst (fst (fst (hostStart rng k gameSeed))).

Definition peerSeed (rng : Engine.Rng) (k : nat) (hostGameSeed peerGameSeed : option R)
  : option R :=
  fold_left (fun g m => fst (LobbyScreen.onData false m g))
            (snd (fst (fst (hostStart rng k hostGameSeed)))) peerGameSeed.

(** Four living wolves and a dead one, in a solo session of the older
    engine. *)
Definition wolfAt (i : nat) : Entity := Wolf.newEnemy SNAKE 0 i (mkVec2 0 0).

Definition pack : GameState :=
  setEnemies [wolfAt 0; wolfAt 1; wolfAt 2; wolfAt 3; setHp 0 (wolfAt 4)]
             Engine.initialState.

(** A wolf far from the sanctuary with the friend at 10 and the player at 40
    from it. *)
Definition lurkingWolf : Entity := Wolf.newEnemy SNAKE 0 0 (mkVec2 2000 1250).

Definition baitedPlayer : Entity := setPos (mkVec2 2040 1250) Engine.initialPlayer.

Definition nearFriend : Entity := setPos (mkVec2 1990 1250) Engine.initialFriend.

(** * Properties *)

Import Engine.

(** ** Comparisons *)

Lemma Rltb_true (a b : R) : Rltb a b = true <-> a < b.
Proof. unfold Rltb; destruct (Rlt_dec a b); split; intros; congruence || lra. Qed.

Lemma Rltb_false (a b : R) : Rltb a b = false <-> b <= a.
Proof. unfold Rltb; destruct (Rlt_dec a b); split; intros; congruence || lra. Qed.

Lemma Rgtb_true (a b : R) : Rgtb a b = true <-> a > b.
Proof. unfold Rgtb; destruct (Rgt_dec a b); split; intros; congruence || lra. Qed.

Lemma Rgtb_false (a b : R) : Rgtb a b = false <-> a <= b.
Proof. unfold Rgtb; destruct (Rgt_dec a b); split; intros; congruence || lra. Qed.

Lemma Reqb_true (a b : R) : Reqb a b = true <-> a = b.
Proof. unfold Reqb; destruct (Req_dec_T a b); split; intros; congruence. Qed.

Lemma Reqb_refl (a : R) : Reqb a a = true.
Proof. now apply Reqb_true. Qed.

(** ** World generation *)

Section Generator.

Variable seed : R.

(** The stream loop appends one stream per index and draws nothing. *)
Lemma stream_loop (l : list nat) (g : GenState) :
  fold_left streamStep l g =
  mkGenState (currentSeed g) (env g ++ map (streamEntity (currentSeed g)) l) (draws g).
Proof.
  revert g; induction l as [|i l IH]; intros g; simpl.
  - rewrite app_nil_r; now destruct g.
  - rewrite IH; simpl. now rewrite <- app_assoc.
Qed.

(** One iteration, evaluated: what it leaves when the candidate is outside
    the exclusion circle and when it is not. *)
Lemma obstacleStep_eq (g : GenState) (i : nat) :
  obstacleStep g i =
  if Rgtb (dist (candidatePos (currentSeed g)) SPAWN_ZONE_CENTER) (SPAWN_ZONE_RADIUS + 50)
  then
    mkGenState (currentSeed g + 1 + 1)
      (env g ++ [obstacleEntity i (candidatePos (currentSeed g))
                   (seededRandom (currentSeed g + 1 + 1 + 5) * PI * 2)
                   (if Rgtb (seededRandom (currentSeed g + 1 + 1 + 10)) 0.8
                    then 25 + seededRandom (currentSeed g + 1 + 1) * 20
                    else 40 + seededRandom (currentSeed g + 1 + 1 + 1) * 50)
                   (Rgtb (seededRandom (currentSeed g + 1 + 1 + 10)) 0.8)])
      (draws g ++ [mkDraw DrawPosX (currentSeed g + 1);
                   mkDraw DrawPosY (currentSeed g + 1 + 1);
                   mkDraw DrawType (currentSeed g + 1 + 1 + 10);
                   mkDraw DrawRotation (currentSeed g + 1 + 1 + 5);
                   mkDraw DrawRadius
                     (if Rgtb (seededRandom (currentSeed g + 1 + 1 + 10)) 0.8
                      then currentSeed g + 1 + 1 else currentSeed g + 1 + 1 + 1)])
  else
    mkGenState (currentSeed g + 1 + 1) (env g)
      (draws g ++ [mkDraw DrawPosX (currentSeed g + 1);
                   mkDraw DrawPosY (currentSeed g + 1 + 1)]).
Proof.
  unfold obstacleStep, obstacleBody, candidatePos, bind, drawFor, ret.
  cbv zeta. cbn [fst snd].
  destruct (Rgtb (dist _ _) _); cbn [fst snd app]; [|reflexivity].
  destruct (Rgtb (seededRandom _) 0.8); reflexivity.
Qed.

Lemma obstacleStep_seed (g : GenState) (i : nat) :
  currentSeed (obstacleStep g i) = currentSeed g + 1 + 1.
Proof. rewrite obstacleStep_eq; destruct (Rgtb _ _); reflexivity. Qed.

Lemma obstacleStep_env (g : GenState) (i : nat) :
  currentSeed g = seed + 2 * INR i ->
  env (obstacleStep g i) = env g \/
  exists e, env (obstacleStep g i) = env g ++ [e] /\ placedAt seed i e.
Proof.
  intros Hseed. rewrite obstacleStep_eq.
  destruct (Rgtb _ _) eqn:Hout; cbn [env]; [right | now left].
  eexists; split; [reflexivity|].
  apply Rgtb_true in Hout.
  repeat split; cbn [obstacleEntity pos id].
  - unfold isObstacle; simpl. now destruct (Rgtb (seededRandom _) 0.8).
  - exact Hout.
  - now rewrite Hseed.
Qed.

(** The obstacle loop from index [a]: the seed advances by two per
    iteration and every appended entity is a placed obstacle of one of the
    iterations. *)
Lemma obstacle_loop (n a : nat) (g : GenState) :
  currentSeed g = seed + 2 * INR a ->
  exists added,
    env (fold_left obstacleStep (seq a n) g) = env g ++ added /\
    (List.length added <= n)%nat /\
    Forall (fun e => exists i, (a <= i < a + n)%nat /\ placedAt seed i e) added /\
    currentSeed (fold_left obstacleStep (seq a n) g) = seed + 2 * INR (a + n).
Proof.
  revert a g; induction n as [|n IH]; intros a g Hseed; simpl.
  - exists []. rewrite app_nil_r, Nat.add_0_r. repeat split; auto.
  - assert (Hnext : currentSeed (obstacleStep g a) = seed + 2 * INR (S a)).
    { rewrite obstacleStep_seed, Hseed, S_INR. lra. }
    destruct (IH (S a) (obstacleStep g a) Hnext) as (added & Henv & Hlen & Hall & Hcur).
    replace (a + S n)%nat with (S a + n)%nat by lia.
    assert (Hshift : Forall (fun e => exists i, (a <= i < S a + n)%nat /\ placedAt seed i e) added).
    { eapply Forall_impl; [|exact Hall]. intros e (i & Hi & He). exists i; split; [lia|exact He]. }
    destruct (obstacleStep_env g a Hseed) as [Hsame | (e & Happ & He)].
    + exists added. rewrite Henv, Hsame. repeat split; auto.
    + exists (e :: added). rewrite Henv, Happ, <- app_assoc. simpl.
      repeat split; auto; [lia|].
      constructor; [|exact Hshift]. exists a; split; [lia|exact He].
Qed.

Lemma streams_not_obstacles (l : list nat) (cur : R) :
  filter isObstacle (map (streamEntity cur) l) = [].
Proof. induction l as [|i l IH]; simpl; auto. Qed.

Lemma filter_all {A : Type} (f : A -> bool) (l : list A) :
  Forall (fun a => f a = true) l -> filter f l = l.
Proof. induction 1 as [|a l Ha _ IH]; simpl; [|rewrite Ha, IH]; reflexivity. Qed.

(** The generated environment: thirty streams, then the placed obstacles. *)
Lemma generate_env :
  exists added,
    env (generate seed) = map (streamEntity seed) (seq 0 30) ++ added /\
    (List.length added <= 250)%nat /\
    Forall (fun e => exists i, (i < 250)%nat /\ placedAt seed i e) added.
Proof.
  unfold generate. rewrite stream_loop. cbv zeta.
  set (g1 := mkGenState _ _ _).
  destruct (obstacle_loop 250 0 g1) as (added & Henv & Hlen & Hall & _).
  { simpl; lra. }
  exists added. rewrite Henv. repeat split; auto.
  eapply Forall_impl; [|exact Hall]. intros e (i & Hi & He). exists i; split; [lia|exact He].
Qed.

End Generator.

(** C3. World generation is deterministic in the seed: two invocations of
    [initWorld] with the same seed, from whatever states, leave identical
    environment lists (same order, positions, radii and types); and two
    peers that start from the same non-zero shared seed generate identical
    environments whatever their states and their own random streams. *)
Theorem initWorld_deterministic (seed : R) (s1 s2 : GameState) :
  environment (initWorld seed s1) = environment (initWorld seed s2) /\
  map pos (environment (initWorld seed s1)) = map pos (environment (initWorld seed s2)) /\
  map radius (environment (initWorld seed s1)) = map radius (environment (initWorld seed s2)) /\
  map type (environment (initWorld seed s1)) = map type (environment (initWorld seed s2)) /\
  (forall rng1 rng2 k1 k2,
     seed <> 0 ->
     environment (fst (startWorld (Some seed) rng1 s1 k1))
       = environment (fst (startWorld (Some seed) rng2 s2 k2))).
Proof.
  change (environment (initWorld seed s1)) with (env (generate seed)).
  change (environment (initWorld seed s2)) with (env (generate seed)).
  split; [reflexivity|]. split; [reflexivity|]. split; [reflexivity|].
  split; [reflexivity|].
  intros rng1 rng2 k1 k2 Hseed. unfold startWorld, sessionSeed.
  assert (Hz : Reqb seed 0 = false).
  { destruct (Reqb seed 0) eqn:Hc; [apply Reqb_true in Hc; contradiction | reflexivity]. }
  rewrite Hz. reflexivity.
Qed.

Lemma initWorld_deterministic_witness :
  environment (fst (startWorld (Some 42) (fun _ => 0) initialState 0))
    = environment (fst (startWorld (Some 42) (fun _ => 0.5)
                                   (setFriend (Some initialFriend) initialState) 7)).
Proof.
  apply (initWorld_deterministic 42 initialState
           (setFriend (Some initialFriend) initialState)).
  lra.
Defined.

Lemma stream_not_obstacle (cur : R) (l : list nat) (e : Entity) :
  In e (map (streamEntity cur) l) -> isObstacle e = false.
Proof. rewrite in_map_iff. intros (i & <- & _). reflexivity. Qed.

Lemma excluded_not_placed (g : GenState) (i : nat) :
  dist (candidatePos (currentSeed g)) SPAWN_ZONE_CENTER <= SPAWN_ZONE_RADIUS + 50 ->
  env (obstacleStep g i) = env g.
Proof.
  intros Hin. apply Rgtb_false in Hin. rewrite obstacleStep_eq.
  now rewrite Hin.
Qed.

(** C7. Every obstacle (tree or rock) of the generated environment lies
    farther than 300 + 50 from the sanctuary centre; it sits at the candidate
    position of its iteration, a candidate within that circle is dropped and
    nothing is appended for it, and at most 250 obstacles result. *)
Theorem obstacles_outside_sanctuary (seed : R) (s : GameState) :
  (forall e, In e (environment (initWorld seed s)) -> isObstacle e = true ->
     dist (pos e) SPAWN_ZONE_CENTER > SPAWN_ZONE_RADIUS + 50 /\
     exists i, (i < 250)%nat /\ pos e = candidatePos (seed + 2 * INR i)) /\
  (forall g i,
     dist (candidatePos (currentSeed g)) SPAWN_ZONE_CENTER <= SPAWN_ZONE_RADIUS + 50 ->
     env (obstacleStep g i) = env g) /\
  (List.length (filter isObstacle (environment (initWorld seed s))) <= 250)%nat.
Proof.
  destruct (generate_env seed) as (added & Henv & Hlen & Hall).
  change (environment (initWorld seed s)) with (env (generate seed)). rewrite Henv.
  split; [|split].
  - intros e Hin Hobs. apply in_app_or in Hin. destruct Hin as [Hin | Hin].
    + apply stream_not_obstacle in Hin. congruence.
    + rewrite Forall_forall in Hall.
      destruct (Hall e Hin) as (i & Hi & _ & Hd & _ & Hp).
      split; [exact Hd | exists i; split; assumption].
  - intros g i. apply excluded_not_placed.
  - rewrite filter_app, streams_not_obstacles. simpl.
    rewrite filter_all; [exact Hlen|].
    eapply Forall_impl; [|exact Hall]. now intros e (i & _ & Hobs & _).
Qed.

Lemma skipn_length_app {A : Type} (l r : list A) :
  skipn (List.length l) (l ++ r) = r.
Proof. induction l as [|a l IH]; simpl; auto. Qed.

(** The draws of one iteration: always the two coordinates; for a candidate
    outside the exclusion circle also type, rotation and radius. *)
Lemma stepDraws_eq (g : GenState) (i : nat) :
  stepDraws g i =
    [mkDraw DrawPosX (currentSeed g + 1); mkDraw DrawPosY (currentSeed g + 1 + 1)] ++
    (if Rgtb (dist (candidatePos (currentSeed g)) SPAWN_ZONE_CENTER) (SPAWN_ZONE_RADIUS + 50)
     then [mkDraw DrawType (currentSeed g + 1 + 1 + 10);
           mkDraw DrawRotation (currentSeed g + 1 + 1 + 5);
           mkDraw DrawRadius
             (if Rgtb (seededRandom (currentSeed g + 1 + 1 + 10)) 0.8
              then currentSeed g + 1 + 1 else currentSeed g + 1 + 1 + 1)]
     else []).
Proof.
  unfold stepDraws. rewrite obstacleStep_eq.
  destruct (Rgtb (dist _ _) _); cbn [draws]; apply skipn_length_app.
Qed.

(** The entity an iteration pushes is built from the values of the calls in
    its log: position from the two position draws, kind from the type draw,
    rotation and radius from theirs. *)
Lemma pushed_from_draws (g : GenState) (i : nat) (e : Entity) :
  env (obstacleStep g i) = env g ++ [e] ->
  pos e = mkVec2 (drawnFor DrawPosX (stepDraws g i) * CANVAS_WIDTH)
                 (drawnFor DrawPosY (stepDraws g i) * CANVAS_HEIGHT) /\
  type e = (if Rgtb (drawnFor DrawType (stepDraws g i)) 0.8 then ROCK else TREE) /\
  rotation e = drawnFor DrawRotation (stepDraws g i) * PI * 2 /\
  radius e = (if Rgtb (drawnFor DrawType (stepDraws g i)) 0.8
              then 25 + drawnFor DrawRadius (stepDraws g i) * 20
              else 40 + drawnFor DrawRadius (stepDraws g i) * 50).
Proof.
  intros He. rewrite stepDraws_eq. rewrite obstacleStep_eq in He.
  destruct (Rgtb (dist _ _) _).
  - cbn [env] in He. apply app_inv_head in He. injection He as <-.
    unfold drawnFor. cbn [app find DrawUse_eqb drawUse drawArg].
    destruct (Rgtb (seededRandom (currentSeed g + 1 + 1 + 10)) 0.8); repeat split.
  - cbn [env] in He. apply (f_equal (@List.length Entity)) in He.
    rewrite length_app in He. simpl in He. lia.
Qed.

(** C9, as the code has it.  One iteration of the obstacle loop advances the
    seed by exactly two, once before each position draw.  It always draws
    the two coordinates; only for a candidate outside the exclusion circle it
    then draws, without advancing the seed, the type threshold at offset 10,
    the rotation at offset 5 and the radius at offset 0 (rock) or 1 (tree),
    in that order, and the entity it pushes has its position, kind,
    rotation and radius from the values of these calls.  After the 250
    iterations the seed has advanced by 500. *)
Theorem obstacle_draw_order (g : GenState) (i : nat) (seed : R) :
  currentSeed (obstacleStep g i) = currentSeed g + 1 + 1 /\
  stepDraws g i =
    [mkDraw DrawPosX (currentSeed g + 1); mkDraw DrawPosY (currentSeed g + 1 + 1)] ++
    (if Rgtb (dist (candidatePos (currentSeed g)) SPAWN_ZONE_CENTER) (SPAWN_ZONE_RADIUS + 50)
     then [mkDraw DrawType (currentSeed g + 1 + 1 + 10);
           mkDraw DrawRotation (currentSeed g + 1 + 1 + 5);
           mkDraw DrawRadius
             (if Rgtb (seededRandom (currentSeed g + 1 + 1 + 10)) 0.8
              then currentSeed g + 1 + 1 else currentSeed g + 1 + 1 + 1)]
     else []) /\
  (forall e, env (obstacleStep g i) = env g ++ [e] ->
     pos e = mkVec2 (drawnFor DrawPosX (stepDraws g i) * CANVAS_WIDTH)
                    (drawnFor DrawPosY (stepDraws g i) * CANVAS_HEIGHT) /\
     type e = (if Rgtb (drawnFor DrawType (stepDraws g i)) 0.8 then ROCK else TREE) /\
     rotation e = drawnFor DrawRotation (stepDraws g i) * PI * 2 /\
     radius e = (if Rgtb (drawnFor DrawType (stepDraws g i)) 0.8
                 then 25 + drawnFor DrawRadius (stepDraws g i) * 20
                 else 40 + drawnFor DrawRadius (stepDraws g i) * 50)) /\
  (dist (candidatePos (currentSeed g)) SPAWN_ZONE_CENTER > SPAWN_ZONE_RADIUS + 50 ->
     exists e, env (obstacleStep g i) = env g ++ [e]) /\
  currentSeed (generate seed) = seed + 500.
Proof.
  split; [apply obstacleStep_seed|]. split; [apply stepDraws_eq|].
  split; [apply pushed_from_draws|]. split.
  - intros Hout. apply Rgtb_true in Hout. rewrite obstacleStep_eq, Hout.
    eexists. reflexivity.
  - unfold generate. rewrite stream_loop. cbv zeta.
    set (g1 := mkGenState _ _ _).
    destruct (obstacle_loop seed 250 0 g1) as (added & _ & _ & _ & Hcur).
    { simpl; lra. }
    rewrite Hcur. rewrite INR_IZR_INZ. simpl. lra.
Qed.

(** C9, refuted as listed: with seed 42, the first iteration of the obstacle
    loop does not use its draws in the order position, position, rotation,
    radius, type, and it does not advance the seed by five. *)
Lemma listed_draw_order_fails :
  map drawUse (stepDraws (afterStreams 42) 0) <> listedDrawOrder /\
  currentSeed (obstacleStep (afterStreams 42) 0) <> currentSeed (afterStreams 42) + 5.
Proof.
  split.
  - rewrite stepDraws_eq.
    destruct (Rgtb (dist _ _) _); simpl; unfold listedDrawOrder; discriminate.
  - rewrite obstacleStep_seed. lra.
Qed.

(** C4. On a non-host peer a WORLD_UPDATE message replaces the hostile
    collection by the payload, in the snake engine and in the networked wolf
    engine alike: the new collection is the payload, so nothing of the prior
    mirror that the payload lacks survives. *)
Theorem world_update_replaces_enemies (s : GameState) (payload : list Entity) (sc : R) :
  enemies (onData false (WORLD_UPDATE payload) s) = payload /\
  (forall e, In e (enemies s) -> ~ In e payload ->
             ~ In e (enemies (onData false (WORLD_UPDATE payload) s))) /\
  enemies (WolfNet.onData false (WolfNet.WORLD_UPDATE payload sc) s) = payload /\
  (forall e, In e (enemies s) -> ~ In e payload ->
             ~ In e (enemies (WolfNet.onData false (WolfNet.WORLD_UPDATE payload sc) s))).
Proof.
  assert (H : enemies (onData false (WORLD_UPDATE payload) s) = payload).
  { unfold onData; simpl. now destruct (friend s). }
  assert (H' : enemies (WolfNet.onData false (WolfNet.WORLD_UPDATE payload sc) s) = payload).
  { unfold WolfNet.onData; simpl. now destruct (friend s). }
  split; [exact H|]. split; [|split; [exact H'|]].
  - intros e _ Hout. now rewrite H.
  - intros e _ Hout. now rewrite H'.
Qed.

Lemma world_update_replaces_enemies_witness :
  enemies (onData false (WORLD_UPDATE []) (setEnemies [initialFriend] initialState)) = [] /\
  ~ In initialFriend
       (enemies (onData false (WORLD_UPDATE []) (setEnemies [initialFriend] initialState))).
Proof.
  split.
  - apply (world_update_replaces_enemies (setEnemies [initialFriend] initialState) [] 0).
  - apply (world_update_replaces_enemies (setEnemies [initialFriend] initialState) [] 0).
    + simpl; auto.
    + simpl; tauto.
Defined.

(** ** Levelling *)

(** C10. [gainXp] leaves a player of level 2 or more unchanged.  Below
    level 2 it adds the amount to the experience; once the sum reaches the
    threshold ([maxXp], 100 when absent) the level becomes 2, the experience
    is set to [maxXp] (the threshold itself whenever the field is present and
    not 0, as on the player the engine creates) and the health to [maxHp]. *)
Theorem gainXp_caps_and_heals (amount : Z) (p : Entity) :
  ((2 <= orDefault (level p) 1)%Z -> gainXp amount p = p) /\
  ((orDefault (level p) 1 < 2)%Z ->
     ((orDefault (xp p) 0 + amount < orDefault (maxXp p) 100)%Z ->
        gainXp amount p = setXp (Some (orDefault (xp p) 0 + amount)%Z) p) /\
     ((orDefault (maxXp p) 100 <= orDefault (xp p) 0 + amount)%Z ->
        level (gainXp amount p) = Some 2%Z /\
        xp (gainXp amount p) = maxXp p /\
        (forall m, maxXp p = Some m -> m <> 0%Z ->
                   xp (gainXp amount p) = Some (orDefault (maxXp p) 100)) /\
        hp (gainXp amount p) = maxHp p /\
        maxHp (gainXp amount p) = maxHp p /\
        pos (gainXp amount p) = pos p /\
        rotation (gainXp amount p) = rotation p)).
Proof.
  unfold gainXp. split.
  - intros Hl. apply Z.leb_le in Hl. now rewrite Hl.
  - intros Hl. apply Z.leb_gt in Hl. rewrite Hl. simpl maxXp. split.
    + intros Hlt. apply Z.leb_gt in Hlt. now rewrite Hlt.
    + intros Hge. apply Z.leb_le in Hge. rewrite Hge. simpl.
      repeat split; auto.
      intros m Hm Hnz. rewrite Hm. simpl.
      destruct (Z.eqb_spec m 0); [contradiction | reflexivity].
Qed.

Lemma gainXp_caps_and_heals_witness :
  gainXp 10 initialPlayer = setXp (Some 10%Z) initialPlayer /\
  level (gainXp 100 (setHp 40 initialPlayer)) = Some 2%Z /\
  xp (gainXp 100 (setHp 40 initialPlayer)) = Some 100%Z /\
  hp (gainXp 100 (setHp 40 initialPlayer)) = 100%Z /\
  gainXp 10 (setLevel (Some 2%Z) initialPlayer) = setLevel (Some 2%Z) initialPlayer.
Proof.
  split; [|split; [|split; [|split]]].
  - apply (gainXp_caps_and_heals 10 initialPlayer); simpl; lia.
  - apply (gainXp_caps_and_heals 100 (setHp 40 initialPlayer)); simpl; lia.
  - apply (gainXp_caps_and_heals 100 (setHp 40 initialPlayer)); simpl; lia.
  - apply (gainXp_caps_and_heals 100 (setHp 40 initialPlayer)); simpl; lia.
  - apply (gainXp_caps_and_heals 10 (setLevel (Some 2%Z) initialPlayer)); simpl; lia.
Defined.

Lemma gainXp_pos (amount : Z) (p : Entity) : pos (gainXp amount p) = pos p.
Proof.
  unfold gainXp. destruct (_ <=? _)%Z; auto. destruct (_ <=? _)%Z; auto.
Qed.

Lemma gainXp_rotation (amount : Z) (p : Entity) : rotation (gainXp amount p) = rotation p.
Proof.
  unfold gainXp. destruct (_ <=? _)%Z; auto. destruct (_ <=? _)%Z; auto.
Qed.

(** ** The normalisation loops *)

Lemma while_more_fuel (cond : R -> bool) (body : R -> R) (fuel fuel' : nat) (v a : R) :
  while fuel cond body v = Some a -> (fuel <= fuel')%nat ->
  while fuel' cond body v = Some a.
Proof.
  revert fuel' v; induction fuel as [|fuel IH]; intros fuel' v Hrun Hle; simpl in Hrun.
  - discriminate.
  - destruct fuel' as [|fuel']; [lia|]. simpl.
    destruct (cond v); [apply IH; [exact Hrun | lia] | exact Hrun].
Qed.

Lemma while_agree (cond : R -> bool) (body : R -> R) (f1 f2 : nat) (v a1 a2 : R) :
  while f1 cond body v = Some a1 -> while f2 cond body v = Some a2 -> a1 = a2.
Proof.
  intros H1 H2.
  apply (while_more_fuel _ _ _ (Nat.max f1 f2)) in H1; [|lia].
  apply (while_more_fuel _ _ _ (Nat.max f1 f2)) in H2; [|lia].
  congruence.
Qed.

Lemma exists_nat_above (r : R) : exists n : nat, r <= INR n.
Proof.
  destruct (archimed r) as [Hup _].
  exists (Z.to_nat (up r)).
  destruct (Z.le_gt_cases 0 (up r)) as [Hpos | Hneg].
  - rewrite INR_IZR_INZ, Z2Nat.id by exact Hpos. lra.
  - assert (IZR (up r) <= 0) by (apply IZR_le; lia).
    pose proof (pos_INR (Z.to_nat (up r))). lra.
Qed.

(** The downward loop: it stops, at or below PI, and it has not gone below
    -PI unless it started there. *)
Lemma down_loop_runs (n : nat) (v : R) :
  v <= PI + PI * 2 * INR n ->
  exists a, while (S n) (fun v => Rgtb v PI) (fun v => v - PI * 2) v = Some a.
Proof.
  revert v; induction n as [|n IH]; intros v Hv.
  - simpl in *. assert (Hc : Rgtb v PI = false) by (apply Rgtb_false; lra).
    rewrite Hc. eauto.
  - change (while (S (S n)) ?c ?b v) with
      (if c v then while (S n) c b (b v) else Some v).
    destruct (Rgtb v PI); [|eauto].
    apply IH. rewrite S_INR in Hv. lra.
Qed.

Lemma down_loop_result (fuel : nat) (v a : R) :
  while fuel (fun v => Rgtb v PI) (fun v => v - PI * 2) v = Some a ->
  a <= PI /\ (v <= PI -> a = v) /\ (PI < v -> - PI < a).
Proof.
  pose proof PI_RGT_0 as Hpi.
  revert v; induction fuel as [|fuel IH]; intros v Hrun; simpl in Hrun; [discriminate|].
  destruct (Rgtb v PI) eqn:Hc.
  - apply Rgtb_true in Hc. destruct (IH _ Hrun) as (H1 & H2 & H3).
    repeat split; [exact H1 | lra |]. intros _.
    destruct (Rle_dec (v - PI * 2) PI) as [Hle | Hgt]; [rewrite (H2 Hle); lra | apply H3; lra].
  - apply Rgtb_false in Hc. injection Hrun as <-. repeat split; lra.
Qed.

Lemma up_loop_runs (n : nat) (v : R) :
  - PI - PI * 2 * INR n <= v ->
  exists a, while (S n) (fun v => Rltb v (- PI)) (fun v => v + PI * 2) v = Some a.
Proof.
  revert v; induction n as [|n IH]; intros v Hv.
  - simpl in *. assert (Hc : Rltb v (- PI) = false) by (apply Rltb_false; lra).
    rewrite Hc. eauto.
  - change (while (S (S n)) ?c ?b v) with
      (if c v then while (S n) c b (b v) else Some v).
    destruct (Rltb v (- PI)); [|eauto].
    apply IH. rewrite S_INR in Hv. lra.
Qed.

Lemma up_loop_result (fuel : nat) (v a : R) :
  while fuel (fun v => Rltb v (- PI)) (fun v => v + PI * 2) v = Some a ->
  - PI <= a /\ (- PI <= v -> a = v) /\ (v < - PI -> a < PI).
Proof.
  pose proof PI_RGT_0 as Hpi.
  revert v; induction fuel as [|fuel IH]; intros v Hrun; simpl in Hrun; [discriminate|].
  destruct (Rltb v (- PI)) eqn:Hc.
  - apply Rltb_true in Hc. destruct (IH _ Hrun) as (H1 & H2 & H3).
    repeat split; [exact H1 | lra |]. intros _.
    destruct (Rle_dec (- PI) (v + PI * 2)) as [Hle | Hgt]; [rewrite (H2 Hle); lra | apply H3; lra].
  - apply Rltb_false in Hc. injection Hrun as <-. repeat split; lra.
Qed.

Lemma normalizeAngle_range (fuel : nat) (v a : R) :
  normalizeAngle fuel v = Some a -> - PI <= a <= PI.
Proof.
  unfold normalizeAngle.
  destruct (while fuel _ _ v) as [a1|] eqn:Hdown; [|discriminate].
  intros Hup. apply down_loop_result in Hdown. apply up_loop_result in Hup.
  destruct Hdown as (Hd1 & _ & _). destruct Hup as (Hu1 & Hu2 & Hu3).
  split; [exact Hu1|].
  destruct (Rle_dec (- PI) a1) as [Hle | Hgt]; [rewrite (Hu2 Hle); exact Hd1 | lra].
Qed.

Lemma normalizeAngle_more_fuel (fuel fuel' : nat) (v a : R) :
  normalizeAngle fuel v = Some a -> (fuel <= fuel')%nat ->
  normalizeAngle fuel' v = Some a.
Proof.
  unfold normalizeAngle.
  destruct (while fuel _ _ v) as [a1|] eqn:Hdown; [|discriminate].
  intros Hup Hle.
  rewrite (while_more_fuel _ _ _ _ _ _ Hdown Hle).
  exact (while_more_fuel _ _ _ _ _ _ Hup Hle).
Qed.

Lemma normalizeAngle_agree (f1 f2 : nat) (v a1 a2 : R) :
  normalizeAngle f1 v = Some a1 -> normalizeAngle f2 v = Some a2 -> a1 = a2.
Proof.
  intros H1 H2.
  apply (normalizeAngle_more_fuel _ (Nat.max f1 f2)) in H1; [|lia].
  apply (normalizeAngle_more_fuel _ (Nat.max f1 f2)) in H2; [|lia].
  congruence.
Qed.

(** Both loops return once the fuel is large enough. *)
Lemma normalizeAngle_total (v : R) :
  exists n, forall fuel, (n <= fuel)%nat -> exists a, normalizeAngle fuel v = Some a.
Proof.
  pose proof PI_RGT_0 as Hpi.
  destruct (exists_nat_above ((v - PI) / (PI * 2))) as [n1 Hn1].
  assert (Hv1 : v <= PI + PI * 2 * INR n1).
  { apply (Rmult_le_compat_r (PI * 2)) in Hn1; [|lra].
    unfold Rdiv in Hn1. rewrite Rmult_assoc, Rinv_l in Hn1 by lra. lra. }
  destruct (down_loop_runs n1 v Hv1) as [a1 Ha1].
  destruct (exists_nat_above ((- PI - a1) / (PI * 2))) as [n2 Hn2].
  assert (Hv2 : - PI - PI * 2 * INR n2 <= a1).
  { apply (Rmult_le_compat_r (PI * 2)) in Hn2; [|lra].
    unfold Rdiv in Hn2. rewrite Rmult_assoc, Rinv_l in Hn2 by lra. lra. }
  destruct (up_loop_runs n2 a1 Hv2) as [a2 Ha2].
  exists (Nat.max (S n1) (S n2)). intros fuel Hfuel. exists a2.
  unfold normalizeAngle.
  rewrite (while_more_fuel _ _ _ fuel _ _ Ha1) by lia.
  apply (while_more_fuel _ _ _ fuel _ _ Ha2). lia.
Qed.

(** ** Melee resolution *)

Lemma atan2_right (a : R) : 0 < a -> atan2 0 a = 0.
Proof.
  intros Ha. unfold atan2. destruct (Rlt_dec 0 a); [|contradiction].
  replace (0 / a) with 0 by (field; lra). apply atan_0.
Qed.

Lemma atan2_left (a : R) : a < 0 -> atan2 0 a = PI.
Proof.
  intros Ha. unfold atan2. destruct (Rlt_dec 0 a); [lra|].
  destruct (Rlt_dec a 0); [|contradiction].
  destruct (Rle_dec 0 0); [|lra].
  replace (0 / a) with 0 by (field; lra). rewrite atan_0. lra.
Qed.

Lemma sqrt_axis (a : R) : 0 <= a -> sqrt (a * a + 0 * 0) = a.
Proof. intros Ha. replace (a * a + 0 * 0) with (a * a) by ring. now apply sqrt_square. Qed.

Lemma attackEnemy_out_of_range (fuel : nat) (damage : Z) (enemy p : Entity) :
  attackRange <= attackDistance p enemy ->
  attackEnemy fuel damage enemy p = Some (enemy, p).
Proof.
  intros Hfar. apply Rltb_false in Hfar. unfold attackEnemy.
  unfold attackDistance in Hfar. cbv zeta. now rewrite Hfar.
Qed.

Lemma attackEnemy_out_of_cone (fuel : nat) (damage : Z) (enemy p : Entity) (a : R) :
  attackDistance p enemy < attackRange ->
  normalizeAngle fuel (rawAngleDiff p enemy) = Some a ->
  attackAngle <= Rabs a ->
  attackEnemy fuel damage enemy p = Some (enemy, p).
Proof.
  intros Hnear Hnorm Hwide. apply Rltb_true in Hnear. apply Rltb_false in Hwide.
  unfold attackEnemy. unfold attackDistance in Hnear. unfold rawAngleDiff in Hnorm.
  cbv zeta. now rewrite Hnear, Hnorm, Hwide.
Qed.

Lemma attackEnemy_hit (fuel : nat) (damage : Z) (enemy p : Entity) (a : R) :
  attackDistance p enemy < attackRange ->
  normalizeAngle fuel (rawAngleDiff p enemy) = Some a ->
  Rabs a < attackAngle ->
  exists enemy' p',
    attackEnemy fuel damage enemy p = Some (enemy', p') /\
    hp enemy' = (hp enemy - damage)%Z.
Proof.
  intros Hnear Hnorm Hin. apply Rltb_true in Hnear. apply Rltb_true in Hin.
  unfold attackEnemy. unfold attackDistance in Hnear. unfold rawAngleDiff in Hnorm.
  cbv zeta. rewrite Hnear, Hnorm, Hin.
  destruct (_ && _); eexists; eexists; split; reflexivity.
Qed.

Lemma attackEnemy_player (fuel : nat) (damage : Z) (enemy p enemy' p' : Entity) :
  attackEnemy fuel damage enemy p = Some (enemy', p') ->
  pos p' = pos p /\ rotation p' = rotation p.
Proof.
  unfold attackEnemy. cbv zeta.
  destruct (Rltb _ attackRange); [|intros [= _ <-]; auto].
  destruct (normalizeAngle _ _); [|discriminate].
  destruct (Rltb _ attackAngle); [|intros [= _ <-]; auto].
  destruct (_ && _); intros [= _ <-]; auto using gainXp_pos, gainXp_rotation.
Qed.

Lemma attackEnemy_total (damage : Z) (enemy p : Entity) :
  exists n, forall fuel, (n <= fuel)%nat ->
    exists r, attackEnemy fuel damage enemy p = Some r.
Proof.
  destruct (normalizeAngle_total (rawAngleDiff p enemy)) as [n Hn].
  exists n. intros fuel Hfuel. destruct (Hn fuel Hfuel) as [a Ha].
  unfold attackEnemy. unfold rawAngleDiff in Ha. cbv zeta. rewrite Ha.
  destruct (Rltb _ attackRange); [|eauto].
  destruct (Rltb _ attackAngle); [|eauto].
  destruct (_ && _); eauto.
Qed.

Lemma attackAll_total (damage : Z) (es : list Entity) (p : Entity) :
  exists n, forall fuel, (n <= fuel)%nat ->
    exists r, attackAll fuel damage es p = Some r.
Proof.
  revert p; induction es as [|enemy rest IH]; intros p.
  - exists 0%nat. intros; simpl; eauto.
  - destruct (attackEnemy_total damage enemy p) as [n1 Hn1].
    destruct (Hn1 n1 (Nat.le_refl _)) as [[e1 p1] Hr1].
    destruct (IH p1) as [n2 Hn2].
    exists (Nat.max n1 n2). intros fuel Hfuel. simpl.
    destruct (Hn1 fuel ltac:(lia)) as [[e1' p1'] Hr1'].
    assert (Hsame : p1' = p1).
    { unfold attackEnemy in Hr1, Hr1'. cbv zeta in Hr1, Hr1'.
      destruct (Rltb _ attackRange); [|congruence].
      destruct (normalizeAngle n1 _) as [a1|] eqn:Ha1; [|discriminate].
      destruct (normalizeAngle fuel _) as [a2|] eqn:Ha2; [|discriminate].
      rewrite (normalizeAngle_agree _ _ _ _ _ Ha1 Ha2) in Hr1.
      congruence. }
    subst p1'. rewrite Hr1'.
    destruct (Hn2 fuel ltac:(lia)) as [[rest' p2] Hr2]. rewrite Hr2. eauto.
Qed.

(** The [forEach] keeps the order: the hostile at index [i] is the outcome of
    the body on the hostile that was at index [i], for a player standing and
    facing as before. *)
Lemma attackAll_nth (fuel : nat) (damage : Z) (es es' : list Entity) (p p' : Entity)
      (i : nat) (enemy : Entity) :
  attackAll fuel damage es p = Some (es', p') ->
  nth_error es i = Some enemy ->
  exists enemy' pa pb,
    nth_error es' i = Some enemy' /\
    attackEnemy fuel damage enemy pa = Some (enemy', pb) /\
    pos pa = pos p /\ rotation pa = rotation p.
Proof.
  revert es' p i; induction es as [|e0 rest IH]; intros es' p i Hall Hnth.
  - destruct i; discriminate.
  - simpl in Hall.
    destruct (attackEnemy fuel damage e0 p) as [[e0' p1]|] eqn:Hhead; [|discriminate].
    destruct (attackAll fuel damage rest p1) as [[rest' p2]|] eqn:Hrest; [|discriminate].
    injection Hall as <- <-.
    destruct i as [|i]; simpl in Hnth.
    + injection Hnth as <-. exists e0', p, p1. simpl. auto.
    + destruct (IH _ _ _ Hrest Hnth) as (enemy' & pa & pb & H1 & H2 & H3 & H4).
      destruct (attackEnemy_player _ _ _ _ _ _ Hhead) as [Hp Hr].
      exists enemy', pa, pb. simpl. repeat split; congruence.
Qed.

Lemma inReach_same_stance (p q enemy : Entity) :
  pos q = pos p -> rotation q = rotation p -> inReach p enemy -> inReach q enemy.
Proof.
  unfold inReach, attackDistance, rawAngleDiff. intros -> ->. auto.
Qed.

(** An unblocked attack takes exactly the player's damage tier from a hostile
    inside range and cone. *)
Lemma handleAttack_hit (fuel : nat) (s s' : GameState) (i : nat) (enemy enemy' : Entity) :
  gameOver s = false ->
  (attackCooldown (player s) <= 0)%Z ->
  nth_error (enemies s) i = Some enemy ->
  inReach (player s) enemy ->
  handleAttack fuel s = Some s' ->
  nth_error (enemies s') i = Some enemy' ->
  hp enemy' = (hp enemy - attackDamage (player s))%Z.
Proof.
  intros Hover Hcd Hnth Hreach Hrun Hnth'.
  unfold handleAttack in Hrun. rewrite Hover in Hrun.
  apply Z.leb_le in Hcd. rewrite Hcd in Hrun.
  destruct (attackAll _ _ _ _) as [[es p2]|] eqn:Hall; [|discriminate].
  injection Hrun as <-. simpl in Hnth'.
  destruct (attackAll_nth _ _ _ _ _ _ _ _ Hall Hnth) as (e' & pa & pb & H1 & H2 & H3 & H4).
  assert (e' = enemy') by congruence. subst e'.
  assert (Hreach' : inReach pa enemy).
  { apply (inReach_same_stance (player s)); auto. }
  destruct Hreach' as (Hnear & f0 & a & Hnorm & Hin).
  destruct (normalizeAngle fuel (rawAngleDiff pa enemy)) as [a'|] eqn:Hnorm'.
  - rewrite (normalizeAngle_agree _ _ _ _ _ Hnorm' Hnorm) in Hnorm'.
    destruct (attackEnemy_hit fuel
                (attackDamage (setAttackCooldown 25 (setIsAttacking true (player s))))
                enemy pa a Hnear Hnorm' Hin) as (e2 & p2' & Hhit & Hhp).
    rewrite Hhit in H2. injection H2 as <- _. exact Hhp.
  - unfold attackEnemy in H2. cbv zeta in H2.
    unfold attackDistance in Hnear. apply Rltb_true in Hnear.
    unfold rawAngleDiff in Hnorm'. rewrite Hnear, Hnorm' in H2. discriminate.
Qed.

(** An unblocked attack returns once the fuel is large enough, and keeps
    every hostile at its index. *)
Lemma handleAttack_total (s : GameState) (i : nat) (enemy : Entity) :
  gameOver s = false ->
  (attackCooldown (player s) <= 0)%Z ->
  nth_error (enemies s) i = Some enemy ->
  exists n, forall fuel, (n <= fuel)%nat ->
    exists s' enemy', handleAttack fuel s = Some s' /\ nth_error (enemies s') i = Some enemy'.
Proof.
  intros Hover Hcd Hnth.
  set (p1 := setAttackCooldown 25 (setIsAttacking true (player s))).
  destruct (attackAll_total (attackDamage p1) (enemies s) p1) as [n Hn].
  exists n. intros fuel Hfuel. destruct (Hn fuel Hfuel) as [[es p2] Hall].
  destruct (attackAll_nth _ _ _ _ _ _ _ _ Hall Hnth) as (e' & _ & _ & H1 & _).
  exists (setEnemies es (setPlayer p2 s)), e'.
  unfold handleAttack. rewrite Hover. apply Z.leb_le in Hcd. rewrite Hcd.
  fold p1. rewrite Hall. auto.
Qed.

(** The sample states. *)

Lemma sample_distance (angle : R) (h : Z) :
  attackDistance (turnedPlayer angle) (nearbySnake h) = 10.
Proof.
  unfold attackDistance; simpl.
  replace (1260 - 1250) with 10 by lra. replace (1250 - 1250) with 0 by lra.
  apply sqrt_axis; lra.
Qed.

Lemma sample_rawAngleDiff (angle : R) (h : Z) :
  rawAngleDiff (turnedPlayer angle) (nearbySnake h) = - angle.
Proof.
  unfold rawAngleDiff; simpl.
  replace (1260 - 1250) with 10 by lra. replace (1250 - 1250) with 0 by lra.
  rewrite atan2_right by lra. lra.
Qed.

Lemma PI_above_3 : 3 < PI.
Proof. pose proof PI2_3_2. lra. Qed.

(** Within [-PI, PI] neither loop iterates. *)
Lemma normalizeAngle_fixed (v : R) :
  - PI <= v <= PI -> normalizeAngle 1 v = Some v.
Proof.
  intros [Hlo Hhi]. unfold normalizeAngle; simpl.
  assert (H1 : Rgtb v PI = false) by (apply Rgtb_false; lra).
  assert (H2 : Rltb v (- PI) = false) by (apply Rltb_false; lra).
  now rewrite H1, H2.
Qed.

Lemma duel_inReach (lvl h : Z) : inReach (duelist lvl) (nearbySnake h).
Proof.
  pose proof PI_above_3.
  apply (inReach_same_stance (turnedPlayer 0)); [reflexivity | reflexivity |].
  split.
  - rewrite sample_distance. unfold attackRange. lra.
  - exists 1%nat, 0. rewrite sample_rawAngleDiff. split.
    + replace (- 0) with 0 by lra. apply normalizeAngle_fixed. lra.
    + rewrite Rabs_R0. unfold attackAngle. lra.
Qed.

Lemma duel_extends (high : bool) (lvl h h1 : Z) (n : nat) :
  (2 <=? orDefault (Some lvl) 1)%Z = high ->
  meleeRun high n h h1 ->
  exists h2, meleeRun high (S n) h h2 /\ h2 = (h1 - attackDamage (duelist lvl))%Z.
Proof.
  intros Hlvl Hrun.
  assert (Hnth : nth_error (enemies (duel lvl h1)) 0 = Some (nearbySnake h1)) by reflexivity.
  destruct (handleAttack_total (duel lvl h1) 0 (nearbySnake h1)) as [fuel Hf];
    [reflexivity | simpl; lia | exact Hnth |].
  destruct (Hf fuel (Nat.le_refl _)) as (s' & enemy' & Hatt & Hnth').
  exists (hp enemy'). split.
  - eapply (run_hit high n h h1 fuel (duel lvl h1) s' 0 (nearbySnake h1) enemy'); eauto.
    + simpl; lia.
    + apply duel_inReach.
  - rewrite (handleAttack_hit fuel (duel lvl h1) s' 0 (nearbySnake h1) enemy'); auto.
    + simpl; lia.
    + apply duel_inReach.
Qed.

Lemma meleeRun_health (high : bool) (n : nat) (h h' : Z) :
  meleeRun high n h h' ->
  h' = (h - Z.of_nat n * (if high then 60 else 12))%Z.
Proof.
  induction 1 as [h | n h h1 fuel s s' i enemy enemy' Hrun IH Hover Hcd Hlvl Hnth Hhp Hreach Hatt Hnth'].
  - simpl. lia.
  - rewrite (handleAttack_hit fuel s s' i enemy enemy'); auto.
    unfold attackDamage. rewrite Hlvl, Hhp, IH. destruct high; lia.
Qed.

(** C5. A hostile with 60 health inside range and cone: one attack by a
    player of level 2 or more leaves it at 0 or below (and such an attack
    exists); attacks by a level-1 player leave it at 0 or below exactly when
    there were at least five of them (and a run of five ending at 0 exists).
    Every unblocked attack on a hostile inside range and cone returns, given
    enough fuel for the normalisation loops, and takes the damage tier off
    its health. *)
Theorem melee_hits_to_kill :
  (forall h, meleeRun true 1 60 h -> (h <= 0)%Z) /\
  meleeRun true 1 60 0 /\
  (forall n h, meleeRun false n 60 h -> ((h <= 0)%Z <-> (5 <= n)%nat)) /\
  meleeRun false 5 60 0 /\
  (forall s i enemy,
     gameOver s = false ->
     (attackCooldown (player s) <= 0)%Z ->
     nth_error (enemies s) i = Some enemy ->
     inReach (player s) enemy ->
     exists n, forall fuel, (n <= fuel)%nat ->
       exists s' enemy',
         handleAttack fuel s = Some s' /\
         nth_error (enemies s') i = Some enemy' /\
         hp enemy' = (hp enemy - attackDamage (player s))%Z).
Proof.
  split; [|split; [|split; [|split]]].
  - intros h Hrun. apply meleeRun_health in Hrun. lia.
  - destruct (duel_extends true 2 60 60 0 eq_refl (run_nil true 60)) as (h1 & Hrun & ->).
    exact Hrun.
  - intros n h Hrun. apply meleeRun_health in Hrun. lia.
  - destruct (duel_extends false 1 60 60 0 eq_refl (run_nil false 60)) as (h1 & H1 & ->).
    destruct (duel_extends false 1 60 _ 1 eq_refl H1) as (h2 & H2 & ->).
    destruct (duel_extends false 1 60 _ 2 eq_refl H2) as (h3 & H3 & ->).
    destruct (duel_extends false 1 60 _ 3 eq_refl H3) as (h4 & H4 & ->).
    destruct (duel_extends false 1 60 _ 4 eq_refl H4) as (h5 & H5 & ->).
    exact H5.
  - intros s i enemy Hover Hcd Hnth Hreach.
    destruct (handleAttack_total s i enemy Hover Hcd Hnth) as [n Hn].
    exists n. intros fuel Hfuel. destruct (Hn fuel Hfuel) as (s' & enemy' & Hatt & Hnth').
    exists s', enemy'. repeat split; auto.
    now apply (handleAttack_hit fuel s s' i enemy enemy').
Qed.

Lemma melee_hits_to_kill_witness :
  (exists n, forall fuel, (n <= fuel)%nat ->
     exists s' enemy',
       handleAttack fuel (duel 2 60) = Some s' /\
       nth_error (enemies s') 0 = Some enemy' /\
       hp enemy' = (60 - 60)%Z) /\
  (forall h, meleeRun false 5 60 h -> (h <= 0)%Z).
Proof.
  split.
  - apply (proj2 (proj2 (proj2 (proj2 melee_hits_to_kill))) (duel 2 60) 0%nat (nearbySnake 60)).
    + reflexivity.
    + simpl; lia.
    + reflexivity.
    + apply duel_inReach.
  - intros h Hrun.
    apply (proj1 (proj2 (proj2 melee_hits_to_kill)) 5%nat h Hrun). lia.
Defined.

(** C6, as the code has it.  A hostile exactly at the attack range is left
    untouched, and so is one whose normalised angular difference is exactly
    the half-width in absolute value (both tests are strict).  The angular
    difference is normalised into the closed interval from -PI to PI before
    the half-width test, and the normalisation returns given enough fuel. *)
Theorem melee_boundaries_excluded (fuel : nat) (damage : Z) (enemy p : Entity) :
  (attackDistance p enemy = attackRange ->
     attackEnemy fuel damage enemy p = Some (enemy, p)) /\
  (forall a, attackDistance p enemy < attackRange ->
     normalizeAngle fuel (rawAngleDiff p enemy) = Some a ->
     Rabs a = attackAngle ->
     attackEnemy fuel damage enemy p = Some (enemy, p)) /\
  (forall a, normalizeAngle fuel (rawAngleDiff p enemy) = Some a -> - PI <= a <= PI) /\
  (exists n, forall fuel', (n <= fuel')%nat ->
     exists a, normalizeAngle fuel' (rawAngleDiff p enemy) = Some a).
Proof.
  split; [|split; [|split]].
  - intros Hd. apply attackEnemy_out_of_range. rewrite Hd. lra.
  - intros a Hnear Hnorm Ha. apply (attackEnemy_out_of_cone _ _ _ _ a); auto. rewrite Ha. lra.
  - intros a. apply normalizeAngle_range.
  - apply normalizeAngle_total.
Qed.

Lemma melee_boundaries_excluded_witness :
  attackEnemy 1 12 snakeAtRange initialPlayer = Some (snakeAtRange, initialPlayer) /\
  attackEnemy 1 12 (nearbySnake 60) (turnedPlayer 1.5)
    = Some (nearbySnake 60, turnedPlayer 1.5).
Proof.
  pose proof PI_above_3 as Hpi.
  split.
  - apply (melee_boundaries_excluded 1 12 snakeAtRange initialPlayer).
    unfold attackDistance, attackRange; simpl.
    replace (1400 - 1250) with 150 by lra. replace (1250 - 1250) with 0 by lra.
    apply sqrt_axis; lra.
  - apply (proj1 (proj2 (melee_boundaries_excluded 1 12 (nearbySnake 60) (turnedPlayer 1.5)))
             (Ropp 1.5)).
    + rewrite sample_distance. unfold attackRange. lra.
    + rewrite sample_rawAngleDiff. apply normalizeAngle_fixed. lra.
    + rewrite Rabs_left by lra. unfold attackAngle. lra.
Defined.

(** C6, refuted as worded: for a player facing left (rotation PI) and a
    hostile straight to its right the normalised difference is -PI, which is
    not in the half-open interval from -PI (excluded) to PI. *)
Lemma normalised_angle_reaches_minus_PI :
  exists a,
    normalizeAngle 1 (rawAngleDiff (turnedPlayer PI) (nearbySnake 60)) = Some a /\
    ~ (- PI < a <= PI).
Proof.
  pose proof PI_above_3 as Hpi.
  exists (- PI). split.
  - rewrite sample_rawAngleDiff. apply normalizeAngle_fixed. lra.
  - lra.
Qed.

(** ** Directions: [atan2] with [cos] and [sin] *)

Lemma norm_pos (a b : R) : a <> 0 \/ b <> 0 -> 0 < sqrt (a * a + b * b).
Proof. intros H. apply sqrt_lt_R0. destruct H; nra. Qed.

Lemma sqrt_one_plus_sq (a b : R) :
  a <> 0 -> sqrt (1 + (b / a)²) = sqrt (a * a + b * b) / Rabs a.
Proof.
  intros Ha.
  assert (Hr : 0 < sqrt (a * a + b * b)) by (apply norm_pos; auto).
  assert (Habs : 0 < Rabs a) by (now apply Rabs_pos_lt).
  apply sqrt_lem_1.
  - unfold Rsqr. assert (0 <= (b / a) * (b / a)) by nra. lra.
  - apply Rlt_le. now apply Rdiv_lt_0_compat.
  - unfold Rsqr.
    assert (Hsq : sqrt (a * a + b * b) * sqrt (a * a + b * b) = a * a + b * b)
      by (apply sqrt_sqrt; nra).
    assert (Habs2 : Rabs a * Rabs a = a * a).
    { unfold Rabs. destruct (Rcase_abs a); ring. }
    assert (Hne : Rabs a <> 0) by lra.
    transitivity ((sqrt (a * a + b * b) * sqrt (a * a + b * b)) / (Rabs a * Rabs a)).
    + field. exact Hne.
    + rewrite Hsq, Habs2. field. exact Ha.
Qed.

Lemma atan2_cos_sin (b a : R) :
  a <> 0 \/ b <> 0 ->
  cos (atan2 b a) = a / sqrt (a * a + b * b) /\
  sin (atan2 b a) = b / sqrt (a * a + b * b).
Proof.
  intros Hnz. pose proof (norm_pos a b Hnz) as Hr.
  unfold atan2.
  destruct (Rlt_dec 0 a) as [Hpos | Hnpos].
  - rewrite cos_atan, sin_atan, sqrt_one_plus_sq by lra.
    rewrite Rabs_right by lra. split; field; lra.
  - destruct (Rlt_dec a 0) as [Hneg | Hnneg].
    + assert (Hc : cos (atan (b / a)) = - a / sqrt (a * a + b * b)).
      { rewrite cos_atan, sqrt_one_plus_sq by lra. rewrite Rabs_left by lra. field; lra. }
      assert (Hs : sin (atan (b / a)) = - b / sqrt (a * a + b * b)).
      { rewrite sin_atan, sqrt_one_plus_sq by lra. rewrite Rabs_left by lra. field; lra. }
      destruct (Rle_dec 0 b).
      * rewrite neg_cos, neg_sin, Hc, Hs. split; field; lra.
      * rewrite cos_minus, sin_minus, cos_PI, sin_PI, Hc, Hs. split; field; lra.
    + assert (a = 0) by lra. subst a.
      destruct (Rlt_dec 0 b) as [Hb | Hnb].
      * replace (0 * 0 + b * b) with (b * b) by ring. rewrite sqrt_square by lra.
        rewrite cos_PI2, sin_PI2. split; field; lra.
      * destruct (Rlt_dec b 0) as [Hb' | Hnb']; [|destruct Hnz; lra].
        replace (0 * 0 + b * b) with ((- b) * (- b)) by ring. rewrite sqrt_square by lra.
        rewrite cos_neg, sin_neg, cos_PI2, sin_PI2. split; field; lra.
Qed.

Lemma atan2_origin : atan2 0 0 = 0.
Proof.
  unfold atan2. repeat (destruct (Rlt_dec _ _); [lra|]). reflexivity.
Qed.

(** A step of length [k] along the direction of [(a, b)] changes the
    distance from the origin of that direction by [k]. *)
Lemma step_along_direction (a b k : R) :
  sqrt ((a + cos (atan2 b a) * k) * (a + cos (atan2 b a) * k) +
        (b + sin (atan2 b a) * k) * (b + sin (atan2 b a) * k))
  = Rabs (sqrt (a * a + b * b) + k).
Proof.
  destruct (Req_dec_T a 0) as [Ha | Ha]; [destruct (Req_dec_T b 0) as [Hb | Hb]|].
  - subst. rewrite atan2_origin, cos_0, sin_0.
    replace (0 * 0 + 0 * 0) with 0 by ring. rewrite sqrt_0.
    replace ((0 + 1 * k) * (0 + 1 * k) + (0 + 0 * k) * (0 + 0 * k)) with (Rsqr (0 + k))
      by (unfold Rsqr; ring).
    apply sqrt_Rsqr_abs.
  - destruct (atan2_cos_sin b a (or_intror Hb)) as [Hc Hs].
    pose proof (norm_pos a b (or_intror Hb)) as Hr.
    rewrite Hc, Hs. set (r := sqrt (a * a + b * b)) in *.
    assert (Hsq : r * r = a * a + b * b) by (apply sqrt_sqrt; nra).
    replace ((a + a / r * k) * (a + a / r * k) + (b + b / r * k) * (b + b / r * k))
      with (Rsqr (r + k)).
    + apply sqrt_Rsqr_abs.
    + unfold Rsqr.
      transitivity ((a * a + b * b) * ((r + k) * (r + k)) / (r * r)).
      * rewrite <- Hsq. field. lra.
      * field. lra.
  - destruct (atan2_cos_sin b a (or_introl Ha)) as [Hc Hs].
    pose proof (norm_pos a b (or_introl Ha)) as Hr.
    rewrite Hc, Hs. set (r := sqrt (a * a + b * b)) in *.
    assert (Hsq : r * r = a * a + b * b) by (apply sqrt_sqrt; nra).
    replace ((a + a / r * k) * (a + a / r * k) + (b + b / r * k) * (b + b / r * k))
      with (Rsqr (r + k)).
    + apply sqrt_Rsqr_abs.
    + unfold Rsqr.
      transitivity ((a * a + b * b) * ((r + k) * (r + k)) / (r * r)).
      * rewrite <- Hsq. field. lra.
      * field. lra.
Qed.

Lemma dist_eq (a b : Vec2) :
  dist a b = sqrt ((x a - x b) * (x a - x b) + (y a - y b) * (y a - y b)).
Proof. unfold dist. f_equal. ring. Qed.

Lemma dist_nonneg (a b : Vec2) : 0 <= dist a b.
Proof. apply sqrt_pos. Qed.

(** Moving [q] by [k] along the direction from [c] to [q]. *)
Lemma move_along (q c : Vec2) (k : R) :
  dist (mkVec2 (x q + cos (atan2 (y q - y c) (x q - x c)) * k)
               (y q + sin (atan2 (y q - y c) (x q - x c)) * k)) c
  = Rabs (dist q c + k).
Proof.
  rewrite !dist_eq. simpl.
  rewrite <- step_along_direction. f_equal. ring.
Qed.

(** Moving [q] by [k] along the direction from [q] to [t]. *)
Lemma move_toward (q t : Vec2) (k : R) :
  dist (mkVec2 (x q + cos (atan2 (y t - y q) (x t - x q)) * k)
               (y q + sin (atan2 (y t - y q) (x t - x q)) * k)) t
  = Rabs (dist q t - k).
Proof.
  rewrite !dist_eq. simpl.
  set (th := atan2 (y t - y q) (x t - x q)).
  transitivity (sqrt (((x t - x q) + cos th * (- k)) * ((x t - x q) + cos th * (- k)) +
                      ((y t - y q) + sin th * (- k)) * ((y t - y q) + sin th * (- k)))).
  - f_equal. ring.
  - unfold th. rewrite step_along_direction.
    replace ((x t - x q) * (x t - x q) + (y t - y q) * (y t - y q))
      with ((x q - x t) * (x q - x t) + (y q - y t) * (y q - y t)) by ring.
    reflexivity.
Qed.

(** ** Hostile AI *)

Ltac break_if :=
  match goal with
  | |- context [if ?c then _ else _] => destruct c
  end.

Lemma wolf_flee (enemy p : Entity) :
  dist (pos enemy) SPAWN_ZONE_CENTER < SPAWN_ZONE_RADIUS + 50 ->
  pos (fst (Wolf.updateEnemy enemy p)) =
    mkVec2 (x (pos enemy) + cos (awayAngle enemy) * 2)
           (y (pos enemy) + sin (awayAngle enemy) * 2) /\
  rotation (fst (Wolf.updateEnemy enemy p)) = awayAngle enemy /\
  isAttacking (fst (Wolf.updateEnemy enemy p)) = isAttacking enemy /\
  snd (Wolf.updateEnemy enemy p) = p.
Proof.
  intros Hnear. apply Rltb_true in Hnear.
  unfold Wolf.updateEnemy. cbv zeta. rewrite Hnear. simpl.
  destruct (0 <? attackCooldown enemy)%Z; simpl; auto.
Qed.

Lemma wolf_idle (enemy p : Entity) :
  SPAWN_ZONE_RADIUS + 50 <= dist (pos enemy) SPAWN_ZONE_CENTER ->
  700 <= dist (pos enemy) (pos p) ->
  pos (fst (Wolf.updateEnemy enemy p)) = pos enemy /\
  rotation (fst (Wolf.updateEnemy enemy p)) = rotation enemy /\
  isAttacking (fst (Wolf.updateEnemy enemy p)) = isAttacking enemy /\
  snd (Wolf.updateEnemy enemy p) = p.
Proof.
  intros Hout Hfar. apply Rltb_false in Hout. apply Rltb_false in Hfar.
  unfold Wolf.updateEnemy. cbv zeta. rewrite Hout, Hfar. simpl.
  destruct (0 <? attackCooldown enemy)%Z; simpl; auto.
Qed.

(** [closestDist] is the distance to the chosen target, and no avatar is
    closer. *)
Lemma chooseTarget_closest (fr : option Entity) (snake p : Entity) :
  snd (chooseTarget fr snake p) = dist (pos snake) (fst (fst (chooseTarget fr snake p))) /\
  snd (chooseTarget fr snake p) <= dist (pos snake) (pos p) /\
  (forall f, fr = Some f -> snd (chooseTarget fr snake p) <= dist (pos snake) (pos f)) /\
  (snd (chooseTarget fr snake p) = dist (pos snake) (pos p) \/
   exists f, fr = Some f /\ snd (chooseTarget fr snake p) = dist (pos snake) (pos f)).
Proof.
  unfold chooseTarget. destruct fr as [f|]; cbv zeta.
  - destruct (Rltb _ _) eqn:Hc; simpl.
    + apply Rltb_true in Hc. repeat split; [lra | intros f' [= <-]; lra | right; eauto].
    + apply Rltb_false in Hc. repeat split; [lra | intros f' [= <-]; lra | now left].
  - simpl. repeat split; [lra | discriminate | now left].
Qed.

Lemma snake_idle (fr : option Entity) (snake p : Entity) :
  800 <= snd (chooseTarget fr snake p) ->
  pos (fst (updateSnake fr snake p)) = pos snake /\
  rotation (fst (updateSnake fr snake p)) = rotation snake /\
  isAttacking (fst (updateSnake fr snake p)) = isAttacking snake /\
  snd (updateSnake fr snake p) = p.
Proof.
  intros Hfar. apply Rltb_false in Hfar.
  unfold updateSnake. cbv zeta. rewrite Hfar. simpl.
  destruct (0 <? attackCooldown snake)%Z; simpl; auto.
Qed.

Lemma snake_chase (fr : option Entity) (snake p : Entity) :
  snd (chooseTarget fr snake p) < 800 ->
  pos (fst (updateSnake fr snake p)) =
    mkVec2 (x (pos snake) + cos (angleTo (fst (fst (chooseTarget fr snake p))) snake) * 3.5)
           (y (pos snake) + sin (angleTo (fst (fst (chooseTarget fr snake p))) snake) * 3.5) /\
  rotation (fst (updateSnake fr snake p)) =
    angleTo (fst (fst (chooseTarget fr snake p))) snake.
Proof.
  intros Hnear. apply Rltb_true in Hnear.
  unfold updateSnake. cbv zeta. rewrite Hnear.
  repeat break_if; simpl; auto.
Qed.

Lemma wolfnet_flee (fr : option Entity) (enemy p : Entity) :
  dist (pos enemy) SPAWN_ZONE_CENTER < SPAWN_ZONE_RADIUS + 50 ->
  pos (fst (WolfNet.updateEnemy fr enemy p)) =
    mkVec2 (x (pos enemy) + cos (awayAngle enemy) * 2)
           (y (pos enemy) + sin (awayAngle enemy) * 2) /\
  rotation (fst (WolfNet.updateEnemy fr enemy p)) = awayAngle enemy /\
  isAttacking (fst (WolfNet.updateEnemy fr enemy p)) = isAttacking enemy /\
  snd (WolfNet.updateEnemy fr enemy p) = p.
Proof.
  intros Hnear. apply Rltb_true in Hnear.
  unfold WolfNet.updateEnemy. cbv zeta. rewrite Hnear. cbn [fst snd].
  break_if; auto.
Qed.

Lemma wolfnet_idle (fr : option Entity) (enemy p : Entity) :
  SPAWN_ZONE_RADIUS + 50 <= dist (pos enemy) SPAWN_ZONE_CENTER ->
  700 <= snd (chooseTarget fr enemy p) ->
  pos (fst (WolfNet.updateEnemy fr enemy p)) = pos enemy /\
  rotation (fst (WolfNet.updateEnemy fr enemy p)) = rotation enemy /\
  isAttacking (fst (WolfNet.updateEnemy fr enemy p)) = isAttacking enemy /\
  snd (WolfNet.updateEnemy fr enemy p) = p.
Proof.
  intros Hout Hfar. apply Rltb_false in Hout. apply Rltb_false in Hfar.
  unfold WolfNet.updateEnemy. cbv zeta. rewrite Hout, Hfar. cbn [fst snd].
  break_if; auto.
Qed.

Lemma wolfnet_chase (fr : option Entity) (enemy p : Entity) :
  SPAWN_ZONE_RADIUS + 50 <= dist (pos enemy) SPAWN_ZONE_CENTER ->
  snd (chooseTarget fr enemy p) < 700 ->
  pos (fst (WolfNet.updateEnemy fr enemy p)) =
    mkVec2 (x (pos enemy) + cos (angleTo (fst (fst (chooseTarget fr enemy p))) enemy) * 4)
           (y (pos enemy) + sin (angleTo (fst (fst (chooseTarget fr enemy p))) enemy) * 4) /\
  rotation (fst (WolfNet.updateEnemy fr enemy p)) =
    angleTo (fst (fst (chooseTarget fr enemy p))) enemy.
Proof.
  intros Hout Hnear. apply Rltb_false in Hout. apply Rltb_true in Hnear.
  unfold WolfNet.updateEnemy. cbv zeta. rewrite Hout, Hnear.
  repeat break_if; simpl; auto.
Qed.

(** C8, as the code has it.  In the wolf engines, which have the sanctuary
    rule, a hostile closer than 350 to the sanctuary centre moves two units
    radially outward, faces outward and leaves the player untouched; one
    outside that circle and at 700 or more from every avatar it can target
    (the player in the offline engine, the player and the friend in the
    networked one) keeps position and rotation and does not attack.  The
    snake engine has no sanctuary rule: a snake at 800 or more from every
    avatar keeps position and rotation and does not attack, and a snake
    closer than 800 to its target turns to it and moves 3.5 units toward
    it, wherever the snake is.  The last three parts are the networked
    wolf engine: flight, idling, and the pursuit of the nearest avatar
    within 700, by 4 units. *)
Theorem hostile_ai_cases :
  (forall enemy p,
     dist (pos enemy) SPAWN_ZONE_CENTER < SPAWN_ZONE_RADIUS + 50 ->
     dist (pos (fst (Wolf.updateEnemy enemy p))) SPAWN_ZONE_CENTER
       = dist (pos enemy) SPAWN_ZONE_CENTER + 2 /\
     rotation (fst (Wolf.updateEnemy enemy p)) = awayAngle enemy /\
     isAttacking (fst (Wolf.updateEnemy enemy p)) = isAttacking enemy /\
     snd (Wolf.updateEnemy enemy p) = p) /\
  (forall enemy p,
     SPAWN_ZONE_RADIUS + 50 <= dist (pos enemy) SPAWN_ZONE_CENTER ->
     700 <= dist (pos enemy) (pos p) ->
     pos (fst (Wolf.updateEnemy enemy p)) = pos enemy /\
     rotation (fst (Wolf.updateEnemy enemy p)) = rotation enemy /\
     isAttacking (fst (Wolf.updateEnemy enemy p)) = isAttacking enemy /\
     snd (Wolf.updateEnemy enemy p) = p) /\
  (forall fr snake p,
     800 <= dist (pos snake) (pos p) ->
     (forall f, fr = Some f -> 800 <= dist (pos snake) (pos f)) ->
     pos (fst (updateSnake fr snake p)) = pos snake /\
     rotation (fst (updateSnake fr snake p)) = rotation snake /\
     isAttacking (fst (updateSnake fr snake p)) = isAttacking snake /\
     snd (updateSnake fr snake p) = p) /\
  (forall fr snake p,
     snd (chooseTarget fr snake p) < 800 ->
     dist (pos (fst (updateSnake fr snake p))) (fst (fst (chooseTarget fr snake p)))
       = Rabs (snd (chooseTarget fr snake p) - 3.5) /\
     rotation (fst (updateSnake fr snake p))
       = angleTo (fst (fst (chooseTarget fr snake p))) snake) /\
  (forall fr enemy p,
     dist (pos enemy) SPAWN_ZONE_CENTER < SPAWN_ZONE_RADIUS + 50 ->
     dist (pos (fst (WolfNet.updateEnemy fr enemy p))) SPAWN_ZONE_CENTER
       = dist (pos enemy) SPAWN_ZONE_CENTER + 2 /\
     rotation (fst (WolfNet.updateEnemy fr enemy p)) = awayAngle enemy /\
     isAttacking (fst (WolfNet.updateEnemy fr enemy p)) = isAttacking enemy /\
     snd (WolfNet.updateEnemy fr enemy p) = p) /\
  (forall fr enemy p,
     SPAWN_ZONE_RADIUS + 50 <= dist (pos enemy) SPAWN_ZONE_CENTER ->
     700 <= dist (pos enemy) (pos p) ->
     (forall f, fr = Some f -> 700 <= dist (pos enemy) (pos f)) ->
     pos (fst (WolfNet.updateEnemy fr enemy p)) = pos enemy /\
     rotation (fst (WolfNet.updateEnemy fr enemy p)) = rotation enemy /\
     isAttacking (fst (WolfNet.updateEnemy fr enemy p)) = isAttacking enemy /\
     snd (WolfNet.updateEnemy fr enemy p) = p) /\
  (forall fr enemy p,
     SPAWN_ZONE_RADIUS + 50 <= dist (pos enemy) SPAWN_ZONE_CENTER ->
     snd (chooseTarget fr enemy p) < 700 ->
     dist (pos (fst (WolfNet.updateEnemy fr enemy p))) (fst (fst (chooseTarget fr enemy p)))
       = Rabs (snd (chooseTarget fr enemy p) - 4) /\
     rotation (fst (WolfNet.updateEnemy fr enemy p))
       = angleTo (fst (fst (chooseTarget fr enemy p))) enemy).
Proof.
  split; [|split; [|split; [|split; [|split; [|split]]]]].
  - intros enemy p Hnear.
    destruct (wolf_flee enemy p Hnear) as (Hpos & Hrot & Hatt & Hp).
    repeat split; auto.
    rewrite Hpos. unfold awayAngle. rewrite move_along.
    apply Rabs_right. pose proof (dist_nonneg (pos enemy) SPAWN_ZONE_CENTER). lra.
  - intros enemy p. apply wolf_idle.
  - intros fr snake p Hp Hf. apply snake_idle.
    destruct (chooseTarget_closest fr snake p) as (_ & _ & _ & [-> | (f & Hfr & ->)]); auto.
  - intros fr snake p Hnear.
    destruct (snake_chase fr snake p Hnear) as (Hpos & Hrot).
    split; [|exact Hrot].
    rewrite Hpos. unfold angleTo. rewrite move_toward.
    now destruct (chooseTarget_closest fr snake p) as (-> & _).
  - intros fr enemy p Hnear.
    destruct (wolfnet_flee fr enemy p Hnear) as (Hpos & Hrot & Hatt & Hp).
    repeat split; auto.
    rewrite Hpos. unfold awayAngle. rewrite move_along.
    apply Rabs_right. pose proof (dist_nonneg (pos enemy) SPAWN_ZONE_CENTER). lra.
  - intros fr enemy p Hout Hp Hf. apply wolfnet_idle; [exact Hout|].
    destruct (chooseTarget_closest fr enemy p) as (_ & _ & _ & [-> | (f & Hfr & ->)]); auto.
  - intros fr enemy p Hout Hnear.
    destruct (wolfnet_chase fr enemy p Hout Hnear) as (Hpos & Hrot).
    split; [|exact Hrot].
    rewrite Hpos. unfold angleTo. rewrite move_toward.
    now destruct (chooseTarget_closest fr enemy p) as (-> & _).
Qed.

Lemma dist_right_of_centre (a : R) (e : Entity) :
  1250 <= a -> pos e = mkVec2 a 1250 -> dist (pos e) SPAWN_ZONE_CENTER = a - 1250.
Proof.
  intros Ha ->. rewrite dist_eq. simpl.
  replace (1250 - 1250) with 0 by lra. apply sqrt_axis. lra.
Qed.

Lemma hostile_ai_cases_witness :
  dist (pos (fst (Wolf.updateEnemy snakeInSanctuary initialPlayer))) SPAWN_ZONE_CENTER
    = dist (pos snakeInSanctuary) SPAWN_ZONE_CENTER + 2 /\
  pos (fst (updateSnake None farSnake initialPlayer)) = pos farSnake /\
  rotation (fst (WolfNet.updateEnemy (Some nearFriend) lurkingWolf initialPlayer))
    = angleTo (fst (fst (chooseTarget (Some nearFriend) lurkingWolf initialPlayer)))
              lurkingWolf.
Proof.
  split; [|split].
  - apply (proj1 hostile_ai_cases snakeInSanctuary initialPlayer).
    rewrite (dist_right_of_centre 1350) by (reflexivity || lra).
    unfold SPAWN_ZONE_RADIUS. lra.
  - apply (proj1 (proj2 (proj2 hostile_ai_cases)) None farSnake initialPlayer).
    + change (pos initialPlayer) with SPAWN_ZONE_CENTER.
      rewrite (dist_right_of_centre 2150) by (reflexivity || lra). lra.
    + discriminate.
  - apply (proj2 (proj2 (proj2 (proj2 (proj2 (proj2 hostile_ai_cases)))))
             (Some nearFriend) lurkingWolf initialPlayer).
    + rewrite (dist_right_of_centre 2000) by (reflexivity || lra).
      unfold SPAWN_ZONE_RADIUS. lra.
    + destruct (chooseTarget_closest (Some nearFriend) lurkingWolf initialPlayer)
        as (_ & _ & Hf & _).
      specialize (Hf nearFriend eq_refl).
      assert (Hd : dist (pos lurkingWolf) (pos nearFriend) = 10).
      { rewrite dist_eq. change (pos lurkingWolf) with (mkVec2 2000 1250).
        change (pos nearFriend) with (mkVec2 1990 1250). cbn [x y].
        replace ((2000 - 1990) * (2000 - 1990) + (1250 - 1250) * (1250 - 1250))
          with (10 * 10 + 0 * 0) by lra.
        apply sqrt_axis. lra. }
      lra.
Defined.

(** C8, refuted for the snake engine: a snake one hundred units from the
    sanctuary centre, well within the 350 threshold, with the player at the
    centre, ends its AI step closer to the centre: it pursues instead of
    moving outward. *)
Lemma snake_pursues_inside_sanctuary :
  dist (pos snakeInSanctuary) SPAWN_ZONE_CENTER < SPAWN_ZONE_RADIUS + 50 /\
  dist (pos (fst (updateSnake None snakeInSanctuary initialPlayer))) SPAWN_ZONE_CENTER
    < dist (pos snakeInSanctuary) SPAWN_ZONE_CENTER.
Proof.
  assert (Hd : dist (pos snakeInSanctuary) SPAWN_ZONE_CENTER = 100).
  { rewrite (dist_right_of_centre 1350) by (reflexivity || lra). lra. }
  split; [rewrite Hd; unfold SPAWN_ZONE_RADIUS; lra|].
  assert (Hnear : snd (chooseTarget None snakeInSanctuary initialPlayer) < 800).
  { change (snd (chooseTarget None snakeInSanctuary initialPlayer))
      with (dist (pos snakeInSanctuary) SPAWN_ZONE_CENTER). lra. }
  destruct (snake_chase None snakeInSanctuary initialPlayer Hnear) as [Hpos _].
  rewrite Hpos. unfold angleTo.
  change (fst (fst (chooseTarget None snakeInSanctuary initialPlayer)))
    with SPAWN_ZONE_CENTER.
  rewrite move_toward, Hd. rewrite Rabs_right; lra.
Qed.

(** ** One tick *)

Lemma movePlayer_vitals (c : Controls) (p : Entity) :
  hp (movePlayer c p) = hp p /\ maxHp (movePlayer c p) = maxHp p.
Proof.
  unfold movePlayer. cbv zeta.
  match goal with |- context [hp (if ?b then _ else _)] => destruct b end; simpl; auto.
Qed.

Lemma tickCooldown_vitals (p : Entity) :
  hp (tickCooldown p) = hp p /\ maxHp (tickCooldown p) = maxHp p /\
  pos (tickCooldown p) = pos p.
Proof. unfold tickCooldown. repeat break_if; simpl; auto. Qed.

Lemma healPlayer_fields (rng : Rng) (s : GameState) (k : nat) :
  friend (fst (healPlayer rng s k)) = friend s /\
  enemies (fst (healPlayer rng s k)) = enemies s /\
  environment (fst (healPlayer rng s k)) = environment s /\
  gameOver (fst (healPlayer rng s k)) = gameOver s /\
  maxHp (player (fst (healPlayer rng s k))) = maxHp (player s) /\
  ((hp (player s) <= maxHp (player s))%Z ->
   (hp (player (fst (healPlayer rng s k))) <= maxHp (player s))%Z).
Proof.
  unfold healPlayer. cbv zeta. repeat break_if; simpl; repeat split; auto; try lia.
Qed.

Lemma updateSnake_fields (fr : option Entity) (snake p : Entity) :
  hp (fst (updateSnake fr snake p)) = hp snake /\
  maxHp (fst (updateSnake fr snake p)) = maxHp snake /\
  (hp (snd (updateSnake fr snake p)) <= hp p)%Z /\
  maxHp (snd (updateSnake fr snake p)) = maxHp p /\
  pos (snd (updateSnake fr snake p)) = pos p.
Proof.
  unfold updateSnake. cbv zeta. repeat break_if; simpl; repeat split; auto; try lia.
Qed.

Lemma updateSnakes_fields (fr : option Entity) (es : list Entity) (p : Entity) :
  map hp (fst (updateSnakes fr es p)) = map hp es /\
  map maxHp (fst (updateSnakes fr es p)) = map maxHp es /\
  (hp (snd (updateSnakes fr es p)) <= hp p)%Z /\
  maxHp (snd (updateSnakes fr es p)) = maxHp p /\
  pos (snd (updateSnakes fr es p)) = pos p.
Proof.
  revert p; induction es as [|snake rest IH]; intros p;
    cbn [updateSnakes fst snd map]; [repeat split; auto; lia|].
  destruct (updateSnake_fields fr snake p) as (H1 & H2 & H3 & H4 & H5).
  destruct (IH (snd (updateSnake fr snake p))) as (I1 & I2 & I3 & I4 & I5).
  rewrite H1, H2, I1, I2, I4, I5, H4, H5. repeat split; auto. lia.
Qed.

Lemma spawnLoop_fields (fuel : nat) (rng : Rng) (clock : nat -> nat) (idx : list nat)
      (s s' : GameState) (k k' : nat) :
  spawnLoop fuel rng clock idx s k = Some (s', k') ->
  player s' = player s /\ friend s' = friend s /\
  environment s' = environment s /\ gameOver s' = gameOver s.
Proof.
  revert s k; induction idx as [|i rest IH]; intros s k; simpl.
  - intros [= <- <-]. auto.
  - destruct (retrySpawn _ _ _ _ _) as [[q k1]|]; [|discriminate].
    intros Hrest. apply IH in Hrest. simpl in Hrest. exact Hrest.
Qed.

Lemma enemyLogic_fields (fuel : nat) (rng : Rng) (clock : nat -> nat)
      (s s' : GameState) (k k' : nat) :
  enemyLogic fuel rng clock s k = Some (s', k') ->
  player s' = snd (updateSnakes (friend s) (enemies s) (player s)) /\
  enemies s' = filter (fun e => (0 <? hp e)%Z)
                      (fst (updateSnakes (friend s) (enemies s) (player s))) /\
  friend s' = friend s /\ environment s' = environment s /\ gameOver s' = gameOver s.
Proof.
  unfold enemyLogic, spawnSnakes. cbv zeta. simpl enemies.
  repeat break_if.
  - destruct (spawnLoop _ _ _ _ _ _) as [[s2 k2]|] eqn:Hsp; [|discriminate].
    intros [= <- <-]. apply spawnLoop_fields in Hsp. simpl in *.
    destruct Hsp as (-> & -> & -> & ->). auto.
  - intros [= <- <-]. simpl. auto.
  - intros [= <- <-]. simpl. auto.
Qed.

(** Without a death in the tick nothing is respawned and the enemy block
    returns. *)
Lemma enemyLogic_no_deaths (fuel : nat) (rng : Rng) (clock : nat -> nat)
      (s : GameState) (k : nat) :
  Forall (fun e => (0 < hp e)%Z) (enemies s) ->
  exists s', enemyLogic fuel rng clock s k = Some (s', k).
Proof.
  intros Halive.
  unfold enemyLogic. cbv zeta. simpl enemies.
  set (es := fst (updateSnakes (friend s) (enemies s) (player s))).
  assert (Hkeep : filter (fun e => (0 <? hp e)%Z) es = es).
  { apply filter_all.
    destruct (updateSnakes_fields (friend s) (enemies s) (player s)) as (Hhp & _).
    fold es in Hhp. clearbody es. revert Hhp Halive. generalize (enemies s).
    induction es as [|e es IH]; intros [|e0 l] Hhp Halive; simpl in Hhp; try discriminate; auto.
    injection Hhp as Hh Ht. inversion Halive; subst. constructor.
    - apply Z.ltb_lt. lia.
    - eapply IH; eauto. }
  rewrite Hkeep, Nat.ltb_irrefl. eauto.
Qed.

Lemma clampToWorld_inWorld (ent : Entity) : inWorld (pos (clampToWorld ent)).
Proof.
  unfold inWorld, clampToWorld, CANVAS_WIDTH, CANVAS_HEIGHT; simpl.
  split; split; try apply Rmax_l;
    apply Rmax_lub; try lra; apply Rmin_l.
Qed.

Lemma pushOut_vitals (ent rock : Entity) :
  hp (pushOut ent rock) = hp ent /\ maxHp (pushOut ent rock) = maxHp ent.
Proof. unfold pushOut. cbv zeta. break_if; simpl; auto. Qed.

Lemma pushOutAll_vitals (rocks : list Entity) (ent : Entity) :
  hp (pushOutAll rocks ent) = hp ent /\ maxHp (pushOutAll rocks ent) = maxHp ent.
Proof.
  unfold pushOutAll. revert ent; induction rocks as [|rock rest IH]; intros ent; simpl; auto.
  destruct (IH (pushOut ent rock)) as [-> ->]. apply pushOut_vitals.
Qed.

Lemma resolveEntity_vitals (environment : list Entity) (ent : Entity) :
  hp (resolveEntity environment ent) = hp ent /\
  maxHp (resolveEntity environment ent) = maxHp ent.
Proof.
  unfold resolveEntity.
  destruct (pushOutAll_vitals (filter isRock environment) (clampToWorld ent)) as [-> ->].
  auto.
Qed.

Lemma resolveEntity_clampedThenPushed (environment : list Entity) (ent : Entity) :
  clampedThenPushed environment (resolveEntity environment ent).
Proof. exists (clampToWorld ent). split; [apply clampToWorld_inWorld | reflexivity]. Qed.

(** What a completed tick leaves in each field. *)
Lemma updatePhysics_fields (isMultiplayer isHost : bool) (c : Controls) (fuel : nat)
      (rng : Rng) (clock : nat -> nat) (s s' : GameState) (k k' : nat) :
  updatePhysics isMultiplayer isHost c fuel rng clock s k = Some (s', k') ->
  exists s3,
    (if negb isMultiplayer || isHost
     then enemyLogic fuel rng clock
            (fst (healPlayer rng (setPlayer (tickCooldown (movePlayer c (player s))) s) k))
            (snd (healPlayer rng (setPlayer (tickCooldown (movePlayer c (player s))) s) k))
          = Some (s3, k')
     else s3 = fst (healPlayer rng (setPlayer (tickCooldown (movePlayer c (player s))) s) k)) /\
    player s' = resolveEntity (environment s3) (player s3) /\
    enemies s' = map (resolveEntity (environment s3)) (enemies s3) /\
    friend s' = option_map (resolveEntity (environment s3)) (friend s3) /\
    environment s' = environment s3 /\
    gameOver s' = gameOver s3.
Proof.
  unfold updatePhysics. cbv zeta.
  destruct (negb isMultiplayer || isHost).
  - destruct (enemyLogic _ _ _ _ _) as [[s3 k3]|] eqn:Hen; [|discriminate].
    intros [= <- <-]. exists s3. simpl. repeat split.
  - intros [= <- <-]. eexists. split; [reflexivity|]. simpl. repeat split.
Qed.

Lemma vitals_transfer (l1 l2 : list Entity) :
  map hp l1 = map hp l2 -> map maxHp l1 = map maxHp l2 ->
  Forall (fun e => (hp e <= maxHp e)%Z) l2 ->
  Forall (fun e => (hp e <= maxHp e)%Z) l1.
Proof.
  revert l2; induction l1 as [|e1 l1 IH]; intros [|e2 l2] Hhp Hmax Hall;
    simpl in *; try discriminate; constructor.
  - injection Hhp as -> _. injection Hmax as -> _. now inversion Hall.
  - injection Hhp as _ Hhp. injection Hmax as _ Hmax. inversion Hall; subst. eauto.
Qed.

Lemma Forall_filter_keep {A : Type} (P : A -> Prop) (f : A -> bool) (l : list A) :
  Forall P l -> Forall P (filter f l).
Proof.
  induction 1 as [|a l Ha _ IH]; simpl; [constructor|].
  destruct (f a); [constructor|]; auto.
Qed.

Lemma Forall_filter_true {A : Type} (f : A -> bool) (l : list A) :
  Forall (fun a => f a = true) (filter f l).
Proof.
  induction l as [|a l IH]; simpl; [constructor|].
  destruct (f a) eqn:Hf; [constructor|]; auto.
Qed.

(** The state [s3] between the enemy block and the collision pass of a
    completed tick. *)
Lemma tick_intermediate (isMultiplayer isHost : bool) (c : Controls) (fuel : nat)
      (rng : Rng) (clock : nat -> nat) (s s' : GameState) (k k' : nat) :
  updatePhysics isMultiplayer isHost c fuel rng clock s k = Some (s', k') ->
  exists s3,
    player s' = resolveEntity (environment s') (player s3) /\
    enemies s' = map (resolveEntity (environment s')) (enemies s3) /\
    friend s' = option_map (resolveEntity (environment s')) (friend s) /\
    environment s' = environment s /\
    gameOver s' = gameOver s /\
    maxHp (player s3) = maxHp (player s) /\
    ((hp (player s) <= maxHp (player s))%Z -> (hp (player s3) <= maxHp (player s3))%Z) /\
    (Forall (fun e => (hp e <= maxHp e)%Z) (enemies s) ->
     Forall (fun e => (hp e <= maxHp e)%Z) (enemies s3)) /\
    (negb isMultiplayer || isHost = true -> Forall (fun e => (0 < hp e)%Z) (enemies s3)).
Proof.
  intros Hrun.
  destruct (updatePhysics_fields _ _ _ _ _ _ _ _ _ _ Hrun)
    as (s3 & Hs3 & Hp & He & Hf & Henv & Hover).
  set (p1 := tickCooldown (movePlayer c (player s))) in *.
  destruct (healPlayer_fields rng (setPlayer p1 s) k) as (Ff & Fe & Fenv & Fover & Fmax & Fhp).
  simpl in Ff, Fe, Fenv, Fover, Fmax, Fhp.
  assert (Hp1 : hp p1 = hp (player s) /\ maxHp p1 = maxHp (player s)).
  { unfold p1. destruct (tickCooldown_vitals (movePlayer c (player s))) as (-> & -> & _).
    apply movePlayer_vitals. }
  destruct Hp1 as [Hp1h Hp1m]. rewrite Hp1h, Hp1m in *.
  set (s2 := fst (healPlayer rng (setPlayer p1 s) k)) in *.
  exists s3. rewrite Henv in *.
  destruct (negb isMultiplayer || isHost).
  - destruct (enemyLogic_fields _ _ _ _ _ _ _ Hs3) as (Ep & Ee & Ef & Eenv & Eover).
    destruct (updateSnakes_fields (friend s2) (enemies s2) (player s2))
      as (Uhp & Umax & Uple & Upmax & _).
    rewrite Eenv, Fenv, Eover, Fover in *. rewrite Ef, Ff in Hf.
    repeat split; auto.
    + rewrite Ep, Upmax. exact Fmax.
    + intros Hle. rewrite Ep, Upmax, Fmax. specialize (Fhp Hle). lia.
    + intros Hall. rewrite Ee. apply Forall_filter_keep.
      apply (vitals_transfer _ (enemies s2)); auto. now rewrite Fe.
    + intros _. rewrite Ee.
      eapply Forall_impl; [|apply Forall_filter_true].
      intros e He0. now apply Z.ltb_lt.
  - subst s3. rewrite Fenv, Fover in *. rewrite Ff in Hf. rewrite Fe in He |- *.
    repeat split; auto; try discriminate.
    intros Hle. rewrite Fmax. auto.
Qed.

Lemma pushOutAll_nil (ent : Entity) : pushOutAll [] ent = ent.
Proof. reflexivity. Qed.

(** C2, as the code has it.  After a completed tick every dynamic entity
    (player, hostiles, friend) stands where the rock push-out took it from a
    point of the world rectangle, hence inside the rectangle when the
    environment has no rock; every health that was at most its maximum still
    is; the hostiles an authority keeps have positive health, the friend's
    health is as before and the environment is untouched.  Nothing bounds
    the player's health from below. *)
Theorem tick_bounds (isMultiplayer isHost : bool) (c : Controls) (fuel : nat)
        (rng : Rng) (clock : nat -> nat) (s s' : GameState) (k k' : nat) :
  updatePhysics isMultiplayer isHost c fuel rng clock s k = Some (s', k') ->
  clampedThenPushed (environment s') (player s') /\
  Forall (clampedThenPushed (environment s')) (enemies s') /\
  (forall f, friend s' = Some f -> clampedThenPushed (environment s') f) /\
  (filter isRock (environment s') = [] ->
     inWorld (pos (player s')) /\
     Forall (fun e => inWorld (pos e)) (enemies s') /\
     (forall f, friend s' = Some f -> inWorld (pos f))) /\
  ((hp (player s) <= maxHp (player s))%Z -> (hp (player s') <= maxHp (player s'))%Z) /\
  (Forall (fun e => (hp e <= maxHp e)%Z) (enemies s) ->
   Forall (fun e => (hp e <= maxHp e)%Z) (enemies s')) /\
  (negb isMultiplayer || isHost = true -> Forall (fun e => (0 < hp e)%Z) (enemies s')) /\
  (forall f', friend s' = Some f' ->
     exists f, friend s = Some f /\ hp f' = hp f /\ maxHp f' = maxHp f) /\
  environment s' = environment s.
Proof.
  intros Hrun.
  destruct (tick_intermediate _ _ _ _ _ _ _ _ _ _ Hrun)
    as (s3 & Hp & He & Hf & Henv & Hover & Hmax & Hhp & Hes & Halive).
  assert (Hplayer : clampedThenPushed (environment s') (player s')).
  { rewrite Hp. apply resolveEntity_clampedThenPushed. }
  assert (Henemies : Forall (clampedThenPushed (environment s')) (enemies s')).
  { rewrite He. apply Forall_forall. intros e Hin. apply in_map_iff in Hin.
    destruct Hin as (e0 & <- & _). apply resolveEntity_clampedThenPushed. }
  assert (Hfriend : forall f, friend s' = Some f -> clampedThenPushed (environment s') f).
  { intros f Hf'. rewrite Hf in Hf'. destruct (friend s) as [f0|]; [|discriminate].
    injection Hf' as <-. apply resolveEntity_clampedThenPushed. }
  assert (Hfree : forall e, filter isRock (environment s') = [] ->
                            clampedThenPushed (environment s') e -> inWorld (pos e)).
  { intros e Hnone (q & Hq & ->). now rewrite Hnone, pushOutAll_nil. }
  split; [exact Hplayer|]. split; [exact Henemies|]. split; [exact Hfriend|].
  split; [|split; [|split; [|split; [|split; [|exact Henv]]]]].
  - intros Hnone. split; [|split].
    + now apply Hfree.
    + eapply Forall_impl; [|exact Henemies]. intros e. now apply Hfree.
    + intros f Hf'. apply Hfree; auto.
  - intros Hle. rewrite Hp.
    destruct (resolveEntity_vitals (environment s') (player s3)) as [-> ->]. auto.
  - intros Hall. rewrite He. apply Forall_forall. intros e Hin. apply in_map_iff in Hin.
    destruct Hin as (e0 & <- & Hin0).
    destruct (resolveEntity_vitals (environment s') e0) as [-> ->].
    specialize (Hes Hall). rewrite Forall_forall in Hes. auto.
  - intros Hhost. rewrite He. apply Forall_forall. intros e Hin. apply in_map_iff in Hin.
    destruct Hin as (e0 & <- & Hin0).
    destruct (resolveEntity_vitals (environment s') e0) as [-> _].
    specialize (Halive Hhost). rewrite Forall_forall in Halive. auto.
  - intros f' Hf'. rewrite Hf in Hf'. destruct (friend s) as [f0|]; [|discriminate].
    injection Hf' as <-. exists f0. split; [reflexivity|]. apply resolveEntity_vitals.
Qed.

(** A tick in which no hostile starts dead returns, whatever the fuel. *)
Lemma updatePhysics_no_deaths (isMultiplayer isHost : bool) (c : Controls) (fuel : nat)
      (rng : Rng) (clock : nat -> nat) (s : GameState) (k : nat) :
  Forall (fun e => (0 < hp e)%Z) (enemies s) ->
  exists s' k', updatePhysics isMultiplayer isHost c fuel rng clock s k = Some (s', k').
Proof.
  intros Halive. unfold updatePhysics. cbv zeta.
  set (p1 := tickCooldown (movePlayer c (player s))).
  destruct (healPlayer_fields rng (setPlayer p1 s) k) as (_ & Fe & _).
  simpl in Fe.
  destruct (negb isMultiplayer || isHost); [|eauto].
  destruct (enemyLogic_no_deaths fuel rng clock
              (fst (healPlayer rng (setPlayer p1 s) k))
              (snd (healPlayer rng (setPlayer p1 s) k))) as [s3 Hs3].
  { now rewrite Fe. }
  rewrite Hs3. eauto.
Qed.

Lemma sqrt_of_square (a b : R) : 0 <= b -> a = b * b -> sqrt a = b.
Proof. intros Hb ->. now apply sqrt_square. Qed.

(** Walking down: seven units along the y axis. *)
Lemma movePlayer_walkDown (p : Entity) :
  pos (movePlayer walkDown p) = mkVec2 (x (pos p)) (y (pos p) + 7).
Proof.
  unfold movePlayer. simpl.
  assert (H1 : Reqb 1 0 = false).
  { destruct (Reqb 1 0) eqn:Hc; [apply Reqb_true in Hc; lra | reflexivity]. }
  rewrite Reqb_refl, H1. simpl.
  rewrite (sqrt_of_square (0 * 0 + 1 * 1) 1) by lra.
  f_equal; lra.
Qed.

Lemma movePlayer_rest (c : Controls) (p : Entity) :
  radius (movePlayer c p) = radius p /\ attackCooldown (movePlayer c p) = attackCooldown p.
Proof.
  unfold movePlayer. cbv zeta.
  match goal with |- context [radius (if ?b then _ else _)] => destruct b end; simpl; auto.
Qed.

Lemma snake_bite (snake p : Entity) :
  dist (pos snake) (pos p) < 35 ->
  (attackCooldown snake <= 0)%Z ->
  snd (updateSnake None snake p) = setHp (hp p - 10)%Z p.
Proof.
  intros Hnear Hcd.
  assert (H800 : Rltb (dist (pos snake) (pos p)) 800 = true) by (apply Rltb_true; lra).
  apply Rltb_true in Hnear. apply Z.leb_le in Hcd.
  unfold updateSnake, chooseTarget. cbv zeta. simpl.
  rewrite H800, Hnear, Hcd. reflexivity.
Qed.

Lemma clamp_inside (a b : R) : 0 <= a <= b -> Rmax 0 (Rmin b a) = a.
Proof.
  intros [Hlo Hhi]. rewrite Rmin_right by lra. now apply Rmax_right.
Qed.

(** An entity that overlaps a rock is moved along the line from the rock's
    centre through its own, by the depth of the overlap. *)
Lemma pushOut_overlap (ent rock : Entity) (d : R) :
  dist (pos ent) (pos rock) = d ->
  0 < d -> d < radius ent + radius rock ->
  pos (pushOut ent rock) =
    mkVec2 (x (pos ent) + (x (pos ent) - x (pos rock)) / d * (radius ent + radius rock - d))
           (y (pos ent) + (y (pos ent) - y (pos rock)) / d * (radius ent + radius rock - d)).
Proof.
  intros Hd Hpos Hover.
  assert (Hc : Rltb d (radius ent + radius rock) = true) by now apply Rltb_true.
  unfold pushOut. cbv zeta. rewrite Hd, Hc. simpl.
  rewrite dist_eq in Hd.
  assert (Hnz : x (pos ent) - x (pos rock) <> 0 \/ y (pos ent) - y (pos rock) <> 0).
  { destruct (Req_dec_T (x (pos ent) - x (pos rock)) 0) as [Hx|Hx]; [|now left].
    destruct (Req_dec_T (y (pos ent) - y (pos rock)) 0) as [Hy|Hy]; [|now right].
    rewrite Hx, Hy in Hd. replace (0 * 0 + 0 * 0) with 0 in Hd by ring.
    rewrite sqrt_0 in Hd. lra. }
  destruct (atan2_cos_sin _ _ Hnz) as [-> ->]. now rewrite Hd.
Qed.

(** The tick of the cornered player as it walks down, evaluated: the tick
    returns, the player ends at x = -3 with -5 health, the terminal flag is
    still down and the snake is still alive. *)
Lemma cornered_tick (fuel : nat) (rng : Rng) (clock : nat -> nat) (k : nat) :
  exists s' k',
    updatePhysics false false walkDown fuel rng clock cornered k = Some (s', k') /\
    x (pos (player s')) = -3 /\
    hp (player s') = (-5)%Z /\
    gameOver s' = false /\
    Forall (fun e => (0 < hp e)%Z) (enemies s').
Proof.
  destruct (updatePhysics_no_deaths false false walkDown fuel rng clock cornered k)
    as (s' & k' & Hrun).
  { repeat constructor. }
  exists s', k'. split; [exact Hrun|].
  destruct (tick_intermediate _ _ _ _ _ _ _ _ _ _ Hrun)
    as (s3 & _ & He & _ & _ & Hover & _ & _ & _ & Halive).
  destruct (updatePhysics_fields _ _ _ _ _ _ _ _ _ _ Hrun)
    as (t3 & Ht3 & Hp & _ & _ & _ & _).
  simpl negb in Ht3. cbv iota in Ht3. simpl orb in Ht3. cbv iota in Ht3.
  set (p1 := tickCooldown (movePlayer walkDown (player cornered))) in Ht3.
  (* the player after input and cooldown *)
  assert (Hpos1 : pos p1 = mkVec2 0 1210).
  { unfold p1. destruct (tickCooldown_vitals (movePlayer walkDown (player cornered)))
      as (_ & _ & ->).
    rewrite movePlayer_walkDown. simpl. f_equal; lra. }
  assert (Hhp1 : hp p1 = 5%Z).
  { unfold p1. destruct (tickCooldown_vitals (movePlayer walkDown (player cornered)))
      as (-> & _ & _).
    now destruct (movePlayer_vitals walkDown (player cornered)) as [-> _]. }
  assert (Hrad1 : radius p1 = 25).
  { unfold p1, tickCooldown.
    destruct (movePlayer_rest walkDown (player cornered)) as [Hr Hcd].
    rewrite Hcd. simpl. exact Hr. }
  (* no stream: no healing *)
  change (fst (healPlayer rng (setPlayer p1 cornered) k))
    with (setPlayer p1 cornered) in Ht3.
  destruct (enemyLogic_fields _ _ _ _ _ _ _ Ht3) as (Ep & _ & _ & Eenv & _).
  change (player t3 = snd (updateSnake None bitingSnake p1)) in Ep.
  change (environment t3 = [borderRock]) in Eenv.
  (* the bite *)
  rewrite snake_bite in Ep.
  - rewrite Hp, Eenv, Ep. unfold resolveEntity, pushOutAll. simpl fold_left.
    set (q := clampToWorld (setHp (hp p1 - 10) p1)).
    assert (Hq : pos q = mkVec2 0 1210).
    { unfold q, clampToWorld. simpl. rewrite Hpos1. simpl.
      unfold CANVAS_WIDTH, CANVAS_HEIGHT. rewrite !clamp_inside by lra. reflexivity. }
    assert (Hqr : radius q = 25) by exact Hrad1.
    assert (Hd : dist (pos q) (pos borderRock) = 50).
    { rewrite dist_eq, Hq. simpl. apply sqrt_of_square; lra. }
    repeat split.
    + rewrite (pushOut_overlap q borderRock 50 Hd) by (rewrite ?Hqr; simpl; lra).
      rewrite Hq, Hqr. simpl. lra.
    + destruct (pushOut_vitals q borderRock) as [-> _]. unfold q. simpl. lia.
    + exact Hover.
    + rewrite He. apply Forall_forall. intros e Hin. apply in_map_iff in Hin.
      destruct Hin as (e0 & <- & Hin0).
      destruct (resolveEntity_vitals (environment s') e0) as [-> _].
      specialize (Halive eq_refl). rewrite Forall_forall in Halive. auto.
  - rewrite dist_eq, Hpos1. simpl.
    rewrite (sqrt_of_square _ 30) by lra. lra.
  - simpl. lia.
Qed.

Lemma tick_bounds_witness :
  exists s' k',
    updatePhysics false false walkDown 0 (fun _ => 0) (fun _ => 0%nat) cornered 0
      = Some (s', k') /\
    clampedThenPushed (environment s') (player s') /\
    (hp (player s') <= maxHp (player s'))%Z.
Proof.
  destruct (cornered_tick 0 (fun _ => 0) (fun _ => 0%nat) 0) as (s' & k' & Hrun & _).
  exists s', k'. split; [exact Hrun|].
  destruct (tick_bounds false false walkDown 0 (fun _ => 0) (fun _ => 0%nat)
                        cornered s' 0%nat k' Hrun) as (Hp & _ & _ & _ & Hhp & _).
  split; [exact Hp|]. apply Hhp. simpl. lia.
Defined.

(** C2, refuted as worded: a well-formed solo state (everyone inside the
    world, every health within range, nobody overlapping a rock) whose tick,
    the player walking down the border, leaves the player outside the world
    rectangle, pushed out by a rock after the clamp, and with negative
    health after a bite. *)
Lemma tick_breaks_bounds :
  inWorld (pos (player cornered)) /\
  healthInRange (player cornered) /\
  Forall (fun e => inWorld (pos e) /\ healthInRange e) (enemies cornered) /\
  radius (player cornered) + radius borderRock
    <= dist (pos (player cornered)) (pos borderRock) /\
  radius bitingSnake + radius borderRock <= dist (pos bitingSnake) (pos borderRock) /\
  exists s' k',
    updatePhysics false false walkDown 0 (fun _ => 0) (fun _ => 0%nat) cornered 0
      = Some (s', k') /\
    ~ inWorld (pos (player s')) /\
    ~ healthInRange (player s').
Proof.
  split; [|split; [|split; [|split; [|split]]]].
  - unfold inWorld, CANVAS_WIDTH, CANVAS_HEIGHT; simpl. lra.
  - unfold healthInRange; simpl. lia.
  - repeat constructor; unfold CANVAS_WIDTH, CANVAS_HEIGHT; simpl; lra || lia.
  - rewrite dist_eq. simpl.
    rewrite <- (sqrt_square (25 + 30)) at 1 by lra. apply sqrt_le_1_alt. lra.
  - rewrite dist_eq. simpl.
    rewrite <- (sqrt_square (20 + 30)) at 1 by lra. apply sqrt_le_1_alt. lra.
  - destruct (cornered_tick 0 (fun _ => 0) (fun _ => 0%nat) 0)
      as (s' & k' & Hrun & Hx & Hhp & _).
    exists s', k'. split; [exact Hrun|]. split.
    + unfold inWorld. rewrite Hx. lra.
    + unfold healthInRange. rewrite Hhp. lia.
Qed.

(** ** The scheduler *)

Lemma gameLoop_continues (isMultiplayer isHost : bool) (conn : option bool) (c : Controls)
      (fuel : nat) (rng : Rng) (clock : nat -> nat) (s s1 : GameState) (hud : Hud)
      (k k1 : nat) :
  gameOver s = false ->
  updatePhysics isMultiplayer isHost c fuel rng clock s k = Some (s1, k1) ->
  exists fr,
    gameLoop isMultiplayer isHost conn c fuel rng clock s hud k = Some (fr, S k1) /\
    frameState fr = s1 /\ frameRendered fr = true /\ frameRequested fr = true /\
    gameOver s1 = false.
Proof.
  intros Hover Hrun. unfold gameLoop. rewrite Hover, Hrun.
  eexists. split; [reflexivity|]. simpl. repeat split.
  destruct (tick_intermediate _ _ _ _ _ _ _ _ _ _ Hrun) as (_ & _ & _ & _ & _ & -> & _).
  exact Hover.
Qed.

Lemma gameLoop_stopped (isMultiplayer isHost : bool) (conn : option bool) (c : Controls)
      (fuel : nat) (rng : Rng) (clock : nat -> nat) (s : GameState) (hud : Hud) (k : nat) :
  gameOver s = true ->
  gameLoop isMultiplayer isHost conn c fuel rng clock s hud k =
  Some (mkFrame s (mkHud (hudHp hud) (hudLevel hud) (hudXp hud) (hudMaxXp hud) true)
                [] false false, k).
Proof. intros Hover. unfold gameLoop. now rewrite Hover. Qed.

(** C1, evaluated on the code.  The frame in which the cornered player is
    bitten down to -5 health returns with the terminal flag still down and
    the next frame requested, and so does the frame after it (keys
    released): the flag is never raised.  A state whose flag is up is left untouched by [gameLoop],
    which then neither renders nor requests another frame. *)
Theorem death_leaves_flag_down :
  (exists fr k',
     gameLoop false false None walkDown 0 (fun _ => 0) (fun _ => 0%nat)
              cornered initialHud 0 = Some (fr, k') /\
     (hp (player (frameState fr)) <= 0)%Z /\
     gameOver (frameState fr) = false /\
     frameRequested fr = true /\
     exists fr2 k'',
       gameLoop false false None idleControls 0 (fun _ => 0) (fun _ => 0%nat)
                (frameState fr) (frameHud fr) k' = Some (fr2, k'') /\
       gameOver (frameState fr2) = false /\
       frameRequested fr2 = true) /\
  (forall isMultiplayer isHost conn c fuel rng clock s hud k,
     gameOver s = true ->
     exists fr,
       gameLoop isMultiplayer isHost conn c fuel rng clock s hud k = Some (fr, k) /\
       frameState fr = s /\ frameSent fr = [] /\
       frameRendered fr = false /\ frameRequested fr = false).
Proof.
  split.
  - destruct (cornered_tick 0 (fun _ => 0) (fun _ => 0%nat) 0)
      as (s1 & k1 & Hrun & _ & Hhp & Hover & Halive).
    destruct (gameLoop_continues false false None walkDown 0 (fun _ => 0)
                (fun _ => 0%nat) cornered s1 initialHud 0 k1 eq_refl Hrun)
      as (fr & Hloop & Hst & _ & Hreq & _).
    exists fr, (S k1). rewrite Hst. repeat split; auto; [lia|].
    destruct (updatePhysics_no_deaths false false idleControls 0 (fun _ => 0)
                (fun _ => 0%nat) s1 (S k1) Halive) as (s2 & k2 & Hrun2).
    destruct (gameLoop_continues false false None idleControls 0 (fun _ => 0)
                (fun _ => 0%nat) s1 s2 (frameHud fr) (S k1) k2 Hover Hrun2)
      as (fr2 & Hloop2 & Hst2 & _ & Hreq2 & Hover2).
    exists fr2, (S k2). rewrite Hst2. auto.
  - intros isMultiplayer isHost conn c fuel rng clock s hud k Hover.
    eexists. split; [now apply gameLoop_stopped|]. simpl. auto.
Qed.

Lemma death_leaves_flag_down_witness :
  exists fr,
    gameLoop false false None idleControls 0 (fun _ => 0) (fun _ => 0%nat)
             endedState initialHud 0 = Some (fr, 0%nat) /\
    frameState fr = endedState /\ frameSent fr = [] /\
    frameRendered fr = false /\ frameRequested fr = false.
Proof.
  apply (proj2 death_leaves_flag_down false false None idleControls 0%nat (fun _ => 0)
               (fun _ => 0%nat) endedState initialHud 0%nat).
  reflexivity.
Defined.

(** * Further properties of the engine *)

(** ** Generated entities *)

Lemma seededRandom_range (v : R) : 0 <= seededRandom v < 1.
Proof.
  unfold seededRandom, floor. cbv zeta.
  destruct (base_fp (sin v * 10000)) as [Hlo Hhi]. unfold frac_part in Hlo, Hhi. lra.
Qed.

Lemma streamEntity_wellPlaced (cur : R) (i : nat) :
  (i < 30)%nat -> wellPlaced (streamEntity cur i).
Proof.
  intros Hi. pose proof PI_RGT_0 as Hpi.
  assert (Hr : 0 <= INR i < 30).
  { split; [apply pos_INR|]. apply lt_INR in Hi. simpl in Hi. lra. }
  destruct (SIN_bound (INR i * 0.5 + cur)) as [Hs1 Hs2].
  unfold wellPlaced, inWorld, streamEntity, CANVAS_WIDTH, CANVAS_HEIGHT. simpl.
  repeat split; try lra.
  left. repeat split; lra.
Qed.

Lemma obstacleEntity_wellPlaced (i : nat) (a b r5 r0 r1 : R) (rock : bool) :
  0 <= a < 1 -> 0 <= b < 1 -> 0 <= r5 < 1 -> 0 <= r0 < 1 -> 0 <= r1 < 1 ->
  wellPlaced (obstacleEntity i (mkVec2 (a * CANVAS_WIDTH) (b * CANVAS_HEIGHT))
                             (r5 * PI * 2)
                             (if rock then 25 + r0 * 20 else 40 + r1 * 50) rock).
Proof.
  intros Ha Hb H5 H0 H1. pose proof PI_RGT_0 as Hpi.
  unfold wellPlaced, inWorld, obstacleEntity, CANVAS_WIDTH, CANVAS_HEIGHT. simpl.
  split; [lra|]. split; [nra|].
  destruct rock; [right; left | right; right]; repeat split; lra.
Qed.

Lemma obstacleStep_wellPlaced (g : GenState) (i : nat) :
  Forall wellPlaced (env g) -> Forall wellPlaced (env (obstacleStep g i)).
Proof.
  intros Hall. rewrite obstacleStep_eq.
  destruct (Rgtb _ _); cbn [env]; [|exact Hall].
  apply Forall_app. split; [exact Hall|]. constructor; [|constructor].
  unfold candidatePos. apply obstacleEntity_wellPlaced; apply seededRandom_range.
Qed.

Lemma obstacle_loop_wellPlaced (l : list nat) (g : GenState) :
  Forall wellPlaced (env g) -> Forall wellPlaced (env (fold_left obstacleStep l g)).
Proof.
  revert g; induction l as [|i l IH]; intros g Hall; simpl; [exact Hall|].
  apply IH. now apply obstacleStep_wellPlaced.
Qed.

(** X1. Whatever the seed, every entity of the generated environment lies
    inside the world rectangle and has a rotation in [0, 2 PI); a stream
    zone has radius 60 and lies between y = 850 and y = 1650, a rock has a
    radius in [25, 45) and a tree in [40, 90).  The first thirty entries are
    the stream zones, in the order of their index. *)
Theorem generated_entities_bounded (seed : R) (s : GameState) :
  Forall wellPlaced (environment (initWorld seed s)) /\
  firstn 30 (environment (initWorld seed s)) = map (streamEntity seed) (seq 0 30).
Proof.
  split.
  - change (environment (initWorld seed s)) with (env (generate seed)).
    unfold generate. cbv zeta.
    apply obstacle_loop_wellPlaced. rewrite stream_loop. cbn [env app].
    apply Forall_forall. intros e Hin. apply in_map_iff in Hin.
    destruct Hin as (i & <- & Hi). apply in_seq in Hi.
    apply streamEntity_wellPlaced. lia.
  - destruct (generate_env seed) as (added & Henv & _).
    change (environment (initWorld seed s)) with (env (generate seed)). rewrite Henv.
    rewrite firstn_app.
    replace (30 - List.length (map (streamEntity seed) (seq 0 30)))%nat with 0%nat
      by (rewrite length_map, length_seq; reflexivity).
    rewrite firstn_all2 by (rewrite length_map, length_seq; lia).
    apply app_nil_r.
Qed.

(** ** Spawning *)

Lemma retrySpawn_accepted (fuel : nat) (rng : Rng) (playerPos q q' : Vec2) (k k' : nat) :
  retrySpawn fuel rng playerPos q k = Some (q', k') ->
  rejected playerPos q' = false /\ (k <= k')%nat.
Proof.
  revert q k; induction fuel as [|fuel IH]; intros q k; simpl; [discriminate|].
  destruct (rejected playerPos q) eqn:Hrej.
  - intros Hrun. apply IH in Hrun. destruct Hrun; split; [assumption | lia].
  - intros [= <- <-]. auto.
Qed.

Lemma rejected_false (playerPos q : Vec2) :
  rejected playerPos q = false ->
  600 <= dist q playerPos /\ SPAWN_ZONE_RADIUS <= dist q SPAWN_ZONE_CENTER.
Proof.
  unfold rejected. intros Hrej. apply orb_false_iff in Hrej.
  destruct Hrej as [H1 H2]. apply Rltb_false in H1. apply Rltb_false in H2. auto.
Qed.

Lemma spawnLoop_spec (fuel : nat) (rng : Rng) (clock : nat -> nat) (idx : list nat)
      (s s' : GameState) (k k' : nat) :
  spawnLoop fuel rng clock idx s k = Some (s', k') ->
  exists new,
    enemies s' = enemies s ++ new /\
    List.length new = List.length idx /\
    Forall (freshSnake (pos (player s))) new /\
    (k + 2 * List.length idx <= k')%nat.
Proof.
  revert s k; induction idx as [|i rest IH]; intros s k; simpl.
  - intros [= <- <-]. exists []. rewrite app_nil_r. repeat split; auto. lia.
  - destruct (retrySpawn _ _ _ _ _) as [[q k1]|] eqn:Hretry; [|discriminate].
    intros Hrest. apply IH in Hrest. destruct Hrest as (new & Hen & Hlen & Hall & Hk).
    apply retrySpawn_accepted in Hretry. destruct Hretry as [Hacc Hk1].
    apply rejected_false in Hacc. destruct Hacc as [Hfar Hout].
    simpl in Hen, Hall.
    exists (newSnake (clock i) i q :: new).
    rewrite Hen, <- app_assoc. simpl. repeat split; auto; try lia.
    constructor; [|exact Hall]. unfold freshSnake. simpl. repeat split; auto.
Qed.

(** When no candidate is rejected each snake takes the first one. *)
Lemma spawnLoop_runs (fuel : nat) (rng : Rng) (clock : nat -> nat) (idx : list nat)
      (s : GameState) (k : nat) :
  (forall j, rejected (pos (player s)) (randomPos rng j) = false) ->
  exists s', spawnLoop (S fuel) rng clock idx s k = Some (s', (k + 2 * List.length idx)%nat).
Proof.
  intros Hacc. revert s k Hacc; induction idx as [|i rest IH]; intros s k Hacc.
  - simpl. rewrite Nat.add_0_r. eauto.
  - cbn [spawnLoop retrySpawn]. rewrite Hacc.
    destruct (IH (setEnemies (enemies s ++ [newSnake (clock i) i (randomPos rng k)]) s)
                 (k + 2)%nat Hacc) as [s' Hs'].
    exists s'. rewrite Hs'. f_equal. f_equal. simpl. lia.
Qed.

Lemma far_corner_accepted (j : nat) :
  rejected SPAWN_ZONE_CENTER (randomPos (fun _ => 0) j) = false.
Proof.
  unfold rejected, randomPos, CANVAS_WIDTH, CANVAS_HEIGHT, SPAWN_ZONE_RADIUS.
  assert (Hd : 600 <= dist (mkVec2 (0 * 2500) (0 * 2500)) SPAWN_ZONE_CENTER).
  { rewrite dist_eq. simpl.
    rewrite <- (sqrt_square 600) at 1 by lra. apply sqrt_le_1_alt. lra. }
  apply orb_false_iff. split; apply Rltb_false; lra.
Qed.

(** The spawn loop assigns to nothing but the hostile list. *)
Lemma spawnLoop_frame (fuel : nat) (rng : Rng) (clock : nat -> nat) (idx : list nat)
      (s s' : GameState) (k k' : nat) :
  spawnLoop fuel rng clock idx s k = Some (s', k') -> s' = setEnemies (enemies s') s.
Proof.
  revert s k; induction idx as [|i rest IH]; intros s k; simpl.
  - intros [= <- <-]. now destruct s.
  - destruct (retrySpawn _ _ _ _ _) as [[q k1]|]; [|discriminate].
    intros Hrest. apply IH in Hrest. rewrite Hrest. reflexivity.
Qed.

(** X2. When [spawnSnakes] returns it has pushed exactly [count] snakes
    behind the hostiles already there, each with 60 of 60 health, no
    cooldown, at 600 or more from the player and outside the sanctuary
    radius; it has consumed at least two draws per snake and touched nothing
    else: the state it leaves is the one it found with another hostile
    list, so player, friend, environment, score, terminal flag and camera
    are as before. *)
Theorem spawnSnakes_placement (fuel : nat) (rng : Rng) (clock : nat -> nat) (count : nat)
        (s s' : GameState) (k k' : nat) :
  spawnSnakes fuel rng clock count s k = Some (s', k') ->
  (exists new,
     enemies s' = enemies s ++ new /\
     List.length new = count /\
     Forall (freshSnake (pos (player s))) new) /\
  (k + 2 * count <= k')%nat /\
  player s' = player s /\ friend s' = friend s /\
  environment s' = environment s /\ gameOver s' = gameOver s /\
  score s' = score s /\ camera s' = camera s /\
  s' = setEnemies (enemies s') s.
Proof.
  unfold spawnSnakes. intros Hrun.
  destruct (spawnLoop_spec _ _ _ _ _ _ _ _ Hrun) as (new & Hen & Hlen & Hall & Hk).
  rewrite length_seq in Hlen, Hk.
  destruct (spawnLoop_fields _ _ _ _ _ _ _ _ Hrun) as (Hp & Hf & Henv & Hover).
  pose proof (spawnLoop_frame _ _ _ _ _ _ _ _ Hrun) as Hframe.
  split; [exists new; auto|].
  split; [exact Hk|]. split; [exact Hp|]. split; [exact Hf|].
  split; [exact Henv|]. split; [exact Hover|].
  split; [now rewrite Hframe|]. split; [now rewrite Hframe | exact Hframe].
Qed.

Lemma spawnSnakes_placement_witness :
  exists s' k',
    spawnSnakes 1 (fun _ => 0) (fun _ => 0%nat) 5 initialState 0 = Some (s', k') /\
    (exists new,
       enemies s' = enemies initialState ++ new /\
       List.length new = 5%nat /\
       Forall (freshSnake (pos (player initialState))) new).
Proof.
  destruct (spawnLoop_runs 0 (fun _ => 0) (fun _ => 0%nat) (seq 0 5) initialState 0
              far_corner_accepted) as [s' Hs'].
  exists s', (0 + 2 * List.length (seq 0 5))%nat. split; [exact Hs'|].
  apply (spawnSnakes_placement 1 (fun _ => 0) (fun _ => 0%nat) 5 initialState s' 0%nat
           (0 + 2 * List.length (seq 0 5))%nat Hs').
Defined.

Lemma retrySpawn_starved (fuel : nat) (rng : Rng) (playerPos q : Vec2) (k : nat) :
  (forall j, rejected playerPos (randomPos rng j) = true) ->
  rejected playerPos q = true ->
  retrySpawn fuel rng playerPos q k = None.
Proof.
  intros Hall. revert q k; induction fuel as [|fuel IH]; intros q k Hq; simpl; auto.
  rewrite Hq. apply IH. apply Hall.
Qed.

(** X3. The rejection loop of [spawnSnakes] has no bound of its own: on a
    random stream all of whose candidates are rejected (too close to the
    player or inside the sanctuary) a call that has to place at least one
    snake does not return, whatever the fuel. *)
Theorem spawnSnakes_starves (fuel : nat) (rng : Rng) (clock : nat -> nat) (count : nat)
        (s : GameState) (k : nat) :
  (forall j, rejected (pos (player s)) (randomPos rng j) = true) ->
  spawnSnakes fuel rng clock (S count) s k = None.
Proof.
  intros Hall. unfold spawnSnakes. cbn [seq spawnLoop].
  rewrite retrySpawn_starved; auto.
Qed.

Lemma spawnSnakes_starves_witness :
  spawnSnakes 1000 (fun _ => 0.5) (fun _ => 0%nat) 3 initialState 0 = None.
Proof.
  apply (spawnSnakes_starves 1000 (fun _ => 0.5) (fun _ => 0%nat) 2 initialState 0).
  intros j. unfold rejected, randomPos, CANVAS_WIDTH, CANVAS_HEIGHT.
  assert (Hd : dist (mkVec2 (0.5 * 2500) (0.5 * 2500)) SPAWN_ZONE_CENTER = 0).
  { rewrite dist_eq. simpl.
    replace (0.5 * 2500 - 1250) with 0 by lra. rewrite sqrt_axis; lra. }
  apply orb_true_iff. left. apply Rltb_true. simpl pos.
  change (pos (player initialState)) with SPAWN_ZONE_CENTER. rewrite Hd. lra.
Defined.

(** ** Hostiles across a tick *)

Lemma updateSnake_id (fr : option Entity) (snake p : Entity) :
  id (fst (updateSnake fr snake p)) = id snake.
Proof. unfold updateSnake. cbv zeta. repeat break_if; reflexivity. Qed.

Lemma updateSnakes_ids (fr : option Entity) (es : list Entity) (p : Entity) :
  map id (fst (updateSnakes fr es p)) = map id es.
Proof.
  revert p; induction es as [|snake rest IH]; intros p;
    cbn [updateSnakes fst snd map]; [reflexivity|].
  now rewrite updateSnake_id, IH.
Qed.

Lemma pushOut_id (ent rock : Entity) :
  id (pushOut ent rock) = id ent /\ radius (pushOut ent rock) = radius ent.
Proof. unfold pushOut. cbv zeta. break_if; auto. Qed.

Lemma pushOutAll_id (rocks : list Entity) (ent : Entity) :
  id (pushOutAll rocks ent) = id ent /\ radius (pushOutAll rocks ent) = radius ent.
Proof.
  unfold pushOutAll. revert ent; induction rocks as [|rock rest IH]; intros ent; simpl; auto.
  destruct (IH (pushOut ent rock)) as [-> ->]. apply pushOut_id.
Qed.

Lemma resolveEntity_id (environment : list Entity) (ent : Entity) :
  id (resolveEntity environment ent) = id ent.
Proof. unfold resolveEntity. now destruct (pushOutAll_id (filter isRock environment) (clampToWorld ent)) as [-> _]. Qed.

Lemma map_resolve_ids (environment : list Entity) (es : list Entity) :
  map id (map (resolveEntity environment) es) = map id es /\
  map hp (map (resolveEntity environment) es) = map hp es.
Proof.
  induction es as [|e es [IH1 IH2]]; simpl; [auto|].
  rewrite IH1, IH2, resolveEntity_id.
  now destruct (resolveEntity_vitals environment e) as [-> _].
Qed.

Lemma filter_alive_same (l1 l2 : list Entity) :
  map id l1 = map id l2 -> map hp l1 = map hp l2 ->
  map id (filter (fun e => (0 <? hp e)%Z) l1) = map id (filter (fun e => (0 <? hp e)%Z) l2) /\
  map hp (filter (fun e => (0 <? hp e)%Z) l1) = map hp (filter (fun e => (0 <? hp e)%Z) l2).
Proof.
  revert l2; induction l1 as [|e1 l1 IH]; intros [|e2 l2] Hid Hhp;
    simpl in *; try discriminate; auto.
  injection Hid as Hi Hid. injection Hhp as Hh Hhp.
  destruct (IH l2 Hid Hhp) as [I1 I2].
  rewrite Hh. destruct (0 <? hp e2)%Z; simpl; [|auto].
  rewrite Hi, Hh, I1, I2. auto.
Qed.

Lemma healPlayer_bounds (rng : Rng) (s : GameState) (k : nat) :
  (hp (player s) <= hp (player (fst (healPlayer rng s k))) <= hp (player s) + 1)%Z /\
  (k <= snd (healPlayer rng s k) <= k + 1)%nat /\
  score (fst (healPlayer rng s k)) = score s /\
  attackCooldown (player (fst (healPlayer rng s k))) = attackCooldown (player s) /\
  pos (player (fst (healPlayer rng s k))) = pos (player s).
Proof.
  unfold healPlayer. cbv zeta.
  destruct (nearStream s && (hp (player s) <? maxHp (player s))%Z) eqn:Hc.
  - apply andb_true_iff in Hc. destruct Hc as [_ Hlt]. apply Z.ltb_lt in Hlt.
    destruct (Rgtb (rng k) 0.9); simpl; repeat split; auto; lia.
  - simpl. repeat split; auto; lia.
Qed.

Lemma spawnLoop_score (fuel : nat) (rng : Rng) (clock : nat -> nat) (idx : list nat)
      (s s' : GameState) (k k' : nat) :
  spawnLoop fuel rng clock idx s k = Some (s', k') -> score s' = score s.
Proof.
  revert s k; induction idx as [|i rest IH]; intros s k; simpl.
  - now intros [= <- <-].
  - destruct (retrySpawn _ _ _ _ _) as [[q k1]|]; [|discriminate].
    intros Hrest. now apply IH in Hrest.
Qed.

Lemma enemyLogic_score (fuel : nat) (rng : Rng) (clock : nat -> nat)
      (s s' : GameState) (k k' : nat) :
  enemyLogic fuel rng clock s k = Some (s', k') -> score s' = score s.
Proof.
  unfold enemyLogic, spawnSnakes. cbv zeta. repeat break_if.
  - destruct (spawnLoop _ _ _ _ _ _) as [[s2 k2]|] eqn:Hsp; [|discriminate].
    intros [= <- <-]. apply spawnLoop_score in Hsp. exact Hsp.
  - now intros [= <- <-].
  - now intros [= <- <-].
Qed.

(** The hostiles after a completed tick, by identifier and health. *)
Lemma tick_hostiles (isMultiplayer isHost : bool) (c : Controls) (fuel : nat)
      (rng : Rng) (clock : nat -> nat) (s s' : GameState) (k k' : nat) :
  updatePhysics isMultiplayer isHost c fuel rng clock s k = Some (s', k') ->
  let kept := if negb isMultiplayer || isHost
              then filter (fun e => (0 <? hp e)%Z) (enemies s) else enemies s in
  map id (enemies s') = map id kept /\ map hp (enemies s') = map hp kept /\
  score s' = score s.
Proof.
  intros Hrun.
  destruct (updatePhysics_fields _ _ _ _ _ _ _ _ _ _ Hrun)
    as (s3 & Hs3 & _ & He & _ & _ & _).
  assert (Hsc : score s' = score s3).
  { revert Hrun. unfold updatePhysics. cbv zeta.
    destruct (negb isMultiplayer || isHost).
    - rewrite Hs3. intros Heq. injection Heq as <-. reflexivity.
    - subst s3. intros Heq. injection Heq as <- _. reflexivity. }
  set (p1 := tickCooldown (movePlayer c (player s))) in *.
  destruct (healPlayer_fields rng (setPlayer p1 s) k) as (_ & Fe & _).
  destruct (healPlayer_bounds rng (setPlayer p1 s) k) as (_ & _ & Fs & _).
  simpl in Fe, Fs.
  destruct (map_resolve_ids (environment s3) (enemies s3)) as [Rid Rhp].
  rewrite He, Rid, Rhp, Hsc. cbv zeta.
  destruct (negb isMultiplayer || isHost).
  - destruct (enemyLogic_fields _ _ _ _ _ _ _ Hs3) as (_ & Ee & _).
    apply enemyLogic_score in Hs3.
    destruct (updateSnakes_fields
                (friend (fst (healPlayer rng (setPlayer p1 s) k)))
                (enemies (fst (healPlayer rng (setPlayer p1 s) k)))
                (player (fst (healPlayer rng (setPlayer p1 s) k)))) as (Uhp & _).
    pose proof (updateSnakes_ids
                (friend (fst (healPlayer rng (setPlayer p1 s) k)))
                (enemies (fst (healPlayer rng (setPlayer p1 s) k)))
                (player (fst (healPlayer rng (setPlayer p1 s) k)))) as Uid.
    rewrite Fe in Uhp, Uid, Ee. rewrite Ee, Hs3, Fs.
    destruct (filter_alive_same _ _ Uid Uhp) as [-> ->]. auto.
  - subst s3. rewrite Fe, Fs. auto.
Qed.

Lemma filter_length_le {A : Type} (f : A -> bool) (l : list A) :
  (List.length (filter f l) <= List.length l)%nat.
Proof. induction l as [|a l IH]; simpl; [lia|]. destruct (f a); simpl; lia. Qed.

Lemma movePlayer_idle (p : Entity) : movePlayer idleControls p = setWalkCycle 0 p.
Proof. unfold movePlayer. simpl. now rewrite Reqb_refl. Qed.

(** A tick returns as soon as no spawn candidate is rejected. *)
Lemma updatePhysics_returns (isMultiplayer isHost : bool) (c : Controls) (fuel : nat)
      (rng : Rng) (clock : nat -> nat) (s : GameState) (k : nat) :
  (forall j, rejected (pos (movePlayer c (player s))) (randomPos rng j) = false) ->
  exists s' k',
    updatePhysics isMultiplayer isHost c (S fuel) rng clock s k = Some (s', k').
Proof.
  intros Hacc. unfold updatePhysics. cbv zeta.
  set (p1 := tickCooldown (movePlayer c (player s))).
  destruct (healPlayer_bounds rng (setPlayer p1 s) k) as (_ & _ & _ & _ & Hpos).
  simpl in Hpos.
  set (h := healPlayer rng (setPlayer p1 s) k) in *.
  destruct (negb isMultiplayer || isHost); [|eauto].
  unfold enemyLogic, spawnSnakes. cbv zeta.
  set (r := updateSnakes (friend (fst h)) (enemies (fst h)) (player (fst h))).
  repeat break_if; eauto.
  destruct (spawnLoop_runs fuel rng clock (seq 0 3)
              (setPlayer (snd r) (setEnemies (fst r) (fst h))) (snd h)) as [s2 Hs2].
  - intros j. simpl. unfold r.
    destruct (updateSnakes_fields (friend (fst h)) (enemies (fst h)) (player (fst h)))
      as (_ & _ & _ & _ & ->).
    rewrite Hpos. unfold p1.
    destruct (tickCooldown_vitals (movePlayer c (player s))) as (_ & _ & ->). apply Hacc.
  - rewrite Hs2. eauto.
Qed.

(** X4. A completed tick never adds a hostile.  On the authority the list
    afterwards holds, in order, exactly the hostiles that had positive
    health before, with that health (the snakes a respawn pushes land on the
    array that is dropped right after); elsewhere it holds the same hostiles
    as before.  The score is never changed by a tick. *)
Theorem tick_never_adds_hostile (isMultiplayer isHost : bool) (c : Controls) (fuel : nat)
        (rng : Rng) (clock : nat -> nat) (s s' : GameState) (k k' : nat) :
  updatePhysics isMultiplayer isHost c fuel rng clock s k = Some (s', k') ->
  map id (enemies s') =
    map id (if negb isMultiplayer || isHost
            then filter (fun e => (0 <? hp e)%Z) (enemies s) else enemies s) /\
  map hp (enemies s') =
    map hp (if negb isMultiplayer || isHost
            then filter (fun e => (0 <? hp e)%Z) (enemies s) else enemies s) /\
  (List.length (enemies s') <= List.length (enemies s))%nat /\
  score s' = score s.
Proof.
  intros Hrun. destruct (tick_hostiles _ _ _ _ _ _ _ _ _ _ Hrun) as (Hid & Hhp & Hsc).
  cbv zeta in Hid, Hhp. repeat split; auto.
  apply (f_equal (@List.length _)) in Hid. rewrite !length_map in Hid. rewrite Hid.
  destruct (negb isMultiplayer || isHost); [apply filter_length_le | lia].
Qed.

Lemma tick_never_adds_hostile_witness :
  exists s' k',
    updatePhysics false false idleControls 1 (fun _ => 0) (fun _ => 0%nat) graveyard 0
      = Some (s', k') /\
    enemies s' = [].
Proof.
  destruct (updatePhysics_returns false false idleControls 0 (fun _ => 0) (fun _ => 0%nat)
              graveyard 0) as (s' & k' & Hrun).
  { intros j. rewrite movePlayer_idle. apply far_corner_accepted. }
  exists s', k'. split; [exact Hrun|].
  destruct (tick_never_adds_hostile false false idleControls 1 (fun _ => 0)
              (fun _ => 0%nat) graveyard s' 0%nat k' Hrun) as (Hid & _).
  simpl in Hid. now destruct (enemies s').
Defined.

(** X5. On a non-authority peer a tick always returns, whatever the fuel: it
    runs no hostile AI and no respawn.  It leaves each hostile where clamp
    and rock push-out take it, with its health, takes no health from the
    player (who gains at most 1, from a stream) and draws at most one random
    number. *)
Theorem peer_tick_runs_no_ai (c : Controls) (fuel : nat) (rng : Rng) (clock : nat -> nat)
        (s : GameState) (k : nat) :
  exists s' k',
    updatePhysics true false c fuel rng clock s k = Some (s', k') /\
    enemies s' = map (resolveEntity (environment s)) (enemies s) /\
    map hp (enemies s') = map hp (enemies s) /\
    (hp (player s) <= hp (player s') <= hp (player s) + 1)%Z /\
    (k <= k' <= k + 1)%nat.
Proof.
  unfold updatePhysics. cbv zeta.
  change (negb true || false) with false. cbv iota.
  set (p1 := tickCooldown (movePlayer c (player s))).
  destruct (healPlayer_fields rng (setPlayer p1 s) k) as (_ & Fe & Fenv & _).
  destruct (healPlayer_bounds rng (setPlayer p1 s) k) as (Hhp & Hk & _).
  simpl in Fe, Fenv, Hhp.
  assert (Hp1 : hp p1 = hp (player s)).
  { unfold p1. destruct (tickCooldown_vitals (movePlayer c (player s))) as (-> & _).
    apply movePlayer_vitals. }
  rewrite Hp1 in Hhp.
  eexists. eexists. split; [reflexivity|]. simpl.
  rewrite Fe, Fenv. split; [reflexivity|].
  split; [apply map_resolve_ids|].
  destruct (resolveEntity_vitals (environment s)
              (player (fst (healPlayer rng (setPlayer p1 s) k)))) as [-> _].
  auto.
Qed.

(** ** Attacks, cooldown and experience *)

Lemma gainXp_stance (amount : Z) (p : Entity) :
  attackCooldown (gainXp amount p) = attackCooldown p /\
  isAttacking (gainXp amount p) = isAttacking p /\
  id (gainXp amount p) = id p.
Proof. unfold gainXp. repeat break_if; auto. Qed.

Lemma attackEnemy_keeps (fuel : nat) (damage : Z) (enemy p enemy' p' : Entity) :
  attackEnemy fuel damage enemy p = Some (enemy', p') ->
  attackCooldown p' = attackCooldown p /\ isAttacking p' = isAttacking p /\
  id enemy' = id enemy /\ radius enemy' = radius enemy /\ maxHp enemy' = maxHp enemy.
Proof.
  unfold attackEnemy. cbv zeta.
  destruct (Rltb _ attackRange); [|intros [= <- <-]; repeat split].
  destruct (normalizeAngle _ _); [|discriminate].
  destruct (Rltb _ attackAngle); [|intros [= <- <-]; repeat split].
  destruct (_ && _)%bool; intros [= <- <-]; simpl; repeat split;
    apply (gainXp_stance 10 p).
Qed.

Lemma attackAll_keeps (fuel : nat) (damage : Z) (es es' : list Entity) (p p' : Entity) :
  attackAll fuel damage es p = Some (es', p') ->
  attackCooldown p' = attackCooldown p /\ isAttacking p' = isAttacking p /\
  pos p' = pos p /\ rotation p' = rotation p /\ map id es' = map id es.
Proof.
  revert es' p; induction es as [|e0 rest IH]; intros es' p; simpl.
  - intros [= <- <-]. repeat split.
  - destruct (attackEnemy fuel damage e0 p) as [[e0' p1]|] eqn:Hhead; [|discriminate].
    destruct (attackAll fuel damage rest p1) as [[rest' p2]|] eqn:Hrest; [|discriminate].
    intros [= <- <-].
    destruct (IH _ _ Hrest) as (I1 & I2 & I3 & I4 & I5).
    destruct (attackEnemy_keeps _ _ _ _ _ _ Hhead) as (K1 & K2 & K3 & _).
    destruct (attackEnemy_player _ _ _ _ _ _ Hhead) as (P1 & P2).
    simpl. rewrite I1, I2, I3, I4, I5, K1, K2, K3, P1, P2. repeat split.
Qed.

(** The sample attack, evaluated: with fuel 1 it returns and keeps the snake
    at index 0. *)
Lemma duel_attack_runs (h : Z) :
  exists s1 e1,
    handleAttack 1 (duel 1 h) = Some s1 /\ nth_error (enemies s1) 0 = Some e1.
Proof.
  unfold handleAttack. simpl gameOver. cbv iota.
  change (attackCooldown (player (duel 1 h)) <=? 0)%Z with true. cbv iota.
  destruct (attackEnemy_hit 1 12 (nearbySnake h)
              (setAttackCooldown 25 (setIsAttacking true (duelist 1))) 0)
    as (e' & p' & Hhit & _).
  - change (attackDistance (setAttackCooldown 25 (setIsAttacking true (duelist 1)))
                           (nearbySnake h))
      with (attackDistance (turnedPlayer 0) (nearbySnake h)).
    rewrite sample_distance. unfold attackRange. lra.
  - change (rawAngleDiff (setAttackCooldown 25 (setIsAttacking true (duelist 1)))
                         (nearbySnake h))
      with (rawAngleDiff (turnedPlayer 0) (nearbySnake h)).
    rewrite sample_rawAngleDiff. replace (- 0) with 0 by lra.
    apply normalizeAngle_fixed. pose proof PI_RGT_0. lra.
  - rewrite Rabs_R0. unfold attackAngle. lra.
  - change (attackDamage (setAttackCooldown 25 (setIsAttacking true (player (duel 1 h)))))
      with 12%Z.
    change (enemies (duel 1 h)) with [nearbySnake h].
    change (player (duel 1 h)) with (duelist 1).
    cbn [attackAll]. rewrite Hhit. eexists. eexists. split; reflexivity.
Qed.

(** X6. [handleAttack] is gated.  During a game over or a running cooldown
    it changes nothing.  Otherwise, when it returns, the player is flagged
    as attacking with a cooldown of 25, stands and faces as before, the
    hostiles are the same ones in the same order, and a second call right
    away changes nothing. *)
Theorem handleAttack_gated (fuel fuel' : nat) (s s1 : GameState) :
  ((gameOver s = true \/ (0 < attackCooldown (player s))%Z) ->
     handleAttack fuel s = Some s) /\
  (gameOver s = false -> (attackCooldown (player s) <= 0)%Z ->
   handleAttack fuel s = Some s1 ->
     attackCooldown (player s1) = 25%Z /\
     isAttacking (player s1) = true /\
     pos (player s1) = pos (player s) /\
     rotation (player s1) = rotation (player s) /\
     map id (enemies s1) = map id (enemies s) /\
     handleAttack fuel' s1 = Some s1).
Proof.
  split.
  - intros [Hover | Hcd]; unfold handleAttack.
    + now rewrite Hover.
    + destruct (gameOver s); [reflexivity|].
      apply Z.leb_gt in Hcd. now rewrite Hcd.
  - intros Hover Hcd Hrun. unfold handleAttack in Hrun. rewrite Hover in Hrun.
    apply Z.leb_le in Hcd. rewrite Hcd in Hrun.
    destruct (attackAll _ _ _ _) as [[es p2]|] eqn:Hall; [|discriminate].
    injection Hrun as <-.
    destruct (attackAll_keeps _ _ _ _ _ _ Hall) as (K1 & K2 & K3 & K4 & K5).
    simpl in K1, K2, K3, K4. simpl.
    repeat split; auto.
    unfold handleAttack. simpl. rewrite Hover, K1. reflexivity.
Qed.

Lemma handleAttack_gated_witness :
  handleAttack 3 endedState = Some endedState /\
  exists s1,
    handleAttack 1 (duel 1 60) = Some s1 /\
    attackCooldown (player s1) = 25%Z /\ handleAttack 0 s1 = Some s1.
Proof.
  split.
  - apply (proj1 (handleAttack_gated 3 0 endedState endedState)). left. reflexivity.
  - destruct (duel_attack_runs 60) as (s1 & _ & Hrun & _).
    exists s1. split; [exact Hrun|].
    destruct (proj2 (handleAttack_gated 1 0 (duel 1 60) s1) eq_refl ltac:(simpl; lia) Hrun)
      as (H1 & _ & _ & _ & _ & H6).
    auto.
Defined.

Lemma tickCooldown_step (p : Entity) :
  (0 <= attackCooldown p)%Z ->
  attackCooldown (tickCooldown p) = Z.max 0 (attackCooldown p - 1) /\
  ((1 < attackCooldown p)%Z \/ attackCooldown p = 0%Z ->
     isAttacking (tickCooldown p) = isAttacking p) /\
  (attackCooldown p = 1%Z -> isAttacking (tickCooldown p) = false).
Proof.
  intros Hpos. unfold tickCooldown.
  destruct (0 <? attackCooldown p)%Z eqn:Hc.
  - apply Z.ltb_lt in Hc. simpl.
    destruct (attackCooldown p - 1 <=? 0)%Z eqn:Hd; simpl.
    + apply Z.leb_le in Hd. repeat split; lia.
    + apply Z.leb_gt in Hd. repeat split; try lia.
  - apply Z.ltb_ge in Hc. repeat split; try lia.
Qed.

Lemma tickCooldown_iter (n : nat) (p : Entity) :
  (0 <= attackCooldown p)%Z ->
  attackCooldown (Nat.iter n tickCooldown p) = Z.max 0 (attackCooldown p - Z.of_nat n) /\
  ((Z.of_nat n < attackCooldown p)%Z \/ attackCooldown p = 0%Z ->
     isAttacking (Nat.iter n tickCooldown p) = isAttacking p) /\
  ((0 < attackCooldown p <= Z.of_nat n)%Z ->
     isAttacking (Nat.iter n tickCooldown p) = false).
Proof.
  intros Hpos. induction n as [|n (IH1 & IH2 & IH3)].
  - simpl. repeat split; try lia.
  - rewrite Nat.iter_succ.
    assert (Hq : (0 <= attackCooldown (Nat.iter n tickCooldown p))%Z) by lia.
    destruct (tickCooldown_step _ Hq) as (S1 & S2 & S3).
    rewrite S1, IH1. repeat split; try lia.
    + intros Hlt. rewrite S2; [apply IH2|]; rewrite ?IH1; lia.
    + intros Hle.
      destruct (Z.eq_dec (attackCooldown p) (Z.of_nat (S n))) as [Heq | Hne].
      * apply S3. rewrite IH1. lia.
      * rewrite S2; [apply IH3; lia | rewrite IH1; lia].
Qed.

Lemma movePlayer_flags (c : Controls) (p : Entity) :
  isAttacking (movePlayer c p) = isAttacking p.
Proof.
  unfold movePlayer. cbv zeta.
  match goal with |- context [isAttacking (if ?b then _ else _)] => destruct b end;
    reflexivity.
Qed.

Lemma tickCooldown_after_move (c : Controls) (p : Entity) :
  attackCooldown (tickCooldown (movePlayer c p)) = attackCooldown (tickCooldown p) /\
  isAttacking (tickCooldown (movePlayer c p)) = isAttacking (tickCooldown p).
Proof.
  destruct (movePlayer_rest c p) as [_ Hcd]. pose proof (movePlayer_flags c p) as Hfl.
  unfold tickCooldown. rewrite Hcd.
  destruct (0 <? attackCooldown p)%Z; simpl; [|auto].
  destruct (attackCooldown p - 1 <=? 0)%Z; simpl; auto.
Qed.

Lemma healPlayer_flags (rng : Rng) (s : GameState) (k : nat) :
  isAttacking (player (fst (healPlayer rng s k))) = isAttacking (player s).
Proof. unfold healPlayer. cbv zeta. repeat break_if; reflexivity. Qed.

Lemma updateSnake_player_flags (fr : option Entity) (snake p : Entity) :
  attackCooldown (snd (updateSnake fr snake p)) = attackCooldown p /\
  isAttacking (snd (updateSnake fr snake p)) = isAttacking p.
Proof. unfold updateSnake. cbv zeta. repeat break_if; auto. Qed.

Lemma updateSnakes_player_flags (fr : option Entity) (es : list Entity) (p : Entity) :
  attackCooldown (snd (updateSnakes fr es p)) = attackCooldown p /\
  isAttacking (snd (updateSnakes fr es p)) = isAttacking p.
Proof.
  revert p; induction es as [|snake rest IH]; intros p;
    cbn [updateSnakes fst snd]; [auto|].
  destruct (IH (snd (updateSnake fr snake p))) as [-> ->].
  apply updateSnake_player_flags.
Qed.

Lemma pushOutAll_flags (rocks : list Entity) (ent : Entity) :
  attackCooldown (pushOutAll rocks ent) = attackCooldown ent /\
  isAttacking (pushOutAll rocks ent) = isAttacking ent.
Proof.
  unfold pushOutAll. revert ent; induction rocks as [|rock rest IH]; intros ent; simpl; auto.
  destruct (IH (pushOut ent rock)) as [-> ->].
  unfold pushOut. cbv zeta. break_if; auto.
Qed.

(** The player's cooldown and attack flag after a completed tick. *)
Lemma tick_cooldown (isMultiplayer isHost : bool) (c : Controls) (fuel : nat)
      (rng : Rng) (clock : nat -> nat) (s s' : GameState) (k k' : nat) :
  updatePhysics isMultiplayer isHost c fuel rng clock s k = Some (s', k') ->
  attackCooldown (player s') = attackCooldown (tickCooldown (player s)) /\
  isAttacking (player s') = isAttacking (tickCooldown (player s)).
Proof.
  intros Hrun.
  destruct (updatePhysics_fields _ _ _ _ _ _ _ _ _ _ Hrun) as (s3 & Hs3 & Hp & _).
  set (p1 := tickCooldown (movePlayer c (player s))) in *.
  destruct (healPlayer_bounds rng (setPlayer p1 s) k) as (_ & _ & _ & Hcd & _).
  pose proof (healPlayer_flags rng (setPlayer p1 s) k) as Hfl.
  simpl in Hcd, Hfl.
  destruct (tickCooldown_after_move c (player s)) as [M1 M2]. fold p1 in M1, M2.
  rewrite Hp. unfold resolveEntity.
  destruct (pushOutAll_flags (filter isRock (environment s3)) (clampToWorld (player s3)))
    as [-> ->]. simpl.
  destruct (negb isMultiplayer || isHost).
  - destruct (enemyLogic_fields _ _ _ _ _ _ _ Hs3) as (-> & _).
    destruct (updateSnakes_player_flags
                (friend (fst (healPlayer rng (setPlayer p1 s) k)))
                (enemies (fst (healPlayer rng (setPlayer p1 s) k)))
                (player (fst (healPlayer rng (setPlayer p1 s) k)))) as [-> ->].
    rewrite Hcd, Hfl, M1, M2. auto.
  - subst s3. rewrite Hcd, Hfl, M1, M2. auto.
Qed.

(** X7. The attack cooldown counts ticks.  A completed tick applies exactly
    one cooldown step to the player, whatever else happens in it; and [n]
    steps take a cooldown [c >= 0] to [max 0 (c - n)], keeping the attack
    flag as long as the cooldown has not run out and clearing it once it
    has: after an attack (cooldown 25) the flag stays for 24 ticks and the
    next attack is possible after 25. *)
Theorem cooldown_counts_ticks (isMultiplayer isHost : bool) (c : Controls) (fuel : nat)
        (rng : Rng) (clock : nat -> nat) (s s' : GameState) (k k' : nat)
        (n : nat) (p : Entity) :
  (updatePhysics isMultiplayer isHost c fuel rng clock s k = Some (s', k') ->
     attackCooldown (player s') = attackCooldown (tickCooldown (player s)) /\
     isAttacking (player s') = isAttacking (tickCooldown (player s))) /\
  ((0 <= attackCooldown p)%Z ->
     attackCooldown (Nat.iter n tickCooldown p) = Z.max 0 (attackCooldown p - Z.of_nat n) /\
     ((Z.of_nat n < attackCooldown p)%Z ->
        isAttacking (Nat.iter n tickCooldown p) = isAttacking p) /\
     ((0 < attackCooldown p <= Z.of_nat n)%Z ->
        isAttacking (Nat.iter n tickCooldown p) = false)).
Proof.
  split; [apply tick_cooldown|].
  intros Hpos. destruct (tickCooldown_iter n p Hpos) as (H1 & H2 & H3).
  repeat split; auto.
Qed.

Lemma cooldown_counts_ticks_witness :
  attackCooldown
    (Nat.iter 24 tickCooldown (setAttackCooldown 25 (setIsAttacking true initialPlayer)))
    = 1%Z /\
  isAttacking
    (Nat.iter 24 tickCooldown (setAttackCooldown 25 (setIsAttacking true initialPlayer)))
    = true /\
  isAttacking
    (Nat.iter 25 tickCooldown (setAttackCooldown 25 (setIsAttacking true initialPlayer)))
    = false.
Proof.
  destruct (proj2 (cooldown_counts_ticks false false idleControls 0 (fun _ => 0)
                     (fun _ => 0%nat) initialState initialState 0 0 24
                     (setAttackCooldown 25 (setIsAttacking true initialPlayer)))
                  ltac:(simpl; lia)) as (H1 & H2 & _).
  destruct (proj2 (cooldown_counts_ticks false false idleControls 0 (fun _ => 0)
                     (fun _ => 0%nat) initialState initialState 0 0 25
                     (setAttackCooldown 25 (setIsAttacking true initialPlayer)))
                  ltac:(simpl; lia)) as (_ & _ & H3).
  split; [rewrite H1; reflexivity|]. split.
  - rewrite H2; [reflexivity | simpl; lia].
  - apply H3. simpl. lia.
Defined.

Lemma attackEnemy_hit_pos (fuel : nat) (damage : Z) (enemy p enemy' p' : Entity) (a : R) :
  attackDistance p enemy < attackRange ->
  normalizeAngle fuel (rawAngleDiff p enemy) = Some a ->
  Rabs a < attackAngle ->
  attackEnemy fuel damage enemy p = Some (enemy', p') ->
  pos enemy' =
    mkVec2 (x (pos enemy) +
            cos (atan2 (y (pos enemy) - y (pos p)) (x (pos enemy) - x (pos p))) * 40)
           (y (pos enemy) +
            sin (atan2 (y (pos enemy) - y (pos p)) (x (pos enemy) - x (pos p))) * 40).
Proof.
  intros Hnear Hnorm Hin. apply Rltb_true in Hnear. apply Rltb_true in Hin.
  unfold attackEnemy. unfold attackDistance in Hnear. unfold rawAngleDiff in Hnorm.
  cbv zeta. rewrite Hnear, Hnorm, Hin.
  destruct (_ && _)%bool; intros [= <- _]; reflexivity.
Qed.

(** X8. A melee hit knocks the hostile straight away from the player: its
    distance from the player grows by exactly 40, its identifier, radius and
    maximum health stay.  A hostile at or beyond the attack range is left
    exactly as it was. *)
Theorem melee_knockback (fuel : nat) (s s' : GameState) (i : nat) (enemy enemy' : Entity) :
  gameOver s = false ->
  (attackCooldown (player s) <= 0)%Z ->
  nth_error (enemies s) i = Some enemy ->
  handleAttack fuel s = Some s' ->
  nth_error (enemies s') i = Some enemy' ->
  (inReach (player s) enemy ->
     dist (pos enemy') (pos (player s)) = dist (pos enemy) (pos (player s)) + 40 /\
     id enemy' = id enemy /\ radius enemy' = radius enemy /\ maxHp enemy' = maxHp enemy) /\
  (attackRange <= attackDistance (player s) enemy -> enemy' = enemy).
Proof.
  intros Hover Hcd Hnth Hrun Hnth'.
  unfold handleAttack in Hrun. rewrite Hover in Hrun.
  apply Z.leb_le in Hcd. rewrite Hcd in Hrun.
  destruct (attackAll _ _ _ _) as [[es p2]|] eqn:Hall; [|discriminate].
  injection Hrun as <-. simpl in Hnth'.
  destruct (attackAll_nth _ _ _ _ _ _ _ _ Hall Hnth) as (e' & pa & pb & H1 & H2 & H3 & H4).
  assert (e' = enemy') by congruence. subst e'.
  simpl in H3, H4.
  split.
  - intros Hreach.
    assert (Hreach' : inReach pa enemy) by (apply (inReach_same_stance (player s)); auto).
    destruct Hreach' as (Hnear & f0 & a & Hnorm & Hin).
    destruct (attackEnemy_keeps _ _ _ _ _ _ H2) as (_ & _ & K3 & K4 & K5).
    split; [|auto].
    destruct (normalizeAngle fuel (rawAngleDiff pa enemy)) as [a'|] eqn:Hnorm'.
    + rewrite (normalizeAngle_agree _ _ _ _ _ Hnorm' Hnorm) in Hnorm'.
      rewrite (attackEnemy_hit_pos _ _ _ _ _ _ a Hnear Hnorm' Hin H2).
      rewrite H3, move_along.
      apply Rabs_right. pose proof (dist_nonneg (pos enemy) (pos (player s))). lra.
    + unfold attackEnemy in H2. cbv zeta in H2.
      unfold attackDistance in Hnear. apply Rltb_true in Hnear.
      unfold rawAngleDiff in Hnorm'. rewrite Hnear, Hnorm' in H2. discriminate.
  - intros Hfar.
    assert (Hfar' : attackRange <= attackDistance pa enemy).
    { unfold attackDistance in *. now rewrite H3. }
    rewrite (attackEnemy_out_of_range fuel _ enemy pa Hfar') in H2. congruence.
Qed.

Lemma melee_knockback_witness :
  exists s' enemy',
    handleAttack 1 (duel 1 60) = Some s' /\
    nth_error (enemies s') 0 = Some enemy' /\
    dist (pos enemy') (pos (player (duel 1 60)))
      = dist (pos (nearbySnake 60)) (pos (player (duel 1 60))) + 40.
Proof.
  destruct (duel_attack_runs 60) as (s1 & e1 & Hrun & He1).
  exists s1, e1. split; [exact Hrun|]. split; [exact He1|].
  apply (melee_knockback 1 (duel 1 60) s1 0 (nearbySnake 60) e1 eq_refl
           ltac:(simpl; lia) eq_refl Hrun He1).
  apply duel_inReach.
Defined.

Lemma attackEnemy_award (fuel : nat) (damage : Z) (enemy p enemy' p' : Entity) :
  attackEnemy fuel damage enemy p = Some (enemy', p') ->
  ((hp enemy <= 0)%Z -> p' = p) /\
  ((0 < hp enemy')%Z -> p' = p) /\
  ((0 < hp enemy)%Z -> (hp enemy' <= 0)%Z -> p' = gainXp 10 p).
Proof.
  unfold attackEnemy. cbv zeta.
  destruct (Rltb _ attackRange); [|intros [= <- <-]; repeat split; auto; lia].
  destruct (normalizeAngle _ _); [|discriminate].
  destruct (Rltb _ attackAngle); [|intros [= <- <-]; repeat split; auto; lia].
  simpl hp.
  destruct ((hp enemy - damage <=? 0)%Z && (0 <? hp enemy - damage + damage)%Z) eqn:Hc;
    intros [= <- <-]; simpl.
  - apply andb_true_iff in Hc. destruct Hc as [H1 H2].
    apply Z.leb_le in H1. apply Z.ltb_lt in H2. repeat split; auto; lia.
  - apply andb_false_iff in Hc.
    repeat split; auto. intros H1 H2.
    destruct Hc as [Hc | Hc]; [apply Z.leb_gt in Hc | apply Z.ltb_ge in Hc]; lia.
Qed.

(** X9. Experience is awarded for the killing blow only.  In the body of
    the attack loop the player is unchanged when the hostile was already at
    0 health or below (a corpse still listed on a non-authority peer) and
    when the hostile survives; it gains 10 experience exactly when the
    hostile goes from positive health to 0 or below.  An attack on hostiles
    that are all dead already leaves the player as it entered the loop. *)
Theorem xp_for_the_killing_blow (fuel : nat) (damage : Z) (enemy p enemy' p' : Entity)
        (es es' : list Entity) (q q' : Entity) :
  (attackEnemy fuel damage enemy p = Some (enemy', p') ->
     ((hp enemy <= 0)%Z -> p' = p) /\
     ((0 < hp enemy')%Z -> p' = p) /\
     ((0 < hp enemy)%Z -> (hp enemy' <= 0)%Z -> p' = gainXp 10 p)) /\
  (Forall (fun e => (hp e <= 0)%Z) es ->
   attackAll fuel damage es q = Some (es', q') -> q' = q).
Proof.
  split; [apply attackEnemy_award|].
  revert es' q. induction es as [|e0 rest IH]; intros es' q Hdead; simpl.
  - now intros [= _ <-].
  - destruct (attackEnemy fuel damage e0 q) as [[e0' q1]|] eqn:Hhead; [|discriminate].
    destruct (attackAll fuel damage rest q1) as [[rest' q2]|] eqn:Hrest; [|discriminate].
    intros [= _ <-]. inversion Hdead; subst.
    destruct (attackEnemy_award _ _ _ _ _ _ Hhead) as (Hc & _).
    rewrite (IH _ _ H2 Hrest). now apply Hc.
Qed.

Lemma xp_for_the_killing_blow_witness :
  exists enemy' p',
    attackEnemy 1 12 (nearbySnake 12) (turnedPlayer 0) = Some (enemy', p') /\
    p' = gainXp 10 (turnedPlayer 0).
Proof.
  pose proof PI_RGT_0 as Hpi.
  destruct (attackEnemy_hit 1 12 (nearbySnake 12) (turnedPlayer 0) 0)
    as (e' & p' & Hhit & Hhp).
  - rewrite sample_distance. unfold attackRange. lra.
  - rewrite sample_rawAngleDiff. replace (- 0) with 0 by lra.
    apply normalizeAngle_fixed. lra.
  - rewrite Rabs_R0. unfold attackAngle. lra.
  - exists e', p'. split; [exact Hhit|].
    apply (proj1 (xp_for_the_killing_blow 1 12 (nearbySnake 12) (turnedPlayer 0) e' p'
                    [] [] p' p') Hhit).
    + simpl. lia.
    + rewrite Hhp. simpl. lia.
Defined.

(** One more gain, field by field, for a player below level 2 whose
    experience fields are set. *)
Lemma gainXp_below (a x m : Z) (p : Entity) :
  level p = Some 1%Z -> xp p = Some x -> maxXp p = Some m -> (0 < m)%Z ->
  maxXp (gainXp a p) = Some m /\ maxHp (gainXp a p) = maxHp p /\
  ((x + a < m)%Z ->
     level (gainXp a p) = Some 1%Z /\ xp (gainXp a p) = Some (x + a)%Z /\
     hp (gainXp a p) = hp p) /\
  ((m <= x + a)%Z ->
     level (gainXp a p) = Some 2%Z /\ xp (gainXp a p) = Some m /\
     hp (gainXp a p) = maxHp p).
Proof.
  intros Hl Hx Hm Hpos. unfold gainXp. rewrite Hl. simpl orDefault. cbv iota.
  change (2 <=? 1)%Z with false. cbv iota. simpl maxXp. rewrite Hx, Hm.
  assert (Hx0 : orDefault (Some x) 0 = x).
  { unfold orDefault. destruct (Z.eqb_spec x 0); congruence. }
  assert (Hm0 : orDefault (Some m) 100 = m).
  { unfold orDefault. destruct (Z.eqb_spec m 0); [lia | reflexivity]. }
  rewrite Hx0, Hm0.
  destruct (m <=? x + a)%Z eqn:Hc; simpl.
  - apply Z.leb_le in Hc. repeat split; auto; lia.
  - apply Z.leb_gt in Hc. repeat split; auto; lia.
Qed.

Lemma gainXp_capped (a : Z) (p : Entity) :
  level p = Some 2%Z -> gainXp a p = p.
Proof. intros Hl. unfold gainXp. now rewrite Hl. Qed.

Lemma gainXp_iter (a x m : Z) (n : nat) (p : Entity) :
  level p = Some 1%Z -> xp p = Some x -> maxXp p = Some m ->
  (0 < m)%Z -> (x < m)%Z -> (0 <= a)%Z ->
  maxXp (Nat.iter n (gainXp a) p) = Some m /\
  maxHp (Nat.iter n (gainXp a) p) = maxHp p /\
  ((x + Z.of_nat n * a < m)%Z ->
     level (Nat.iter n (gainXp a) p) = Some 1%Z /\
     xp (Nat.iter n (gainXp a) p) = Some (x + Z.of_nat n * a)%Z /\
     hp (Nat.iter n (gainXp a) p) = hp p) /\
  ((m <= x + Z.of_nat n * a)%Z ->
     level (Nat.iter n (gainXp a) p) = Some 2%Z /\
     xp (Nat.iter n (gainXp a) p) = Some m /\
     hp (Nat.iter n (gainXp a) p) = maxHp p).
Proof.
  intros Hl Hx Hm Hpos Hlt Ha. induction n as [|n (I1 & I2 & I3 & I4)].
  - simpl. repeat split; auto; try lia. replace (x + 0)%Z with x by lia. exact Hx.
  - rewrite Nat.iter_succ. set (q := Nat.iter n (gainXp a) p) in *.
    destruct (Z.lt_ge_cases (x + Z.of_nat n * a) m) as [Hbelow | Habove].
    + destruct (I3 Hbelow) as (Q1 & Q2 & Q3).
      destruct (gainXp_below a (x + Z.of_nat n * a) m q Q1 Q2 I1 Hpos)
        as (G1 & G2 & G3 & G4).
      replace (x + Z.of_nat (S n) * a)%Z with (x + Z.of_nat n * a + a)%Z by lia.
      split; [exact G1|]. split; [congruence|]. split.
      * intros H. destruct (G3 H) as (? & ? & ?). repeat split; congruence.
      * intros H. destruct (G4 H) as (? & ? & ?). repeat split; congruence.
    + destruct (I4 Habove) as (Q1 & Q2 & Q3).
      rewrite (gainXp_capped a q Q1).
      split; [exact I1|]. split; [exact I2|]. split; [nia|].
      intros _. auto.
Qed.

(** X10. Levelling by repeated gains.  For a level-1 player with experience
    [x] below its threshold [m], after [n] gains of [a >= 0] the player is
    at level 2 exactly when [x + n a >= m]; until then the experience is
    [x + n a] and health is untouched, from then on the experience is [m],
    health was restored to the maximum, and nothing changes any more. *)
Theorem gains_to_level_up (a x m : Z) (n : nat) (p : Entity) :
  level p = Some 1%Z -> xp p = Some x -> maxXp p = Some m ->
  (0 < m)%Z -> (x < m)%Z -> (0 <= a)%Z ->
  (level (Nat.iter n (gainXp a) p) = Some 2%Z <-> (m <= x + Z.of_nat n * a)%Z) /\
  ((x + Z.of_nat n * a < m)%Z ->
     xp (Nat.iter n (gainXp a) p) = Some (x + Z.of_nat n * a)%Z /\
     hp (Nat.iter n (gainXp a) p) = hp p) /\
  ((m <= x + Z.of_nat n * a)%Z ->
     xp (Nat.iter n (gainXp a) p) = Some m /\
     hp (Nat.iter n (gainXp a) p) = maxHp p /\
     gainXp a (Nat.iter n (gainXp a) p) = Nat.iter n (gainXp a) p).
Proof.
  intros Hl Hx Hm Hpos Hlt Ha.
  destruct (gainXp_iter a x m n p Hl Hx Hm Hpos Hlt Ha) as (I1 & I2 & I3 & I4).
  split; [|split].
  - split.
    + intros H2. destruct (Z.lt_ge_cases (x + Z.of_nat n * a) m) as [Hb | Hb]; [|exact Hb].
      destruct (I3 Hb) as (Q1 & _). congruence.
    + intros Hb. now destruct (I4 Hb).
  - intros Hb. destruct (I3 Hb) as (_ & Q2 & Q3). auto.
  - intros Hb. destruct (I4 Hb) as (Q1 & Q2 & Q3). repeat split; auto.
    now apply gainXp_capped.
Qed.

Lemma gains_to_level_up_witness :
  level (Nat.iter 10 (gainXp 10) initialPlayer) = Some 2%Z /\
  xp (Nat.iter 9 (gainXp 10) initialPlayer) = Some 90%Z.
Proof.
  split.
  - apply (proj1 (gains_to_level_up 10 0 100 10 initialPlayer eq_refl eq_refl eq_refl
                    ltac:(lia) ltac:(lia) ltac:(lia))). simpl. lia.
  - apply (proj1 (proj2 (gains_to_level_up 10 0 100 9 initialPlayer eq_refl eq_refl eq_refl
                           ltac:(lia) ltac:(lia) ltac:(lia)))). simpl. lia.
Defined.

(** ** Input and movement *)

Lemma unit_step (a b dx dy : R) :
  dx <> 0 \/ dy <> 0 ->
  dist (mkVec2 (a + dx / sqrt (dx * dx + dy * dy) * 7)
               (b + dy / sqrt (dx * dx + dy * dy) * 7)) (mkVec2 a b) = 7.
Proof.
  intros Hnz. pose proof (norm_pos dx dy Hnz) as Hr.
  assert (Hsq : sqrt (dx * dx + dy * dy) * sqrt (dx * dx + dy * dy) = dx * dx + dy * dy)
    by (apply sqrt_sqrt; nra).
  rewrite dist_eq. simpl. set (r := sqrt (dx * dx + dy * dy)) in *.
  apply sqrt_of_square; [lra|].
  transitivity ((dx * dx + dy * dy) * 49 / (r * r)).
  - field. lra.
  - rewrite <- Hsq. field. lra.
Qed.

Lemma Reqb_false (a b : R) : Reqb a b = false <-> a <> b.
Proof. unfold Reqb; destruct (Req_dec_T a b); split; intros; congruence. Qed.

(** [movePlayer] for an effective input [(dx, dy)]. *)
Lemma movePlayer_moving (p : Entity) (dx dy : R) (moved : Entity) :
  dx <> 0 \/ dy <> 0 ->
  moved = setRotation (atan2 dy dx)
            (setWalkCycle (walkCycle p + 0.3)
               (setPos (mkVec2 (x (pos p) + dx / sqrt (dx * dx + dy * dy) * 7)
                               (y (pos p) + dy / sqrt (dx * dx + dy * dy) * 7)) p)) ->
  dist (pos moved) (pos p) = 7 /\ walkCycle moved = walkCycle p + 0.3 /\
  rotation moved = atan2 dy dx.
Proof.
  intros Hnz ->. simpl. split; [|auto].
  destruct (pos p) as [a b]. simpl. now apply unit_step.
Qed.

Lemma movePlayer_cases (c : Controls) (p : Entity) :
  exists dx dy,
    (joystickActive c = true -> dx = joystickDx c /\ dy = joystickDy c) /\
    (joystickActive c = false ->
       (keys c "KeyS" = true -> dy = 1) /\ (keys c "KeyD" = true -> dx = 1)) /\
    ((dx = 0 /\ dy = 0 /\ movePlayer c p = setWalkCycle 0 p) \/
     ((dx <> 0 \/ dy <> 0) /\
      movePlayer c p =
        setRotation (atan2 dy dx)
          (setWalkCycle (walkCycle p + 0.3)
             (setPos (mkVec2 (x (pos p) + dx / sqrt (dx * dx + dy * dy) * 7)
                             (y (pos p) + dy / sqrt (dx * dx + dy * dy) * 7)) p)))).
Proof.
  unfold movePlayer. cbv zeta.
  match goal with
  | |- context [negb (Reqb ?a 0) || negb (Reqb ?b 0)] => set (dx := a); set (dy := b)
  end.
  exists dx, dy. split; [|split].
  - intros Hact. unfold dx, dy. now rewrite Hact.
  - intros Hact. unfold dx, dy. rewrite Hact. split; intros Hk; rewrite Hk; reflexivity.
  - destruct (Reqb dx 0) eqn:Hx; destruct (Reqb dy 0) eqn:Hy; simpl.
    + apply Reqb_true in Hx. apply Reqb_true in Hy. left. auto.
    + apply Reqb_false in Hy. right. auto.
    + apply Reqb_false in Hx. right. auto.
    + apply Reqb_false in Hx. right. auto.
Qed.

(** X11. The player moves at a fixed speed.  Whatever the keys and the
    joystick say, one input step either leaves the player in place with its
    gait phase reset to 0, or moves it by exactly 7 units and advances the
    gait phase by 0.3: diagonal keys and joystick deflection do not change
    the speed.  An active joystick with a non-zero vector always moves the
    player and turns it along that vector; an active joystick at rest keeps
    the player still whatever keys are held; without joystick, S (held with
    or without W) moves the player down and D (with or without A) moves it
    right. *)
Theorem movePlayer_speed (c : Controls) (p : Entity) :
  ((pos (movePlayer c p) = pos p /\ walkCycle (movePlayer c p) = 0 /\
    rotation (movePlayer c p) = rotation p) \/
   (dist (pos (movePlayer c p)) (pos p) = 7 /\
    walkCycle (movePlayer c p) = walkCycle p + 0.3)) /\
  (joystickActive c = true -> joystickDx c <> 0 \/ joystickDy c <> 0 ->
     dist (pos (movePlayer c p)) (pos p) = 7 /\
     rotation (movePlayer c p) = atan2 (joystickDy c) (joystickDx c)) /\
  (joystickActive c = true -> joystickDx c = 0 -> joystickDy c = 0 ->
     pos (movePlayer c p) = pos p) /\
  (joystickActive c = false -> keys c "KeyS" = true ->
     y (pos p) < y (pos (movePlayer c p))) /\
  (joystickActive c = false -> keys c "KeyD" = true ->
     x (pos p) < x (pos (movePlayer c p))).
Proof.
  destruct (movePlayer_cases c p) as (dx & dy & Hjoy & Hkeys & Hcase).
  assert (Hgrow : forall u v, u <> 0 \/ v <> 0 -> 0 < v ->
                              0 < v / sqrt (u * u + v * v) * 7).
  { intros u v Hnz Hv. pose proof (norm_pos u v Hnz).
    apply Rmult_lt_0_compat; [|lra]. now apply Rdiv_lt_0_compat. }
  split; [|split; [|split; [|split]]].
  - destruct Hcase as [(_ & _ & ->) | (Hnz & Hmv)]; [left; simpl; auto|].
    right. destruct (movePlayer_moving p dx dy _ Hnz Hmv) as (H1 & H2 & _). auto.
  - intros Hact Hnz. destruct (Hjoy Hact) as [-> ->].
    destruct Hcase as [(H1 & H2 & _) | (_ & Hmv)]; [destruct Hnz; contradiction|].
    destruct (movePlayer_moving p _ _ _ Hnz Hmv) as (H1 & _ & H3). auto.
  - intros Hact H0x H0y. destruct (Hjoy Hact) as [-> ->].
    destruct Hcase as [(_ & _ & ->) | ([Hnz | Hnz] & _)]; [reflexivity | | ]; contradiction.
  - intros Hact Hs. destruct (Hkeys Hact) as [Hdy _]. specialize (Hdy Hs). subst dy.
    destruct Hcase as [(_ & H1 & _) | (Hnz & ->)]; [lra|]. simpl.
    pose proof (Hgrow dx 1 Hnz ltac:(lra)). lra.
  - intros Hact Hd. destruct (Hkeys Hact) as [_ Hdx]. specialize (Hdx Hd). subst dx.
    destruct Hcase as [(H1 & _ & _) | (Hnz & ->)]; [lra|]. simpl.
    assert (Hnz' : dy <> 0 \/ 1 <> 0) by (right; lra).
    pose proof (Hgrow dy 1 Hnz' ltac:(lra)) as Hpos.
    replace (1 * 1 + dy * dy) with (dy * dy + 1 * 1) by ring. lra.
Qed.

Lemma movePlayer_speed_witness :
  y (pos initialPlayer) < y (pos (movePlayer walkDown initialPlayer)) /\
  pos (movePlayer (mkControls (fun _ => true) true 0 0) initialPlayer) = pos initialPlayer.
Proof.
  split.
  - apply (movePlayer_speed walkDown initialPlayer); reflexivity.
  - apply (movePlayer_speed (mkControls (fun _ => true) true 0 0) initialPlayer);
      reflexivity.
Defined.

Lemma atan2_scale (k b a : R) : 0 < k -> atan2 (k * b) (k * a) = atan2 b a.
Proof.
  intros Hk. unfold atan2.
  destruct (Rlt_dec 0 a) as [Ha | Ha].
  - destruct (Rlt_dec 0 (k * a)) as [_ | Hn]; [|exfalso; apply Hn; nra].
    f_equal. field. lra.
  - destruct (Rlt_dec 0 (k * a)) as [Hp | _]; [exfalso; nra|].
    destruct (Rlt_dec a 0) as [Ha' | Ha'].
    + destruct (Rlt_dec (k * a) 0) as [_ | Hn]; [|exfalso; apply Hn; nra].
      replace (k * b / (k * a)) with (b / a) by (field; lra).
      destruct (Rle_dec 0 b) as [Hb | Hb].
      * destruct (Rle_dec 0 (k * b)) as [_ | Hn]; [reflexivity | exfalso; apply Hn; nra].
      * destruct (Rle_dec 0 (k * b)) as [Hp | _]; [exfalso; nra | reflexivity].
    + destruct (Rlt_dec (k * a) 0) as [Hp | _]; [exfalso; nra|].
      destruct (Rlt_dec 0 b) as [Hb | Hb].
      * destruct (Rlt_dec 0 (k * b)) as [_ | Hn]; [reflexivity | exfalso; apply Hn; nra].
      * destruct (Rlt_dec 0 (k * b)) as [Hp | _]; [exfalso; nra|].
        destruct (Rlt_dec b 0) as [Hb' | Hb'].
        -- destruct (Rlt_dec (k * b) 0) as [_ | Hn]; [reflexivity | exfalso; apply Hn; nra].
        -- destruct (Rlt_dec (k * b) 0) as [Hp | _]; [exfalso; nra | reflexivity].
Qed.

(** The joystick vector after a touch: the offset scaled by [k], which is 1
    within 40 units of the centre and brings the length to 40 beyond. *)
Lemma joystick_scaled (rect : Rect) (touch : Vec2) (c : Controls) :
  exists k,
    0 < k <= 1 /\
    joystickDx (handleJoyTouchMove (Some rect) touch c) = k * touchDx rect touch /\
    joystickDy (handleJoyTouchMove (Some rect) touch c) = k * touchDy rect touch /\
    k * sqrt (touchDx rect touch * touchDx rect touch + touchDy rect touch * touchDy rect touch)
      = Rmin (sqrt (touchDx rect touch * touchDx rect touch +
                    touchDy rect touch * touchDy rect touch)) 40.
Proof.
  unfold handleJoyTouchMove. cbv zeta. fold (touchDx rect touch) (touchDy rect touch).
  set (dx := touchDx rect touch). set (dy := touchDy rect touch).
  set (d := sqrt (dx * dx + dy * dy)). simpl.
  destruct (Rgtb d 40) eqn:Hc.
  - apply Rgtb_true in Hc. exists (40 / d).
    assert (Hd : 0 < d) by lra.
    split; [|split; [|split]].
    + split; [apply Rdiv_lt_0_compat; lra|].
      apply (Rmult_le_reg_r d); [lra|]. unfold Rdiv. rewrite Rmult_assoc, Rinv_l by lra. lra.
    + field. lra.
    + field. lra.
    + rewrite Rmin_right by lra. field. lra.
  - apply Rgtb_false in Hc. exists 1.
    split; [lra|]. split; [lra|]. split; [lra|]. rewrite Rmin_left by lra. lra.
Qed.

Lemma scaled_length (k a b : R) :
  0 <= k -> sqrt ((k * a) * (k * a) + (k * b) * (k * b)) = k * sqrt (a * a + b * b).
Proof.
  intros Hk.
  replace ((k * a) * (k * a) + (k * b) * (k * b)) with ((k * k) * (a * a + b * b)) by ring.
  rewrite sqrt_mult by nra. now rewrite sqrt_square.
Qed.

(** X12. The virtual joystick.  A touch move sets the joystick vector to
    the offset of the touch from the centre of the base, shortened to
    length 40 when it is longer (its length is the smaller of the two), and
    leaves keys and the active flag alone; without a base element a touch
    move changes nothing.  After a touch start off the centre the next input
    step moves the player by 7 units and turns it toward the touch; after a
    touch end the joystick is inactive with a zero vector.  A touch start
    without a base element is not ignored: it sets the active flag and
    keeps the vector, and with a zero vector the next input step leaves the
    player where it is whatever keys are held. *)
Theorem joystick_vector (rect : Rect) (touch : Vec2) (c : Controls) (p : Entity) :
  sqrt (joystickDx (handleJoyTouchMove (Some rect) touch c) *
        joystickDx (handleJoyTouchMove (Some rect) touch c) +
        joystickDy (handleJoyTouchMove (Some rect) touch c) *
        joystickDy (handleJoyTouchMove (Some rect) touch c))
    = Rmin (sqrt (touchDx rect touch * touchDx rect touch +
                  touchDy rect touch * touchDy rect touch)) 40 /\
  keys (handleJoyTouchMove (Some rect) touch c) = keys c /\
  joystickActive (handleJoyTouchMove (Some rect) touch c) = joystickActive c /\
  handleJoyTouchMove None touch c = c /\
  (touchDx rect touch <> 0 \/ touchDy rect touch <> 0 ->
     dist (pos (movePlayer (handleJoyTouchStart (Some rect) touch c) p)) (pos p) = 7 /\
     rotation (movePlayer (handleJoyTouchStart (Some rect) touch c) p)
       = atan2 (touchDy rect touch) (touchDx rect touch)) /\
  handleJoyTouchEnd (handleJoyTouchStart (Some rect) touch c)
    = mkControls (keys c) false 0 0 /\
  handleJoyTouchStart None touch c
    = mkControls (keys c) true (joystickDx c) (joystickDy c) /\
  (joystickDx c = 0 -> joystickDy c = 0 ->
     pos (movePlayer (handleJoyTouchStart None touch c) p) = pos p /\
     walkCycle (movePlayer (handleJoyTouchStart None touch c) p) = 0).
Proof.
  split; [|split; [|split; [|split; [|split; [|split; [|split]]]]]]; try reflexivity.
  - destruct (joystick_scaled rect touch c) as (k & Hk & -> & -> & Hlen).
    rewrite scaled_length by lra. exact Hlen.
  - intros Hnz.
    set (c1 := handleJoyTouchStart (Some rect) touch c).
    destruct (joystick_scaled rect touch (mkControls (keys c) true (joystickDx c)
                                                     (joystickDy c)))
      as (k & Hk & Hx & Hy & _).
    fold (handleJoyTouchStart (Some rect) touch c) in Hx, Hy. fold c1 in Hx, Hy.
    destruct (movePlayer_cases c1 p) as (dx & dy & Hjoy & _ & Hcase).
    destruct (Hjoy eq_refl) as [Hdx Hdy]. rewrite Hx in Hdx. rewrite Hy in Hdy.
    assert (Hnz' : dx <> 0 \/ dy <> 0).
    { subst dx dy. destruct Hnz as [H | H]; [left | right]; nra. }
    destruct Hcase as [(H1 & H2 & _) | (_ & Hmv)]; [destruct Hnz'; contradiction|].
    destruct (movePlayer_moving p dx dy _ Hnz' Hmv) as (M1 & _ & M3).
    split; [exact M1|]. rewrite M3. subst dx dy. apply atan2_scale. lra.
  - intros Hx Hy.
    destruct (movePlayer_cases (handleJoyTouchStart None touch c) p)
      as (dx & dy & Hjoy & _ & Hcase).
    destruct (Hjoy eq_refl) as [Hdx Hdy]. cbn [handleJoyTouchStart handleJoyTouchMove
      joystickDx joystickDy] in Hdx, Hdy. rewrite Hx in Hdx. rewrite Hy in Hdy.
    destruct Hcase as [(_ & _ & ->) | ([Hn | Hn] & _)]; [auto | contradiction | contradiction].
Qed.

Lemma joystick_vector_witness :
  dist (pos (movePlayer (handleJoyTouchStart (Some (mkRect 0 0 100 100)) (mkVec2 250 50)
                                             idleControls) initialPlayer))
       (pos initialPlayer) = 7.
Proof.
  apply (joystick_vector (mkRect 0 0 100 100) (mkVec2 250 50) idleControls initialPlayer).
  left. unfold touchDx. simpl. lra.
Defined.

(** ** Collisions *)

(** X13. Push-out resolves the overlap with the rock it handles.  An entity
    closer to a rock than the sum of the radii is moved to exactly that
    distance from the rock's centre; one that is not is left as it is; so
    after [pushOut] the entity never overlaps that rock.  Over a list of
    rocks this holds for the last rock handled. *)
Theorem pushOut_clears (ent rock : Entity) (rocks : list Entity) :
  (dist (pos ent) (pos rock) < radius ent + radius rock ->
     dist (pos (pushOut ent rock)) (pos rock) = radius ent + radius rock) /\
  (radius ent + radius rock <= dist (pos ent) (pos rock) -> pushOut ent rock = ent) /\
  radius ent + radius rock <= dist (pos (pushOut ent rock)) (pos rock) /\
  radius ent + radius rock
    <= dist (pos (pushOutAll (rocks ++ [rock]) ent)) (pos rock).
Proof.
  assert (Hnear : forall e, dist (pos e) (pos rock) < radius e + radius rock ->
                            dist (pos (pushOut e rock)) (pos rock) = radius e + radius rock).
  { intros e Hlt. unfold pushOut. cbv zeta.
    assert (Hc : Rltb (dist (pos e) (pos rock)) (radius e + radius rock) = true)
      by now apply Rltb_true.
    rewrite Hc. simpl. rewrite move_along.
    pose proof (dist_nonneg (pos e) (pos rock)). rewrite Rabs_right; lra. }
  assert (Hfar : forall e, radius e + radius rock <= dist (pos e) (pos rock) ->
                           pushOut e rock = e).
  { intros e Hge. unfold pushOut. cbv zeta.
    assert (Hc : Rltb (dist (pos e) (pos rock)) (radius e + radius rock) = false)
      by now apply Rltb_false.
    now rewrite Hc. }
  assert (Hclear : forall e, radius e + radius rock
                             <= dist (pos (pushOut e rock)) (pos rock)).
  { intros e. destruct (Rlt_dec (dist (pos e) (pos rock)) (radius e + radius rock)) as [H | H].
    - rewrite (Hnear e H). lra.
    - rewrite (Hfar e); lra. }
  split; [apply Hnear|]. split; [apply Hfar|]. split; [apply Hclear|].
  unfold pushOutAll. rewrite fold_left_app. simpl.
  fold (pushOutAll rocks ent).
  destruct (pushOutAll_id rocks ent) as [_ Hr]. rewrite <- Hr. apply Hclear.
Qed.

Lemma pushOut_clears_witness :
  dist (pos (pushOut (clampToWorld (setPos (mkVec2 0 1210) corneredPlayer)) borderRock))
       (pos borderRock)
    = radius (clampToWorld (setPos (mkVec2 0 1210) corneredPlayer)) + radius borderRock.
Proof.
  apply (pushOut_clears (clampToWorld (setPos (mkVec2 0 1210) corneredPlayer))
                        borderRock []).
  rewrite dist_eq. simpl. unfold CANVAS_WIDTH, CANVAS_HEIGHT.
  rewrite !clamp_inside by lra.
  rewrite (sqrt_of_square _ 50) by lra. lra.
Defined.

Lemma clamp_coordinate (v b : R) :
  0 <= b ->
  0 <= Rmax 0 (Rmin b v) <= b /\
  (0 <= v <= b -> Rmax 0 (Rmin b v) = v) /\
  (forall q, 0 <= q <= b ->
     (Rmax 0 (Rmin b v) - v) * (Rmax 0 (Rmin b v) - v) <= (q - v) * (q - v)).
Proof.
  intros Hb.
  assert (Hc : (v < 0 /\ Rmax 0 (Rmin b v) = 0) \/
               (0 <= v <= b /\ Rmax 0 (Rmin b v) = v) \/
               (b < v /\ Rmax 0 (Rmin b v) = b)).
  { destruct (Rlt_dec v 0) as [H | H].
    - left. split; [exact H|]. rewrite Rmin_right, Rmax_left; lra.
    - right. destruct (Rle_dec v b) as [H' | H'].
      + left. split; [lra|]. rewrite Rmin_right, Rmax_right; lra.
      + right. split; [lra|]. rewrite Rmin_left, Rmax_right; lra. }
  destruct Hc as [[H ->] | [[H ->] | [H ->]]].
  - split; [lra|]. split; [intros; lra|]. intros q Hq. nra.
  - split; [lra|]. split; [reflexivity|]. intros q Hq.
    pose proof (Rle_0_sqr (q - v)) as Hs. unfold Rsqr in Hs. lra.
  - split; [lra|]. split; [intros; lra|]. intros q Hq. nra.
Qed.

(** X14. The world-bound clamp is a projection onto the world rectangle: its
    result lies in the rectangle, it leaves an entity inside the rectangle
    untouched, applying it twice is applying it once, and no point of the
    rectangle is nearer to where the entity was. *)
Theorem clampToWorld_projects (ent : Entity) (q : Vec2) :
  inWorld (pos (clampToWorld ent)) /\
  (inWorld (pos ent) -> clampToWorld ent = ent) /\
  clampToWorld (clampToWorld ent) = clampToWorld ent /\
  (inWorld q -> dist (pos (clampToWorld ent)) (pos ent) <= dist q (pos ent)).
Proof.
  assert (HW : 0 <= CANVAS_WIDTH) by (unfold CANVAS_WIDTH; lra).
  assert (HH : 0 <= CANVAS_HEIGHT) by (unfold CANVAS_HEIGHT; lra).
  destruct (clamp_coordinate (x (pos ent)) CANVAS_WIDTH HW) as (X1 & X2 & X3).
  destruct (clamp_coordinate (y (pos ent)) CANVAS_HEIGHT HH) as (Y1 & Y2 & Y3).
  assert (Hid : forall e, inWorld (pos e) -> clampToWorld e = e).
  { intros e [Hx Hy]. unfold clampToWorld.
    destruct (clamp_coordinate (x (pos e)) CANVAS_WIDTH HW) as (_ & Ex & _).
    destruct (clamp_coordinate (y (pos e)) CANVAS_HEIGHT HH) as (_ & Ey & _).
    rewrite (Ex Hx), (Ey Hy).
    destruct e as [i [a b] v r rad t h mh ia ac wc col l xp0 mx]. reflexivity. }
  assert (Hin : inWorld (pos (clampToWorld ent))) by apply clampToWorld_inWorld.
  split; [exact Hin|]. split; [apply Hid|]. split; [now apply Hid|].
  intros [Hqx Hqy]. rewrite !dist_eq. simpl. apply sqrt_le_1_alt.
  specialize (X3 _ Hqx). specialize (Y3 _ Hqy). lra.
Qed.

Lemma clampToWorld_projects_witness :
  clampToWorld initialPlayer = initialPlayer /\
  dist (pos (clampToWorld (setPos (mkVec2 (-3) 1206) initialPlayer))) (mkVec2 (-3) 1206)
    <= dist (mkVec2 0 0) (mkVec2 (-3) 1206).
Proof.
  split.
  - apply (clampToWorld_projects initialPlayer (mkVec2 0 0)).
    unfold inWorld, CANVAS_WIDTH, CANVAS_HEIGHT. simpl. lra.
  - apply (clampToWorld_projects (setPos (mkVec2 (-3) 1206) initialPlayer) (mkVec2 0 0)).
    unfold inWorld, CANVAS_WIDTH, CANVAS_HEIGHT. simpl. lra.
Defined.

(** ** Snake bites *)

Lemma updateSnake_bite_cases (fr : option Entity) (snake p : Entity) :
  snd (updateSnake fr snake p) = p \/
  (snd (updateSnake fr snake p) = setHp (hp p - 10)%Z p /\
   attackCooldown (fst (updateSnake fr snake p)) = 59%Z /\
   isAttacking (fst (updateSnake fr snake p)) = true /\
   (attackCooldown snake <= 0)%Z /\
   dist (pos snake) (pos p) < 35 /\
   (forall f, fr = Some f -> dist (pos snake) (pos p) <= dist (pos snake) (pos f))).
Proof.
  unfold updateSnake. cbv zeta.
  destruct (Rltb (snd (chooseTarget fr snake p)) 800) eqn:H800; [|left; reflexivity].
  destruct (Rltb (snd (chooseTarget fr snake p)) 35) eqn:H35; [|left; reflexivity].
  cbn [setWalkCycle setPos setRotation attackCooldown andb].
  destruct (attackCooldown snake <=? 0)%Z eqn:Hcd; [|left; reflexivity].
  cbn [fst snd].
  destruct (snd (fst (chooseTarget fr snake p))) eqn:Ht; [|left; reflexivity].
  right. apply Rltb_true in H35. apply Z.leb_le in Hcd.
  assert (Hsel : snd (chooseTarget fr snake p) = dist (pos snake) (pos p) /\
                 forall f, fr = Some f -> dist (pos snake) (pos p) <= dist (pos snake) (pos f)).
  { revert Ht. unfold chooseTarget. cbv zeta. destruct fr as [f|].
    - destruct (Rltb (dist (pos snake) (pos f)) (dist (pos snake) (pos p))) eqn:Hc;
        cbn [fst snd]; intros Hsel; [discriminate Hsel|].
      apply Rltb_false in Hc. split; [reflexivity|]. intros f' [= <-]. exact Hc.
    - simpl. intros _. split; [reflexivity | intros f' [=]]. }
  destruct Hsel as [Hd Hf]. rewrite Hd in H35.
  repeat split; auto.
Qed.

Lemma updateSnake_cooling (fr : option Entity) (snake p : Entity) :
  (0 < attackCooldown snake)%Z ->
  snd (updateSnake fr snake p) = p /\
  attackCooldown (fst (updateSnake fr snake p)) = (attackCooldown snake - 1)%Z.
Proof.
  intros Hcd.
  assert (H1 : (attackCooldown snake <=? 0)%Z = false) by (apply Z.leb_gt; lia).
  assert (H2 : (0 <? attackCooldown snake)%Z = true) by (apply Z.ltb_lt; lia).
  unfold updateSnake. cbv zeta.
  destruct (Rltb (snd (chooseTarget fr snake p)) 800).
  - cbn [setWalkCycle setPos setRotation attackCooldown]. rewrite H1, andb_false_r.
    cbn [fst snd setWalkCycle setPos setRotation attackCooldown]. rewrite H2. auto.
  - cbn [fst snd]. rewrite H2. auto.
Qed.

(** X15. How often and whom the snakes bite.  In one pass over the hostiles
    the player loses 10 health per biting snake and nothing else, so at most
    10 times their number.  A snake whose cooldown is running does not bite
    and its cooldown goes down by one; a snake that did bite leaves the
    pass with cooldown 59 and the attacking flag up, and it stood closer
    than 35 to the player with no running cooldown.  When a friend is
    strictly nearer to every snake than the player is, or every snake is at
    35 or more from the player, the player is not touched. *)
Theorem snake_bite_rate (fr : option Entity) (es : list Entity) (p : Entity) :
  (hp p - 10 * Z.of_nat (List.length es) <= hp (snd (updateSnakes fr es p)) <= hp p)%Z /\
  (Forall (fun e => (0 < attackCooldown e)%Z) es ->
     snd (updateSnakes fr es p) = p /\
     map attackCooldown (fst (updateSnakes fr es p))
       = map (fun e => (attackCooldown e - 1)%Z) es) /\
  (forall f, fr = Some f ->
     Forall (fun e => dist (pos e) (pos f) < dist (pos e) (pos p)) es ->
     snd (updateSnakes fr es p) = p) /\
  (Forall (fun e => 35 <= dist (pos e) (pos p)) es -> snd (updateSnakes fr es p) = p) /\
  (forall snake, hp (snd (updateSnake fr snake p)) <> hp p ->
     hp (snd (updateSnake fr snake p)) = (hp p - 10)%Z /\
     attackCooldown (fst (updateSnake fr snake p)) = 59%Z /\
     isAttacking (fst (updateSnake fr snake p)) = true /\
     (attackCooldown snake <= 0)%Z /\
     dist (pos snake) (pos p) < 35).
Proof.
  split; [|split; [|split; [|split]]].
  - revert p. induction es as [|snake rest IH]; intros p;
      cbn [updateSnakes fst snd List.length]; [lia|].
    specialize (IH (snd (updateSnake fr snake p))).
    destruct (updateSnake_bite_cases fr snake p) as [E | (E & _)];
      rewrite E in IH |- *; cbn [hp setHp] in IH |- *; lia.
  - induction es as [|snake rest IH]; intros Hall;
      cbn [updateSnakes fst snd map]; [auto|].
    inversion Hall as [|? ? Hs Hrest]; subst.
    destruct (updateSnake_cooling fr snake p Hs) as [E1 E2].
    rewrite E1, E2. destruct (IH Hrest) as [I1 I2]. rewrite I1, I2. auto.
  - intros f ->. induction es as [|snake rest IH]; intros Hall;
      cbn [updateSnakes fst snd]; [reflexivity|].
    inversion Hall as [|? ? Hs Hrest]; subst.
    destruct (updateSnake_bite_cases (Some f) snake p) as [E | (_ & _ & _ & _ & _ & Hf)].
    + rewrite E. now apply IH.
    + specialize (Hf f eq_refl). lra.
  - induction es as [|snake rest IH]; intros Hall;
      cbn [updateSnakes fst snd]; [reflexivity|].
    inversion Hall as [|? ? Hs Hrest]; subst.
    destruct (updateSnake_bite_cases fr snake p) as [E | (_ & _ & _ & _ & Hd & _)].
    + rewrite E. now apply IH.
    + lra.
  - intros snake Hne.
    destruct (updateSnake_bite_cases fr snake p) as [E | (E & H1 & H2 & H3 & H4 & _)].
    + rewrite E in Hne. contradiction.
    + rewrite E. cbn [hp setHp]. auto.
Qed.

Lemma snake_bite_rate_witness :
  snd (updateSnakes None
         [setAttackCooldown 5 bitingSnake; setAttackCooldown 1 bitingSnake] corneredPlayer)
    = corneredPlayer /\
  map attackCooldown
      (fst (updateSnakes None
              [setAttackCooldown 5 bitingSnake; setAttackCooldown 1 bitingSnake]
              corneredPlayer))
    = [4%Z; 0%Z].
Proof.
  apply (snake_bite_rate None
           [setAttackCooldown 5 bitingSnake; setAttackCooldown 1 bitingSnake]
           corneredPlayer).
  repeat constructor.
Defined.

(** ** Messages *)

Lemma applyPlayerData_twice (d1 d2 : PlayerData) (f : Entity) :
  applyPlayerData d2 (applyPlayerData d1 f) = applyPlayerData d2 f.
Proof. destruct f. reflexivity. Qed.

Lemma applyPlayerData_kept (d : PlayerData) (f : Entity) :
  id (applyPlayerData d f) = id f /\ radius (applyPlayerData d f) = radius f /\
  type (applyPlayerData d f) = type f /\ maxHp (applyPlayerData d f) = maxHp f /\
  attackCooldown (applyPlayerData d f) = attackCooldown f /\
  color (applyPlayerData d f) = color f.
Proof. destruct f. repeat split. Qed.

Lemma onData_rest (isHost : bool) (m : Message) (s : GameState) :
  player (onData isHost m s) = player s /\
  environment (onData isHost m s) = environment s /\
  score (onData isHost m s) = score s /\
  gameOver (onData isHost m s) = gameOver s /\
  camera (onData isHost m s) = camera s.
Proof.
  unfold onData. cbv zeta.
  destruct m as [d | es | sd]; destruct (friend s) as [f|]; destruct isHost;
    simpl; repeat split.
Qed.

(** X16. What a message can change.  Whatever arrives, the receiver's own
    player, the environment, the score, the terminal flag and the camera
    stay as they are, the friend keeps its id, radius and maximal health,
    and on the host the hostiles stay too.  Of two player updates in a row
    only the second one shows; without a friend entity a player update is
    dropped; a start message changes nothing in the running game. *)
Theorem onData_scope (isHost : bool) (m : Message) (d1 d2 : PlayerData) (s : GameState) :
  (player (onData isHost m s) = player s /\
   environment (onData isHost m s) = environment s /\
   score (onData isHost m s) = score s /\
   gameOver (onData isHost m s) = gameOver s /\
   camera (onData isHost m s) = camera s) /\
  option_map id (friend (onData isHost m s)) = option_map id (friend s) /\
  option_map radius (friend (onData isHost m s)) = option_map radius (friend s) /\
  option_map maxHp (friend (onData isHost m s)) = option_map maxHp (friend s) /\
  (isHost = true -> enemies (onData isHost m s) = enemies s) /\
  onData isHost (PLAYER_UPDATE d2) (onData isHost (PLAYER_UPDATE d1) s)
    = onData isHost (PLAYER_UPDATE d2) s /\
  (friend s = None -> onData isHost (PLAYER_UPDATE d1) s = s) /\
  (forall seed, onData isHost (GAME_START seed) s = s).
Proof.
  split; [apply onData_rest|].
  split; [|split; [|split; [|split; [|split; [|split]]]]].
  - unfold onData. cbv zeta.
    destruct m as [d | es | sd]; destruct (friend s) as [f|] eqn:Hf; destruct isHost;
      simpl; rewrite ?Hf; simpl; auto.
  - unfold onData. cbv zeta.
    destruct m as [d | es | sd]; destruct (friend s) as [f|] eqn:Hf; destruct isHost;
      simpl; rewrite ?Hf; simpl; auto.
  - unfold onData. cbv zeta.
    destruct m as [d | es | sd]; destruct (friend s) as [f|] eqn:Hf; destruct isHost;
      simpl; rewrite ?Hf; simpl; auto.
  - intros ->. unfold onData. cbv zeta.
    destruct m as [d | es | sd]; destruct (friend s) as [f|]; reflexivity.
  - unfold onData. cbv zeta. destruct (friend s) as [f|] eqn:Hf.
    + simpl. rewrite applyPlayerData_twice. destruct s. reflexivity.
    + rewrite Hf. reflexivity.
  - intros Hf. unfold onData. cbv zeta. now rewrite Hf.
  - intros seed. unfold onData. cbv zeta. destruct (friend s); reflexivity.
Qed.

Lemma onData_scope_witness :
  onData true (PLAYER_UPDATE (playerData corneredPlayer)) cornered = cornered.
Proof.
  apply (onData_scope true (GAME_START 0) (playerData corneredPlayer)
                      (playerData corneredPlayer) cornered).
  reflexivity.
Defined.

Lemma gameLoop_sent (isMultiplayer isHost : bool) (conn : option bool) (c : Controls)
      (fuel : nat) (rng : Rng) (clock : nat -> nat) (s : GameState) (hud : Hud)
      (k k' : nat) (fr : Frame) :
  gameLoop isMultiplayer isHost conn c fuel rng clock s hud k = Some (fr, k') ->
  frameSent fr =
    if negb (gameOver s) && isMultiplayer &&
       match conn with Some open => open | None => false end
    then PLAYER_UPDATE (playerData (player (frameState fr)))
           :: (if isHost then [WORLD_UPDATE (enemies (frameState fr))] else [])
    else [].
Proof.
  unfold gameLoop. destruct (gameOver s).
  - intros [= <- _]. reflexivity.
  - destruct (updatePhysics _ _ _ _ _ _ _ _) as [[s1 k1]|]; [|discriminate].
    cbv zeta. intros [= <- _]. cbn [frameSent frameState negb andb]. reflexivity.
Qed.

(** X17. One frame of one side, received by the other.  A frame sends
    nothing in a solo session, without an open connection, or when the
    terminal flag is up.  Otherwise it sends the player update and, on the
    host, the hostile list; after the other side has handled these
    messages its friend shows the sender's player after the tick
    (position, rotation, health, level) under its own id, the peer's
    hostile list is the host's, the host's hostile list is untouched by
    what the peer sends, and the receiver's own player is as before. *)
Theorem frame_sync (isMultiplayer isHost : bool) (conn : option bool) (c : Controls)
        (fuel : nat) (rng : Rng) (clock : nat -> nat) (s : GameState) (hud : Hud)
        (k k' : nat) (fr : Frame) :
  gameLoop isMultiplayer isHost conn c fuel rng clock s hud k = Some (fr, k') ->
  (isMultiplayer = false \/ conn <> Some true \/ gameOver s = true ->
     frameSent fr = []) /\
  (isMultiplayer = true -> conn = Some true -> gameOver s = false ->
     forall (recv : GameState) (f : Entity), friend recv = Some f ->
       friend (deliver (negb isHost) (frameSent fr) recv)
         = Some (applyPlayerData (playerData (player (frameState fr))) f) /\
       (forall f', friend (deliver (negb isHost) (frameSent fr) recv) = Some f' ->
          pos f' = pos (player (frameState fr)) /\
          rotation f' = rotation (player (frameState fr)) /\
          hp f' = hp (player (frameState fr)) /\
          level f' = level (player (frameState fr)) /\
          id f' = id f) /\
       enemies (deliver (negb isHost) (frameSent fr) recv)
         = (if isHost then enemies (frameState fr) else enemies recv) /\
       player (deliver (negb isHost) (frameSent fr) recv) = player recv).
Proof.
  intros Hrun. rewrite (gameLoop_sent _ _ _ _ _ _ _ _ _ _ _ _ Hrun). split.
  - intros [-> | [Hc | ->]]; [now rewrite andb_false_r | | reflexivity].
    destruct conn as [[|]|]; [now contradiction Hc | |]; now rewrite andb_false_r.
  - intros -> -> Hover recv f Hf. rewrite Hover. cbn [negb andb].
    set (d := playerData (player (frameState fr))).
    assert (Hfriend : friend (deliver (negb isHost)
                                (PLAYER_UPDATE d
                                   :: (if isHost then [WORLD_UPDATE (enemies (frameState fr))]
                                       else [])) recv)
                      = Some (applyPlayerData d f)).
    { unfold deliver. destruct isHost; simpl; unfold onData; cbv zeta; rewrite Hf; reflexivity. }
    split; [exact Hfriend|]. split; [|split].
    + intros f' Hf'. rewrite Hfriend in Hf'. injection Hf' as <-.
      destruct f. repeat split.
    + unfold deliver. destruct isHost; cbn [fold_left negb]; unfold onData; cbv zeta;
        rewrite Hf; reflexivity.
    + unfold deliver. destruct isHost; cbn [fold_left negb];
        rewrite ?(proj1 (onData_rest _ _ _)); reflexivity.
Qed.

Lemma frame_sync_witness :
  exists fr k',
    gameLoop true true (Some true) walkDown 0 (fun _ => 0) (fun _ => 0%nat)
             cornered initialHud 0 = Some (fr, k') /\
    enemies (deliver false (frameSent fr) (setFriend (Some initialFriend) initialState))
      = enemies (frameState fr).
Proof.
  destruct (updatePhysics_no_deaths true true walkDown 0 (fun _ => 0) (fun _ => 0%nat)
              cornered 0) as (s1 & k1 & Hrun); [repeat constructor|].
  destruct (gameLoop_continues true true (Some true) walkDown 0 (fun _ => 0)
              (fun _ => 0%nat) cornered s1 initialHud 0 k1 eq_refl Hrun)
    as (fr & Hloop & _).
  exists fr, (S k1). split; [exact Hloop|].
  apply (proj2 (frame_sync true true (Some true) walkDown 0 (fun _ => 0) (fun _ => 0%nat)
                  cornered initialHud 0 (S k1) fr Hloop) eq_refl eq_refl eq_refl
               (setFriend (Some initialFriend) initialState) initialFriend eq_refl).
Defined.

(** ** Camera *)

Lemma spawnLoop_camera (fuel : nat) (rng : Rng) (clock : nat -> nat) (idx : list nat)
      (s s' : GameState) (k k' : nat) :
  spawnLoop fuel rng clock idx s k = Some (s', k') -> camera s' = camera s.
Proof.
  revert s k; induction idx as [|i rest IH]; intros s k; simpl.
  - now intros [= <- <-].
  - destruct (retrySpawn _ _ _ _ _) as [[q k1]|]; [|discriminate].
    intros Hrest. apply IH in Hrest. simpl in Hrest. exact Hrest.
Qed.

Lemma enemyLogic_camera (fuel : nat) (rng : Rng) (clock : nat -> nat)
      (s s' : GameState) (k k' : nat) :
  enemyLogic fuel rng clock s k = Some (s', k') -> camera s' = camera s.
Proof.
  unfold enemyLogic, spawnSnakes. cbv zeta. simpl enemies.
  repeat break_if.
  - destruct (spawnLoop _ _ _ _ _ _) as [[s2 k2]|] eqn:Hsp; [|discriminate].
    intros [= <- <-]. apply spawnLoop_camera in Hsp. simpl in *. exact Hsp.
  - now intros [= <- <-].
  - now intros [= <- <-].
Qed.

Lemma healPlayer_camera (rng : Rng) (s : GameState) (k : nat) :
  camera (fst (healPlayer rng s k)) = camera s.
Proof. unfold healPlayer. cbv zeta. repeat break_if; reflexivity. Qed.

Lemma updatePhysics_camera (isMultiplayer isHost : bool) (c : Controls) (fuel : nat)
      (rng : Rng) (clock : nat -> nat) (s s' : GameState) (k k' : nat) :
  updatePhysics isMultiplayer isHost c fuel rng clock s k = Some (s', k') ->
  camera s' = mkVec2 (lerp (x (camera s)) (x (pos (player s'))) 0.1)
                     (lerp (y (camera s)) (y (pos (player s'))) 0.1).
Proof.
  unfold updatePhysics. cbv zeta.
  pose proof (healPlayer_camera rng (setPlayer (tickCooldown (movePlayer c (player s))) s) k)
    as Hh. simpl in Hh.
  destruct (negb isMultiplayer || isHost).
  - destruct (enemyLogic _ _ _ _ _) as [[s3 k3]|] eqn:Hen; [|discriminate].
    apply enemyLogic_camera in Hen. intros [= <- <-]. simpl. now rewrite Hen, Hh.
  - intros [= <- <-]. simpl. now rewrite Hh.
Qed.

(** X18. The camera trails the player.  After a tick the camera's offset
    from the player's new position is nine tenths of the offset the old
    camera had from that position, on each axis and in distance; a camera
    already on the player stays on it. *)
Theorem camera_follows (isMultiplayer isHost : bool) (c : Controls) (fuel : nat)
        (rng : Rng) (clock : nat -> nat) (s s' : GameState) (k k' : nat) :
  updatePhysics isMultiplayer isHost c fuel rng clock s k = Some (s', k') ->
  x (camera s') - x (pos (player s')) = 0.9 * (x (camera s) - x (pos (player s'))) /\
  y (camera s') - y (pos (player s')) = 0.9 * (y (camera s) - y (pos (player s'))) /\
  dist (camera s') (pos (player s')) = 0.9 * dist (camera s) (pos (player s')) /\
  (camera s = pos (player s') -> camera s' = camera s).
Proof.
  intros Hrun. rewrite (updatePhysics_camera _ _ _ _ _ _ _ _ _ _ Hrun).
  unfold lerp. cbn [x y].
  split; [lra|]. split; [lra|]. split.
  - rewrite !dist_eq. cbn [x y].
    set (a := x (camera s) - x (pos (player s'))).
    set (b := y (camera s) - y (pos (player s'))).
    replace (x (camera s) * (1 - 0.1) + x (pos (player s')) * 0.1 - x (pos (player s')))
      with (0.9 * a) by (unfold a; lra).
    replace (y (camera s) * (1 - 0.1) + y (pos (player s')) * 0.1 - y (pos (player s')))
      with (0.9 * b) by (unfold b; lra).
    apply scaled_length. lra.
  - intros <-. destruct (camera s) as [cx cy]. cbn [x y]. f_equal; lra.
Qed.

Lemma camera_follows_witness :
  exists s' k',
    updatePhysics false false walkDown 0 (fun _ => 0) (fun _ => 0%nat) cornered 0
      = Some (s', k') /\
    dist (camera s') (pos (player s')) = 0.9 * dist (camera cornered) (pos (player s')).
Proof.
  destruct (updatePhysics_no_deaths false false walkDown 0 (fun _ => 0) (fun _ => 0%nat)
              cornered 0) as (s1 & k1 & Hrun); [repeat constructor|].
  exists s1, k1. split; [exact Hrun|].
  apply (camera_follows false false walkDown 0 (fun _ => 0) (fun _ => 0%nat)
           cornered s1 0 k1 Hrun).
Defined.

(** ** From the lobby to the world *)

Lemma mount_fields (isMultiplayer isHost : bool) (conn : option bool) (gameSeed : option R)
      (fuel : nat) (rng : Rng) (clock : nat -> nat) (s s' : GameState) (k k' : nat) :
  mount isMultiplayer isHost conn gameSeed fuel rng clock s k = Some (s', k') ->
  environment s' = env (generate (fst (sessionSeed gameSeed rng k))) /\
  player s' = player s /\
  friend s' = (if isMultiplayer && match conn with Some _ => true | None => false end
               then Some initialFriend else friend s) /\
  (if negb isMultiplayer || isHost
   then exists new, enemies s' = enemies s ++ new /\ List.length new = 5%nat
   else enemies s' = enemies s /\ k' = snd (sessionSeed gameSeed rng k)).
Proof.
  unfold mount, startWorld, initWorld. cbv zeta.
  generalize (env (generate (fst (sessionSeed gameSeed rng k)))). intros world.
  set (s1 := if isMultiplayer && _ then _ else s).
  assert (H1 : player s1 = player s /\ enemies s1 = enemies s /\
               friend s1 = (if isMultiplayer && match conn with Some _ => true | None => false end
                            then Some initialFriend else friend s)).
  { unfold s1. destruct (isMultiplayer && _); simpl; auto. }
  destruct H1 as (Hp & He & Hf). clearbody s1.
  destruct (negb isMultiplayer || isHost).
  - unfold spawnSnakes. cbn [fst snd]. intros Hsp.
    destruct (spawnLoop_fields _ _ _ _ _ _ _ _ Hsp) as (Sp & Sf & Senv & _).
    destruct (spawnLoop_spec _ _ _ _ _ _ _ _ Hsp) as (new & Sen & Slen & _).
    cbn [fst snd player friend environment enemies setEnvironment] in Sp, Sf, Senv, Sen.
    rewrite Sp, Sf, Senv, Hp, Hf.
    split; [reflexivity|]. split; [reflexivity|]. split; [reflexivity|].
    exists new. rewrite Sen, He. split; [reflexivity|].
    now rewrite Slen, length_seq.
  - intros [= <- <-]. cbn [fst snd player friend environment enemies setEnvironment].
    rewrite Hp, Hf, He. auto.
Qed.

(** X19. From the lobby handshake to the two worlds.  When the host starts
    on an open connection the peer's lobby stores the seed the host stored,
    the floor of 100000 times the host's draw.  If that seed is not 0, the
    game screens of both sides generate the same environment from it and
    the peer draws no random number for the world; if it is 0, the seed
    counts as absent and each side generates its world from a draw of its
    own.  Either way both sides get the friend entity, the host appends
    five snakes and the peer's hostile list stays as it was. *)
Theorem handshake_worlds (rng rngH rngP : Rng) (clockH clockP : nat -> nat)
        (k kH kP kH' kP' fuelH fuelP : nat) (gH gP : option R)
        (sH sP sH' sP' : GameState) :
  mount true true (Some true) (hostSeed rng k gH) fuelH rngH clockH sH kH = Some (sH', kH') ->
  mount true false (Some true) (peerSeed rng k gH gP) fuelP rngP clockP sP kP
    = Some (sP', kP') ->
  peerSeed rng k gH gP = hostSeed rng k gH /\
  hostSeed rng k gH = Some (floor (rng k * 100000)) /\
  (floor (rng k * 100000) <> 0 ->
     environment sP' = environment sH' /\
     environment sH' = environment (initWorld (floor (rng k * 100000)) sH) /\
     kP' = kP) /\
  (floor (rng k * 100000) = 0 ->
     environment sH' = environment (initWorld (rngH kH * 10000) sH) /\
     environment sP' = environment (initWorld (rngP kP * 10000) sP) /\
     kP' = S kP) /\
  friend sH' = Some initialFriend /\ friend sP' = Some initialFriend /\
  enemies sP' = enemies sP /\
  exists new, enemies sH' = enemies sH ++ new /\ List.length new = 5%nat.
Proof.
  intros HH HP.
  assert (Eh : hostSeed rng k gH = Some (floor (rng k * 100000))) by reflexivity.
  assert (Ep : peerSeed rng k gH gP = Some (floor (rng k * 100000))) by reflexivity.
  rewrite Eh in HH. rewrite Ep in HP.
  destruct (mount_fields _ _ _ _ _ _ _ _ _ _ _ HH) as (Henv & _ & Hfr & Hen).
  destruct (mount_fields _ _ _ _ _ _ _ _ _ _ _ HP) as (Penv & _ & Pfr & Pen).
  cbn [negb orb andb] in Hfr, Hen, Pfr, Pen. destruct Pen as [Pen Pk].
  split; [now rewrite Ep, Eh|]. split; [exact Eh|].
  split; [|split; [|repeat split; auto]].
  - intros Hnz. apply Reqb_false in Hnz.
    unfold sessionSeed in Henv, Penv, Pk. rewrite Hnz in Henv, Penv, Pk.
    cbn [fst snd] in Henv, Penv, Pk. rewrite Henv, Penv.
    split; [reflexivity|]. split; [reflexivity | exact Pk].
  - intros Hz. unfold sessionSeed in Henv, Penv, Pk. rewrite Hz, Reqb_refl in Henv, Penv, Pk.
    cbn [fst snd] in Henv, Penv, Pk. rewrite Henv, Penv.
    split; [reflexivity|]. split; [reflexivity | exact Pk].
Qed.

Lemma floor_half : floor (0.5 * 100000) = 50000.
Proof.
  unfold floor. f_equal. symmetry. apply Int_part_spec. simpl. lra.
Qed.

Lemma handshake_worlds_witness :
  exists sH' kH',
    mount true true (Some true) (hostSeed (fun _ => 0.5) 0 None) 1 (fun _ => 0)
          (fun _ => 0%nat) initialState 0 = Some (sH', kH') /\
    environment (initWorld 50000 initialState) = environment sH'.
Proof.
  assert (Eh : hostSeed (fun _ => 0.5) 0 None = Some 50000).
  { unfold hostSeed, hostStart, LobbyScreen.handleHostStart. cbn [fst]. now rewrite floor_half. }
  assert (Ep : peerSeed (fun _ => 0.5) 0 None None = Some 50000).
  { unfold peerSeed, hostStart, LobbyScreen.handleHostStart. cbn [fst snd fold_left].
    unfold LobbyScreen.onData. cbn [fst]. now rewrite floor_half. }
  assert (Hnz : Reqb 50000 0 = false) by (apply Reqb_false; lra).
  destruct (spawnLoop_runs 0 (fun _ => 0) (fun _ => 0%nat) (seq 0 5)
              (initWorld 50000 (setFriend (Some initialFriend) initialState)) 0
              far_corner_accepted) as [sH' HsH].
  assert (HH : mount true true (Some true) (hostSeed (fun _ => 0.5) 0 None) 1 (fun _ => 0)
                     (fun _ => 0%nat) initialState 0
               = Some (sH', (0 + 2 * List.length (seq 0 5))%nat)).
  { rewrite Eh. unfold mount, startWorld, sessionSeed, spawnSnakes. cbv zeta.
    rewrite Hnz. cbn [andb negb orb fst snd]. exact HsH. }
  assert (HP : mount true false (Some true) (peerSeed (fun _ => 0.5) 0 None None) 1
                     (fun _ => 0) (fun _ => 0%nat) initialState 0
               = Some (initWorld 50000 (setFriend (Some initialFriend) initialState), 0%nat)).
  { rewrite Ep. unfold mount, startWorld, sessionSeed. cbv zeta.
    rewrite Hnz. reflexivity. }
  exists sH', (0 + 2 * List.length (seq 0 5))%nat. split; [exact HH|].
  destruct (handshake_worlds _ _ _ _ _ _ _ _ _ _ _ _ _ _ _ _ _ _ HH HP)
    as (_ & _ & Hsame & _).
  rewrite floor_half in Hsame. destruct Hsame as (Hsame & _); [lra|].
  rewrite <- Hsame. reflexivity.
Defined.

(** ** The older engines *)

Lemma dist_horizontal (a b c : R) : dist (mkVec2 a c) (mkVec2 b c) = Rabs (a - b).
Proof.
  rewrite dist_eq. cbn [x y].
  replace ((a - b) * (a - b) + (c - c) * (c - c)) with (Rsqr (a - b)) by (unfold Rsqr; ring).
  apply sqrt_Rsqr_abs.
Qed.

(** X20. The companion of the older engine keeps its distance.  Farther than
    180 from the player it walks 6.65 units straight toward the player and
    faces it, so it is still farther than 173.35 afterwards; at 180 or less
    it stands still with its walk cycle reset.  Its health and id are never
    touched. *)
Theorem follower_gap (f p : Entity) :
  (180 < dist (pos f) (pos p) ->
     dist (pos (Wolf.followPlayer f p)) (pos p) = dist (pos f) (pos p) - 6.65 /\
     173.35 < dist (pos (Wolf.followPlayer f p)) (pos p) /\
     rotation (Wolf.followPlayer f p) = angleTo (pos p) f /\
     walkCycle (Wolf.followPlayer f p) = walkCycle f + 0.3) /\
  (dist (pos f) (pos p) <= 180 ->
     pos (Wolf.followPlayer f p) = pos f /\
     rotation (Wolf.followPlayer f p) = rotation f /\
     walkCycle (Wolf.followPlayer f p) = 0) /\
  hp (Wolf.followPlayer f p) = hp f /\
  id (Wolf.followPlayer f p) = id f.
Proof.
  split; [|split; [|split]].
  - intros Hfar. assert (Hc : Rgtb (dist (pos f) (pos p)) 180 = true) by now apply Rgtb_true.
    unfold Wolf.followPlayer. cbv zeta. rewrite Hc. cbn [pos setWalkCycle setRotation setPos
      rotation walkCycle].
    rewrite move_toward.
    replace (dist (pos f) (pos p) - 7 * 0.95) with (dist (pos f) (pos p) - 6.65) by lra.
    rewrite Rabs_right by lra. repeat split; try reflexivity. lra.
  - intros Hnear.
    assert (Hc : Rgtb (dist (pos f) (pos p)) 180 = false) by now apply Rgtb_false.
    unfold Wolf.followPlayer. cbv zeta. rewrite Hc. auto.
  - unfold Wolf.followPlayer. cbv zeta. break_if; reflexivity.
  - unfold Wolf.followPlayer. cbv zeta. break_if; reflexivity.
Qed.

Lemma follower_gap_witness :
  dist (pos (Wolf.followPlayer (setPos (mkVec2 1500 1250) initialFriend) initialPlayer))
       (pos initialPlayer)
    = dist (pos (setPos (mkVec2 1500 1250) initialFriend)) (pos initialPlayer) - 6.65.
Proof.
  apply (follower_gap (setPos (mkVec2 1500 1250) initialFriend) initialPlayer).
  change (dist (pos (setPos (mkVec2 1500 1250) initialFriend)) (pos initialPlayer))
    with (dist (mkVec2 1500 1250) (mkVec2 1250 1250)).
  rewrite dist_horizontal, Rabs_right; lra.
Defined.

Lemma wolf_spawnLoop_fields (kind : EntityType) (fuel : nat) (rng : Rng)
      (clock : nat -> nat) (idx : list nat) (s s' : GameState) (k k' : nat) :
  Wolf.spawnLoop kind fuel rng clock idx s k = Some (s', k') ->
  player s' = player s /\ score s' = score s /\ friend s' = friend s /\
  (k + 2 * List.length idx <= k')%nat.
Proof.
  revert s k; induction idx as [|i rest IH]; intros s k; simpl.
  - intros [= <- <-]. repeat split; auto. lia.
  - destruct (retrySpawn _ _ _ _ _) as [[q k1]|] eqn:Hretry; [|discriminate].
    intros Hrest. apply IH in Hrest. simpl in Hrest.
    destruct Hrest as (Hp & Hs & Hf & Hk). repeat split; auto.
    assert (k + 2 <= k1)%nat; [|lia].
    clear - Hretry. revert Hretry. generalize (randomPos rng k). generalize (k + 2)%nat.
    induction fuel as [|fuel IHf]; intros j q0; simpl; [discriminate|].
    destruct (rejected _ _).
    + intros H. apply IHf in H. lia.
    + intros [= _ <-]. lia.
Qed.

(** X21. Score keeping in the older engine.  The clean-up keeps exactly the
    hostiles with positive health, in order, and adds 100 points for each
    one it removes; it never touches the player.  Wolves respawned during
    the clean-up are not in the list it leaves, and random numbers are
    drawn only when something died and fewer than four are left.  With
    nobody dead the state is left as it is. *)
Theorem cleanUp_score (kind : EntityType) (fuel : nat) (rng : Rng) (clock : nat -> nat)
        (s s' : GameState) (k k' : nat) :
  Wolf.cleanUp kind fuel rng clock s k = Some (s', k') ->
  enemies s' = filter (fun e => (0 <? hp e)%Z) (enemies s) /\
  score s' = score s + INR (List.length (enemies s) - List.length (enemies s')) * 100 /\
  Forall (fun e => (0 < hp e)%Z) (enemies s') /\
  (List.length (enemies s') <= List.length (enemies s))%nat /\
  player s' = player s /\
  (k <= k')%nat /\
  (k' <> k -> (List.length (enemies s') < 4)%nat /\
              (List.length (enemies s') < List.length (enemies s))%nat) /\
  (Forall (fun e => (0 < hp e)%Z) (enemies s) -> s' = s /\ k' = k).
Proof.
  unfold Wolf.cleanUp, Wolf.spawnEnemies. cbv zeta.
  set (alive := filter (fun e => (0 <? hp e)%Z) (enemies s)).
  pose proof (filter_length_le (fun e => (0 <? hp e)%Z) (enemies s)) as Hle. fold alive in Hle.
  assert (Halive : Forall (fun e => (0 < hp e)%Z) alive).
  { eapply Forall_impl; [|apply (Forall_filter_true (fun e => (0 <? hp e)%Z))].
    intros e He. now apply Z.ltb_lt. }
  assert (Hsame : Forall (fun e => (0 < hp e)%Z) (enemies s) -> alive = enemies s).
  { intros Hall. apply filter_all. eapply Forall_impl; [|exact Hall].
    intros e He. now apply Z.ltb_lt. }
  destruct (List.length alive <? List.length (enemies s))%nat eqn:Hdead.
  - apply Nat.ltb_lt in Hdead.
    destruct (List.length alive <? 4)%nat eqn:Hfew.
    + apply Nat.ltb_lt in Hfew.
      destruct (Wolf.spawnLoop _ _ _ _ _ _ _) as [[s2 k2]|] eqn:Hsp; [|discriminate].
      intros [= <- <-]. apply wolf_spawnLoop_fields in Hsp. simpl in Hsp.
      destruct Hsp as (Hp & Hs & _ & Hk). cbn [enemies score player setEnemies].
      rewrite Hs, Hp. repeat split; auto; try lia.
      all: exfalso; match goal with
                    | Hall : Forall _ (enemies _) |- _ =>
                        apply Hsame in Hall; rewrite Hall in Hdead; lia
                    end.
    + intros [= <- <-]. cbn [enemies score player setEnemies setScore].
      repeat split; auto; try lia.
      all: exfalso; match goal with
                    | Hall : Forall _ (enemies _) |- _ =>
                        apply Hsame in Hall; rewrite Hall in Hdead; lia
                    end.
  - apply Nat.ltb_ge in Hdead.
    intros [= <- <-]. cbn [enemies score player setEnemies].
    assert (Hlen : List.length alive = List.length (enemies s)) by lia.
    rewrite Hlen, Nat.sub_diag. simpl INR.
    split; [reflexivity|]. split; [lra|]. split; [exact Halive|].
    split; [lia|]. split; [reflexivity|]. split; [lia|]. split.
    + intros Hk. now contradiction Hk.
    + intros Hall. rewrite (Hsame Hall). now destruct s.
Qed.

Lemma cleanUp_score_witness :
  exists s',
    Wolf.cleanUp SNAKE 0 (fun _ => 0) (fun _ => 0%nat) pack 0 = Some (s', 0%nat) /\
    enemies s' = [wolfAt 0; wolfAt 1; wolfAt 2; wolfAt 3] /\
    score s' = score pack + INR (5 - 4) * 100.
Proof.
  eexists. split; [reflexivity|].
  destruct (cleanUp_score SNAKE 0 (fun _ => 0) (fun _ => 0%nat) pack _ 0%nat 0%nat eq_refl)
    as (He & Hs & _).
  split; [exact He | exact Hs].
Defined.

(** X22. Whom the wolf of the networked engine bites.  Outside the
    sanctuary margin, a wolf with no running cooldown that has the player
    within 45 takes 15 health from the player even when the friend is
    nearer and the wolf turns toward the friend; the snake engine in the
    same position leaves the player alone.  Within the margin of the
    sanctuary the wolf only backs away by 2 units and bites nobody. *)
Theorem wolf_bites_player_regardless (f enemy p : Entity) (fr : option Entity) :
  (SPAWN_ZONE_RADIUS + 50 <= dist (pos enemy) SPAWN_ZONE_CENTER ->
   dist (pos enemy) (pos f) < dist (pos enemy) (pos p) ->
   dist (pos enemy) (pos p) < 45 ->
   (attackCooldown enemy <= 0)%Z ->
     snd (WolfNet.updateEnemy (Some f) enemy p) = setHp (hp p - 15)%Z p /\
     rotation (fst (WolfNet.updateEnemy (Some f) enemy p)) = angleTo (pos f) enemy /\
     attackCooldown (fst (WolfNet.updateEnemy (Some f) enemy p)) = 59%Z /\
     snd (updateSnake (Some f) enemy p) = p) /\
  (dist (pos enemy) SPAWN_ZONE_CENTER < SPAWN_ZONE_RADIUS + 50 ->
     snd (WolfNet.updateEnemy fr enemy p) = p /\
     dist (pos (fst (WolfNet.updateEnemy fr enemy p))) SPAWN_ZONE_CENTER
       = dist (pos enemy) SPAWN_ZONE_CENTER + 2 /\
     rotation (fst (WolfNet.updateEnemy fr enemy p)) = awayAngle enemy).
Proof.
  split.
  - intros Hout Hfriend Hnear Hcd.
    assert (H1 : Rltb (dist (pos enemy) SPAWN_ZONE_CENTER) (SPAWN_ZONE_RADIUS + 50) = false)
      by now apply Rltb_false.
    assert (H2 : Rltb (dist (pos enemy) (pos f)) (dist (pos enemy) (pos p)) = true)
      by now apply Rltb_true.
    assert (H3 : Rltb (dist (pos enemy) (pos f)) 700 = true) by (apply Rltb_true; lra).
    assert (H4 : Rltb (dist (pos enemy) (pos p)) 45 = true) by now apply Rltb_true.
    assert (H5 : (attackCooldown enemy <=? 0)%Z = true) by now apply Z.leb_le.
    split; [|split; [|split]].
    + unfold WolfNet.updateEnemy, chooseTarget. cbv zeta. rewrite H1, H2. cbn [fst snd].
      rewrite H3, H4. cbn [setWalkCycle setPos setRotation attackCooldown]. rewrite H5.
      reflexivity.
    + unfold WolfNet.updateEnemy, chooseTarget. cbv zeta. rewrite H1, H2. cbn [fst snd].
      rewrite H3, H4. cbn [setWalkCycle setPos setRotation attackCooldown]. rewrite H5.
      reflexivity.
    + unfold WolfNet.updateEnemy, chooseTarget. cbv zeta. rewrite H1, H2. cbn [fst snd].
      rewrite H3, H4. cbn [setWalkCycle setPos setRotation attackCooldown]. rewrite H5.
      reflexivity.
    + destruct (updateSnake_bite_cases (Some f) enemy p) as [E | (_ & _ & _ & _ & _ & Hf)];
        [exact E|]. specialize (Hf f eq_refl). lra.
  - intros Hin.
    assert (H1 : Rltb (dist (pos enemy) SPAWN_ZONE_CENTER) (SPAWN_ZONE_RADIUS + 50) = true)
      by now apply Rltb_true.
    assert (Hpos : pos (fst (WolfNet.updateEnemy fr enemy p))
                   = mkVec2 (x (pos enemy) + cos (awayAngle enemy) * 2)
                            (y (pos enemy) + sin (awayAngle enemy) * 2) /\
                   rotation (fst (WolfNet.updateEnemy fr enemy p)) = awayAngle enemy /\
                   snd (WolfNet.updateEnemy fr enemy p) = p).
    { unfold WolfNet.updateEnemy. cbv zeta. rewrite H1. cbn [fst snd].
      break_if; auto. }
    destruct Hpos as (Hp & Hr & Hs). split; [exact Hs|]. split; [|exact Hr].
    rewrite Hp. unfold awayAngle. rewrite move_along.
    pose proof (dist_nonneg (pos enemy) SPAWN_ZONE_CENTER). apply Rabs_right. lra.
Qed.

Lemma wolf_bites_player_regardless_witness :
  snd (WolfNet.updateEnemy (Some nearFriend) lurkingWolf baitedPlayer)
    = setHp (hp baitedPlayer - 15)%Z baitedPlayer.
Proof.
  assert (Hc : dist (pos lurkingWolf) SPAWN_ZONE_CENTER = 750).
  { change (dist (mkVec2 2000 1250) (mkVec2 1250 1250) = 750).
    rewrite dist_horizontal, Rabs_right; lra. }
  assert (Hf : dist (pos lurkingWolf) (pos nearFriend) = 10).
  { change (dist (mkVec2 2000 1250) (mkVec2 1990 1250) = 10).
    rewrite dist_horizontal, Rabs_right; lra. }
  assert (Hp : dist (pos lurkingWolf) (pos baitedPlayer) = 40).
  { change (dist (mkVec2 2000 1250) (mkVec2 2040 1250) = 40).
    rewrite dist_horizontal, Rabs_left; lra. }
  apply (wolf_bites_player_regardless nearFriend lurkingWolf baitedPlayer None).
  - rewrite Hc. unfold SPAWN_ZONE_RADIUS. lra.
  - rewrite Hf, Hp. lra.
  - rewrite Hp. lra.
  - simpl. lia.
Defined.

(** ** The application shell *)

Lemma shown_screen (a : App.AppState) (sc : App.ScreenState) :
  App.shown a = Some sc ->
  App.screen a = sc /\ exists pr, App.profile a = Some pr.
Proof.
  unfold App.shown, App.hasProfile.
  destruct (App.screen a); destruct (App.profile a) as [pr|]; simpl;
    try discriminate; try destruct (App.truthy _); try discriminate;
    intros [= <-]; eauto.
Qed.

Lemma app_invariant (a : App.AppState) :
  App.reachable a ->
  (App.profile a = None -> a = App.initialApp) /\
  (App.screen a = App.LOBBY ->
     App.appIsMultiplayer a = true /\
     exists id pr, App.lobbyId a = Some id /\ App.profile a = Some pr /\
                   (id = EmptyString -> App.profileIsHost pr = true)) /\
  (App.screen a = App.GAME ->
     App.profile a <> None /\
     (App.appIsMultiplayer a = true -> App.truthy (App.lobbyId a) = true)).
Proof.
  induction 1 as [|a b Hreach (I1 & I2 & I3) Hstep].
  - repeat split; try discriminate.
  - destruct Hstep as [a pr Hnone | a nid Hs | a jid Hs Hne | a Hs | a Hs | a Hs | a Hs].
    + rewrite (I1 Hnone). simpl. repeat split; discriminate.
    + destruct (shown_screen _ _ Hs) as (Hsc & pr & Hpr).
      unfold App.handleCreateLobby. rewrite Hpr. simpl.
      split; [discriminate|]. split; [|discriminate].
      intros _. split; [reflexivity|]. exists nid, (App.withHost true pr). auto.
    + destruct (shown_screen _ _ Hs) as (Hsc & pr & Hpr).
      unfold App.handleJoinLobby. rewrite Hpr. simpl.
      split; [discriminate|]. split; [|discriminate].
      intros _. split; [reflexivity|]. exists jid, (App.withHost false pr).
      repeat split. intros He. contradiction.
    + destruct (shown_screen _ _ Hs) as (Hsc & pr & Hpr).
      unfold App.handlePlayOffline. simpl. rewrite Hpr.
      split; [discriminate|]. split; [discriminate|].
      intros _. split; discriminate.
    + destruct (shown_screen _ _ Hs) as (Hsc & pr & Hpr).
      unfold App.handleStartGame. simpl. rewrite Hpr.
      split; [discriminate|]. split; [discriminate|].
      intros _. split; [discriminate|]. intros _.
      revert Hs. unfold App.shown, App.hasProfile. rewrite Hsc, Hpr. simpl.
      destruct (App.truthy (App.lobbyId a)); [reflexivity | discriminate].
    + destruct (shown_screen _ _ Hs) as (Hsc & pr & Hpr).
      unfold App.handleBack. simpl. rewrite Hpr. repeat split; discriminate.
    + destruct (shown_screen _ _ Hs) as (Hsc & pr & Hpr).
      unfold App.handleExit. simpl. rewrite Hpr. repeat split; discriminate.
Qed.

(** X23. The screens of the application.  In every state the user can
    reach: the lobby screen state goes with the multiplayer flag and a
    lobby id; the game state goes with a profile, and a multiplayer game
    with a non-empty lobby id; the profile is missing only before the mount
    effect has run.  Nothing is shown only before the profile is set, or in
    a lobby created with an empty id, and from that lobby no callback can
    be reached any more. *)
Theorem app_screens (a : App.AppState) :
  App.reachable a ->
  (App.screen a = App.LOBBY ->
     App.appIsMultiplayer a = true /\ App.lobbyId a <> None /\ App.profile a <> None) /\
  (App.screen a = App.GAME ->
     App.shown a = Some App.GAME /\
     (App.appIsMultiplayer a = true -> App.truthy (App.lobbyId a) = true)) /\
  (App.profile a = None -> a = App.initialApp) /\
  (App.shown a = None ->
     App.profile a = None \/
     (App.screen a = App.LOBBY /\ App.lobbyId a = Some EmptyString /\
      (exists pr, App.profile a = Some pr /\ App.profileIsHost pr = true) /\
      forall b, ~ App.step a b)).
Proof.
  intros Hreach. destruct (app_invariant a Hreach) as (I1 & I2 & I3).
  split; [|split; [|split; [exact I1|]]].
  - intros Hsc. destruct (I2 Hsc) as (Hmp & id & pr & Hid & Hpr & _).
    rewrite Hid, Hpr. repeat split; auto; discriminate.
  - intros Hsc. destruct (I3 Hsc) as (Hpr & Hid). split; [|exact Hid].
    unfold App.shown, App.hasProfile. rewrite Hsc.
    destruct (App.profile a); [reflexivity | contradiction].
  - intros Hnone. destruct (App.profile a) as [pr0|] eqn:Hp; [right | now left].
    destruct (App.screen a) eqn:Hsc.
    + revert Hnone. unfold App.shown, App.hasProfile. rewrite Hsc, Hp. discriminate.
    + destruct (I2 eq_refl) as (_ & id & pr & Hid & Hpr & Hhost).
      injection Hpr as <-.
      assert (Hempty : id = EmptyString).
      { revert Hnone. unfold App.shown, App.hasProfile. rewrite Hsc, Hp, Hid. simpl.
        destruct id; [reflexivity | discriminate]. }
      subst id. split; [reflexivity|]. split; [exact Hid|].
      split; [exists pr0; auto|].
      intros b Hstep.
      destruct Hstep as [a pr Hn | a nid Hs | a jid Hs Hne | a Hs | a Hs | a Hs | a Hs];
        congruence.
    + revert Hnone. unfold App.shown, App.hasProfile. rewrite Hsc, Hp. discriminate.
Qed.

Lemma app_screens_witness :
  App.shown (App.handleStartGame
               (App.handleCreateLobby "AB12"
                  (App.mkAppState App.AUTH (Some (App.mkPlayerProfile "X1Y2Z3" "Wolf-X1Y2" false))
                                  None false)))
    = Some App.GAME.
Proof.
  apply (app_screens (App.handleStartGame
                        (App.handleCreateLobby "AB12"
                           (App.mkAppState App.AUTH
                              (Some (App.mkPlayerProfile "X1Y2Z3" "Wolf-X1Y2" false))
                              None false)))).
  - eapply App.reach_step; [eapply App.reach_step; [eapply App.reach_step|]|].
    + apply App.reach_init.
    + apply (App.step_profile App.initialApp (App.mkPlayerProfile "X1Y2Z3" "Wolf-X1Y2" false)).
      reflexivity.
    + apply App.step_create. reflexivity.
    + apply App.step_start. reflexivity.
  - reflexivity.
Defined.

(** ** Healing *)

Lemma EntityType_eqb_eq (a b : EntityType) : EntityType_eqb a b = true -> a = b.
Proof. destruct a, b; simpl; intros H; try reflexivity; discriminate H. Qed.

Lemma nearStream_inv (s : GameState) :
  nearStream s = true ->
  exists stream,
    In stream (environment s) /\ type stream = STREAM /\
    dist (pos (player s)) (pos stream) < radius stream.
Proof.
  unfold nearStream. intros H. apply existsb_exists in H.
  destruct H as (stream & Hin & Hd). apply filter_In in Hin. destruct Hin as [Hin Ht].
  exists stream. split; [exact Hin|]. split; [now apply EntityType_eqb_eq|].
  now apply Rltb_true.
Qed.

Lemma healPlayer_cases (rng : Rng) (s : GameState) (k : nat) :
  fst (healPlayer rng s k) = s \/
  (nearStream s = true /\ (hp (player s) < maxHp (player s))%Z /\ 0.9 < rng k /\
   hp (player (fst (healPlayer rng s k))) = (hp (player s) + 1)%Z /\
   snd (healPlayer rng s k) = S k).
Proof.
  unfold healPlayer. cbv zeta.
  destruct (nearStream s) eqn:Hn; [|now left].
  destruct (hp (player s) <? maxHp (player s))%Z eqn:Hlt; [|now left].
  destruct (Rgtb (rng k) 0.9) eqn:Hr; [|now left].
  right. apply Z.ltb_lt in Hlt. apply Rgtb_true in Hr. cbn [andb fst snd player setPlayer hp setHp].
  repeat split; auto. lia.
Qed.

(** X24. Health is only gained in a stream.  Over a completed tick the
    player's health rises by at most 1; when it rises, it rises by exactly
    1, the player was below maximal health, the random draw of the tick was
    above 0.9 and the player, after its move, stood inside a stream of the
    environment.  In an environment without streams, and at maximal health
    or above, health never rises. *)
Theorem healing_needs_stream (isMultiplayer isHost : bool) (c : Controls) (fuel : nat)
        (rng : Rng) (clock : nat -> nat) (s s' : GameState) (k k' : nat) :
  updatePhysics isMultiplayer isHost c fuel rng clock s k = Some (s', k') ->
  (hp (player s') <= hp (player s) + 1)%Z /\
  ((hp (player s) < hp (player s'))%Z ->
     hp (player s') = (hp (player s) + 1)%Z /\
     (hp (player s) < maxHp (player s))%Z /\
     0.9 < rng k /\
     exists stream,
       In stream (environment s) /\ type stream = STREAM /\
       dist (pos (movePlayer c (player s))) (pos stream) < radius stream) /\
  (Forall (fun e => type e <> STREAM) (environment s) ->
     (hp (player s') <= hp (player s))%Z) /\
  ((maxHp (player s) <= hp (player s))%Z -> (hp (player s') <= hp (player s))%Z).
Proof.
  intros Hrun.
  destruct (updatePhysics_fields _ _ _ _ _ _ _ _ _ _ Hrun) as (s3 & Hs3 & Hp & _).
  set (p1 := tickCooldown (movePlayer c (player s))) in *.
  set (h := healPlayer rng (setPlayer p1 s) k) in *.
  assert (Hp1 : hp p1 = hp (player s) /\ maxHp p1 = maxHp (player s) /\
                pos p1 = pos (movePlayer c (player s))).
  { unfold p1. destruct (tickCooldown_vitals (movePlayer c (player s))) as (-> & -> & ->).
    destruct (movePlayer_vitals c (player s)) as [-> ->]. auto. }
  destruct Hp1 as (Hhp1 & Hmax1 & Hpos1).
  assert (Hle : (hp (player s') <= hp (player (fst h)))%Z).
  { rewrite Hp. destruct (resolveEntity_vitals (environment s3) (player s3)) as [-> _].
    destruct (negb isMultiplayer || isHost).
    - destruct (enemyLogic_fields _ _ _ _ _ _ _ Hs3) as (-> & _).
      apply updateSnakes_fields.
    - rewrite Hs3. lia. }
  assert (Hcases : (hp (player s') <= hp (player s))%Z \/
                   ((hp (player s') <= hp (player s) + 1)%Z /\
                    (hp (player s) < maxHp (player s))%Z /\ 0.9 < rng k /\
                    exists stream,
                      In stream (environment s) /\ type stream = STREAM /\
                      dist (pos (movePlayer c (player s))) (pos stream) < radius stream)).
  { destruct (healPlayer_cases rng (setPlayer p1 s) k) as [E | (Hn & Hlt & Hr & Hh & _)];
      fold h in E || fold h in Hh.
    - left. rewrite E in Hle. simpl in Hle. lia.
    - right. simpl in Hlt, Hh. split; [lia|]. split; [lia|]. split; [exact Hr|].
      apply nearStream_inv in Hn. destruct Hn as (stream & Hin & Ht & Hd).
      simpl in Hin, Hd. rewrite Hpos1 in Hd. eauto. }
  split; [|split; [|split]].
  - destruct Hcases as [H | (H & _)]; lia.
  - intros Hup. destruct Hcases as [H | (H & Hlt & Hr & Hst)]; [lia|].
    repeat split; auto. lia.
  - intros Hdry. destruct Hcases as [H | (_ & _ & _ & stream & Hin & Ht & _)]; [exact H|].
    rewrite Forall_forall in Hdry. exfalso. exact (Hdry stream Hin Ht).
  - intros Hfull. destruct Hcases as [H | (_ & Hlt & _)]; lia.
Qed.

Lemma healing_needs_stream_witness :
  exists s' k',
    updatePhysics false false walkDown 0 (fun _ => 0) (fun _ => 0%nat) cornered 0
      = Some (s', k') /\
    (hp (player s') <= hp (player cornered) + 1)%Z.
Proof.
  destruct (updatePhysics_no_deaths false false walkDown 0 (fun _ => 0) (fun _ => 0%nat)
              cornered 0) as (s1 & k1 & Hrun); [repeat constructor|].
  exists s1, k1. split; [exact Hrun|].
  apply (healing_needs_stream false false walkDown 0 (fun _ => 0) (fun _ => 0%nat)
           cornered s1 0 k1 Hrun).
Defined.
